(** * lld-ood: parking garage, singletons, observer and two algorithm snippets

    A shallow embedding of the JavaScript sources
      - [lld/javascript/parking-garage.js]
      - [design-patterns/creational/singleton.js]
      - the observer example and [getSpecialString]
      - [liveupdates/PriorityQueue.js]
    together with the properties the specification states about them.

    JavaScript numbers are IEEE 754 binary64 values.  The only place where
    non-integral numbers occur is the [Level] constructor, which multiplies
    the spot count by [0.1] and [0.7]; there the product is computed with
    Rocq's primitive binary64 floats, so that rounding is the one the
    program performs. *)

From Stdlib Require Import ZArith Lia PrimFloat FloatOps SpecFloat Uint63.
From Stdlib Require Import Ascii String OrderedTypeEx.
From stdpp Require Import base list strings sorting.

(* The decimal literals [0.1] and [0.7] of the source denote the nearest
   binary64 values, as they do in JavaScript. *)
Set Warnings "-inexact-float".
Open Scope Z_scope.

(** ** Values shared by all modules: exceptions and the result of a call *)

Module JS.

(** The exceptions the sources can raise. *)
Inductive exn : Type :=
| Error (message : string)           (* [throw new Error(message)] *)
| ReferenceError (message : string)  (* an unbound identifier is read *)
| TypeError (message : string).

(** A call either completes with a value or throws. *)
Inductive result (A : Type) : Type :=
| Ok (a : A)
| Throw (e : exn).
Arguments Ok {A} a.
Arguments Throw {A} e.

#[global] Instance result_ret : MRet result := λ A a, Ok a.
#[global] Instance result_bind : MBind result := λ A B k m,
  match m with
  | Ok a => k a
  | Throw e => Throw e
  end.

Definition completes {A} (m : result A) : Prop :=
  match m with Ok _ => True | Throw _ => False end.

(** The number denoted by an integer, and [Math.floor] on binary64 (finite
    values only: the programs apply it to finite products). *)
Definition Number (n : Z) : float :=
  if n <? 0 then PrimFloat.opp (PrimFloat.of_uint63 (Uint63.of_Z (- n)))
  else PrimFloat.of_uint63 (Uint63.of_Z n).

Definition Math_floor (x : float) : Z :=
  match Prim2SF x with
  | S754_finite false m e =>
      if 0 <=? e then Z.shiftl (Z.pos m) e else Z.shiftr (Z.pos m) (- e)
  | S754_finite true m e =>
      if 0 <=? e then - Z.shiftl (Z.pos m) e
      else - Z.shiftr (Z.pos m + (2 ^ (- e) - 1)) (- e)
  | _ => 0
  end.

End JS.

(** ** The parking garage *)

Module ParkingGarage.
Import JS.

Inductive VehicleType : Type := CAR | MOTORCYCLE | TRUCK.

#[global] Instance VehicleType_eq_dec : EqDecision VehicleType.
Proof. solve_decision. Defined.

(** A vehicle object.  [ref] is the identity of the object: [===] on two
    vehicles compares references, not contents.  [Vehicle] is abstract (its
    constructor throws when called directly); vehicles are built by the
    three subclasses. *)
Record Vehicle : Type := mkVehicle {
  ref : nat;
  licensePlate : string;
  type : VehicleType
}.

Definition getType (v : Vehicle) : VehicleType := type v.

Definition new_Motorcycle (r : nat) (plate : string) : Vehicle :=
  mkVehicle r plate MOTORCYCLE.
Definition new_Car (r : nat) (plate : string) : Vehicle :=
  mkVehicle r plate CAR.
Definition new_Truck (r : nat) (plate : string) : Vehicle :=
  mkVehicle r plate TRUCK.

(** [a === b] on vehicle objects. *)
Definition same_vehicle (a b : Vehicle) : bool := Nat.eqb (ref a) (ref b).

Module ParkingSpot.

Record t : Type := mk {
  spotNumber : Z;
  vehicleType : VehicleType;
  parkedVehicle : option Vehicle   (* [null] is [None] *)
}.

Definition new (spotNumber : Z) (vehicleType : VehicleType) : t :=
  mk spotNumber vehicleType None.

Definition isAvailable (s : t) : bool :=
  match parkedVehicle s with None => true | Some _ => false end.

Definition getParkedVehicle (s : t) : option Vehicle := parkedVehicle s.
Definition getVehicleType (s : t) : VehicleType := vehicleType s.
Definition getSpotNumber (s : t) : Z := spotNumber s.

Definition parkVehicle (s : t) (vehicle : Vehicle) : result t :=
  if isAvailable s && bool_decide (getType vehicle = vehicleType s)
  then Ok (mk (spotNumber s) (vehicleType s) (Some vehicle))
  else Throw (Error "Invalid vehicle type or spot already occupied.").

Definition unparkVehicle (s : t) : t :=
  mk (spotNumber s) (vehicleType s) None.

(** [s.getParkedVehicle() === vehicle]; [null] is no vehicle. *)
Definition holds (s : t) (vehicle : Vehicle) : bool :=
  match getParkedVehicle s with
  | Some parked => same_vehicle parked vehicle
  | None => false
  end.

End ParkingSpot.

Module Level.

Record t : Type := mk {
  floor : Z;
  parkingSpots : list ParkingSpot.t
}.

(** [count] consecutive pushes of spots numbered [first], [first+1], ...:
    the body shared by the three [for] loops of the constructor. *)
Fixpoint pushSpots (first : Z) (count : nat) (ty : VehicleType)
  : list ParkingSpot.t :=
  match count with
  | O => []
  | S c => ParkingSpot.new first ty :: pushSpots (first + 1) c ty
  end.

Definition spotsForBikes : float := 0.1%float.
Definition spotsForCars : float := 0.7%float.
Definition spotsForTrucks : float := 0.2%float.

Definition numBikes (numSpots : Z) : Z :=
  Math_floor (PrimFloat.mul (Number numSpots) spotsForBikes).
Definition numCars (numSpots : Z) : Z :=
  Math_floor (PrimFloat.mul (Number numSpots) spotsForCars).
Definition numTrucks (numSpots : Z) : Z :=
  numSpots - (numBikes numSpots + numCars numSpots).

(** The constructor, for given values of [numBikes] and [numCars].  The
    first loop runs [i] from [1] while [i <= numBikes] and leaves [i] one
    past the last bike; the second runs [j] from [i] while
    [j < i + numCars]; the third runs [k] from [i + numCars] while
    [k <= numSpots]. *)
Definition build (floor numSpots nb nc : Z) : t :=
  let bikes := pushSpots 1 (Z.to_nat nb) MOTORCYCLE in
  let i := 1 + Z.max 0 nb in
  let cars := pushSpots i (Z.to_nat nc) CAR in
  let trucks :=
    pushSpots (i + nc) (Z.to_nat (numSpots - (i + nc) + 1)) TRUCK in
  mk floor (bikes ++ cars ++ trucks).

Definition new (floor numSpots : Z) : t :=
  build floor numSpots (numBikes numSpots) (numCars numSpots).

(** The loop of [parkVehicle] over the remaining spots; the spots are
    objects owned by the level, so the updated list is returned. *)
Fixpoint parkVehicle_spots (spots : list ParkingSpot.t) (vehicle : Vehicle)
  : result (bool * list ParkingSpot.t) :=
  match spots with
  | [] => Ok (false, [])
  | spot :: rest =>
      if ParkingSpot.isAvailable spot
         && bool_decide (ParkingSpot.getVehicleType spot = getType vehicle)
      then spot' ← ParkingSpot.parkVehicle spot vehicle;
           Ok (true, spot' :: rest)
      else '(b, rest') ← parkVehicle_spots rest vehicle;
           Ok (b, spot :: rest')
  end.

Definition parkVehicle (l : t) (vehicle : Vehicle) : result (bool * t) :=
  '(b, spots') ← parkVehicle_spots (parkingSpots l) vehicle;
  Ok (b, mk (floor l) spots').

Fixpoint unparkVehicle_spots (spots : list ParkingSpot.t) (vehicle : Vehicle)
  : bool * list ParkingSpot.t :=
  match spots with
  | [] => (false, [])
  | spot :: rest =>
      if negb (ParkingSpot.isAvailable spot) && ParkingSpot.holds spot vehicle
      then (true, ParkingSpot.unparkVehicle spot :: rest)
      else let '(b, rest') := unparkVehicle_spots rest vehicle in
           (b, spot :: rest')
  end.

Definition unparkVehicle (l : t) (vehicle : Vehicle) : bool * t :=
  let '(b, spots') := unparkVehicle_spots (parkingSpots l) vehicle in
  (b, mk (floor l) spots').

(** Number of spots of a level reserved for a vehicle type. *)
Definition countType (ty : VehicleType) (l : t) : nat :=
  length (filter (λ s, ParkingSpot.vehicleType s = ty) (parkingSpots l)).

End Level.

Module ParkingLot.

(** The parking lot and the objects it can reach.  [Level] objects are
    shared by reference: [heap] holds every [Level] object constructed so
    far, a reference is an index into it, and [levels] is the array
    [this.levels] of references.  [console] collects what [console.log]
    printed. *)
Record t : Type := mk {
  heap : list Level.t;
  levels : list nat;
  console : list string
}.

(** A fresh lot: [this.levels = []]. *)
Definition new : t := mk [] [] [].

(** [new Level(floor, numSpots)]: a new object and the reference to it. *)
Definition new_Level (floor numSpots : Z) (w : t) : nat * t :=
  (length (heap w),
   mk (heap w ++ [Level.new floor numSpots]) (levels w) (console w)).

Definition addLevel (w : t) (level : nat) : t :=
  mk (heap w) (levels w ++ [level]) (console w).

(** The loop of [parkVehicle] over the remaining level references.  The
    object behind a reference is read, the call may change it, and the
    change is seen through every reference to it. *)
Fixpoint parkVehicle_levels (todo : list nat) (vehicle : Vehicle)
  (h : list Level.t) : result (bool * list Level.t) :=
  match todo with
  | [] => Ok (false, h)
  | level :: rest =>
      match h !! level with
      | Some l =>
          match Level.parkVehicle l vehicle with
          | Ok (b, l') =>
              let h' := <[level := l']> h in
              if b then Ok (true, h') else parkVehicle_levels rest vehicle h'
          | Throw e => Throw e
          end
      | None => parkVehicle_levels rest vehicle h
      end
  end.

Definition parkVehicle (w : t) (vehicle : Vehicle) : result (bool * t) :=
  match parkVehicle_levels (levels w) vehicle (heap w) with
  | Ok (true, h') =>
      Ok (true, mk h' (levels w) (console w ++ ["Vehicle parked successfully."]))
  | Ok (false, h') =>
      Ok (false, mk h' (levels w) (console w ++ ["Could not park vehicle."]))
  | Throw e => Throw e
  end.

Fixpoint unparkVehicle_levels (todo : list nat) (vehicle : Vehicle)
  (h : list Level.t) : bool * list Level.t :=
  match todo with
  | [] => (false, h)
  | level :: rest =>
      match h !! level with
      | Some l =>
          let '(b, l') := Level.unparkVehicle l vehicle in
          let h' := <[level := l']> h in
          if b then (true, h') else unparkVehicle_levels rest vehicle h'
      | None => unparkVehicle_levels rest vehicle h
      end
  end.

Definition unparkVehicle (w : t) (vehicle : Vehicle) : bool * t :=
  let '(b, h') := unparkVehicle_levels (levels w) vehicle (heap w) in
  (b, mk h' (levels w) (console w)).

(** The spot at index [i] of the level object [level]. *)
Definition spotAt (w : t) (level i : nat) : option ParkingSpot.t :=
  l ← heap w !! level; Level.parkingSpots l !! i.

End ParkingLot.

(** *** Vocabulary of the parking properties *)

(** [s] is free and of the type of [v]: the test of [Level.parkVehicle]. *)
Definition free_for (v : Vehicle) (s : ParkingSpot.t) : Prop :=
  ParkingSpot.isAvailable s = true ∧ ParkingSpot.getVehicleType s = getType v.

(** The spot [s] after [v] has been assigned to it. *)
Definition occupied_by (v : Vehicle) (s : ParkingSpot.t) : ParkingSpot.t :=
  ParkingSpot.mk (ParkingSpot.spotNumber s) (ParkingSpot.vehicleType s) (Some v).

(** No spot of the level object [level] is free for [v]. *)
Definition no_free_spot (h : list Level.t) (v : Vehicle) (level : nat) : Prop :=
  ∀ l i s, h !! level = Some l → Level.parkingSpots l !! i = Some s →
           ¬ free_for v s.

(** No spot of the level object [level] holds [v]. *)
Definition not_in_level (h : list Level.t) (v : Vehicle) (level : nat) : Prop :=
  ∀ l i s, h !! level = Some l → Level.parkingSpots l !! i = Some s →
           ParkingSpot.holds s v = false.

(** A spot is named by the level object it belongs to and its index in
    [parkingSpots].  [occupies w v level i]: that spot holds [v]. *)
Definition occupies (w : ParkingLot.t) (v : Vehicle) (level i : nat) : Prop :=
  ∃ s, ParkingLot.spotAt w level i = Some s ∧ ParkingSpot.holds s v = true.

(** [v] is parked in a spot of a level of the lot. *)
Definition is_parked (w : ParkingLot.t) (v : Vehicle) : Prop :=
  ∃ level i, level ∈ ParkingLot.levels w ∧ occupies w v level i.

(** No vehicle is the parked vehicle of two distinct spots. *)
Definition at_most_one_spot (w : ParkingLot.t) : Prop :=
  ∀ v level1 i1 level2 i2,
    occupies w v level1 i1 → occupies w v level2 i2 →
    level1 = level2 ∧ i1 = i2.

(** States reachable from a fresh lot by constructing levels and calling
    [addLevel], [parkVehicle] and [unparkVehicle] on the lot. *)
Inductive reachable : ParkingLot.t → Prop :=
| reach_new : reachable ParkingLot.new
| reach_new_Level w floor numSpots :
    reachable w → reachable (ParkingLot.new_Level floor numSpots w).2
| reach_addLevel w level :
    reachable w → (level < length (ParkingLot.heap w))%nat →
    reachable (ParkingLot.addLevel w level)
| reach_parkVehicle w v b w' :
    reachable w → ParkingLot.parkVehicle w v = Ok (b, w') → reachable w'
| reach_unparkVehicle w v :
    reachable w → reachable (ParkingLot.unparkVehicle w v).2.

(** Level objects that were not added to the lot have no parked vehicle. *)
Definition parked_only_in_lot (w : ParkingLot.t) : Prop :=
  ∀ level l i s,
    ParkingLot.heap w !! level = Some l → level ∉ ParkingLot.levels w →
    Level.parkingSpots l !! i = Some s → ParkingSpot.parkedVehicle s = None.

(** The same, where [parkVehicle] is only called with a vehicle that is not
    parked at the time of the call. *)
Inductive reachable_parking_once : ParkingLot.t → Prop :=
| once_new : reachable_parking_once ParkingLot.new
| once_new_Level w floor numSpots :
    reachable_parking_once w →
    reachable_parking_once (ParkingLot.new_Level floor numSpots w).2
| once_addLevel w level :
    reachable_parking_once w → (level < length (ParkingLot.heap w))%nat →
    reachable_parking_once (ParkingLot.addLevel w level)
| once_parkVehicle w v b w' :
    reachable_parking_once w → ¬ is_parked w v →
    ParkingLot.parkVehicle w v = Ok (b, w') → reachable_parking_once w'
| once_unparkVehicle w v :
    reachable_parking_once w →
    reachable_parking_once (ParkingLot.unparkVehicle w v).2.

(** The vehicles of the example script, and a lot with one level of ten
    spots (one for motorcycles, seven for cars, two for trucks). *)
Definition car : Vehicle := new_Car 0 "ABC123".
Definition truck : Vehicle := new_Truck 1 "XYZ789".
Definition motorcycle : Vehicle := new_Motorcycle 2 "M1234".

Definition small_lot : ParkingLot.t :=
  let '(level, w) := ParkingLot.new_Level 1 10 ParkingLot.new in
  ParkingLot.addLevel w level.

(** The lot of the example script: a level of 100 and a level of 80
    spots. *)
Definition script_lot : ParkingLot.t :=
  let '(level1, w1) := ParkingLot.new_Level 1 100 ParkingLot.new in
  let w2 := ParkingLot.addLevel w1 level1 in
  let '(level2, w3) := ParkingLot.new_Level 2 80 w2 in
  ParkingLot.addLevel w3 level2.

(** A lot whose only level has a single spot, which is a truck spot. *)
Definition truck_only_lot : ParkingLot.t :=
  let '(level, w) := ParkingLot.new_Level 1 1 ParkingLot.new in
  ParkingLot.addLevel w level.

(** The state after [w.parkVehicle(v)]. *)
Definition after_parkVehicle (w : ParkingLot.t) (v : Vehicle) : ParkingLot.t :=
  match ParkingLot.parkVehicle w v with
  | Ok (_, w') => w'
  | Throw _ => w
  end.

End ParkingGarage.

(** ** The two singleton classes *)

Module Singletons.
Import JS.

(** Objects live in a heap and are named by their index in it; a variable
    that holds [null] or an object is an [option] of a reference. *)

(** *** [class Singleton] of [singleton.js] *)
Module Singleton.

(** An object of the class: [someValue] is unset until the constructor
    assigns it. *)
Record object : Type := mk_object { someValue : option Z }.

(** The heap of [Singleton] objects and the static field
    [Singleton.instance]. *)
Record state : Type := mk {
  heap : list object;
  instance : option nat
}.

(** The state when the class has been defined: [static instance = null]. *)
Definition init : state := mk [] None.

(** [new Singleton()].  The object [this] is allocated first; a
    constructor that returns an object makes [new] evaluate to that object
    instead of [this]. *)
Definition new (st : state) : nat * state :=
  let this := length (heap st) in
  let heap1 := heap st ++ [mk_object None] in
  match instance st with
  | Some existing => (existing, mk heap1 (instance st))
  | None =>
      let heap2 := <[this := mk_object (Some 42)]> heap1 in
      (this, mk heap2 (Some this))
  end.

(** [Singleton.getInstance()]; the value returned is the content of
    [Singleton.instance]. *)
Definition getInstance (st : state) : option nat * state :=
  let st1 :=
    match instance st with
    | None => let '(created, st') := new st in mk (heap st') (Some created)
    | Some _ => st
    end in
  (instance st1, st1).

(** The two ways of acquiring the instance. *)
Inductive access : Type := ByNew | ByGetInstance.

Definition acquire (a : access) (st : state) : option nat * state :=
  match a with
  | ByNew => let '(r, st') := new st in (Some r, st')
  | ByGetInstance => getInstance st
  end.

(** The references obtained by a sequence of acquisitions. *)
Fixpoint acquire_all (accesses : list access) (st : state) : list (option nat) :=
  match accesses with
  | [] => []
  | a :: rest =>
      let '(r, st') := acquire a st in r :: acquire_all rest st'
  end.

End Singleton.

(** *** [class ParkingLot] of [parking-garage.js] *)
Module ParkingLot.

(** Only the array [levels] of the object matters here. *)
Record object : Type := mk_object { levels : list nat }.

(** The heap of [ParkingLot] objects and the module variable [instance]. *)
Record state : Type := mk {
  heap : list object;
  instance : option nat
}.

(** [let instance = null]. *)
Definition init : state := mk [] None.

(** [new ParkingLot()]. *)
Definition new (st : state) : result (nat * state) :=
  let this := length (heap st) in
  match instance st with
  | Some _ =>
      Throw (Error "Use ParkingLot.getInstance() to get the singleton instance.")
  | None => Ok (this, mk (heap st ++ [mk_object []]) (instance st))
  end.

(** [ParkingLot.getInstance()]. *)
Definition getInstance (st : state) : result (option nat * state) :=
  match instance st with
  | None =>
      match new st with
      | Ok (created, st') => Ok (Some created, mk (heap st') (Some created))
      | Throw e => Throw e
      end
  | Some existing => Ok (Some existing, st)
  end.

End ParkingLot.

End Singletons.

(** ** The observer example *)

Module Observer.
Import JS.

(** Values of the example: strings, references to objects, and classes. *)
Inductive value : Type :=
| Str (s : string)
| Obj (r : nat)
| Class (name : string)
| Undefined.

(** A scope chain: the bindings visible at a program point, innermost
    first.  Reading an identifier that no scope binds throws a
    [ReferenceError]. *)
Definition scope : Type := list (string * value).

Fixpoint resolve (name : string) (env : scope) : result value :=
  match env with
  | [] => Throw (ReferenceError (name +:+ " is not defined"))
  | (x, v) :: rest => if String.eqb x name then Ok v else resolve name rest
  end.

(** A call of [update(data)] on the observer [observer]. *)
Inductive event : Type := Update (observer : nat) (data : value).

(** [class Subject]: the array [observers] of references. *)
Record Subject : Type := mkSubject { observers : list nat }.

Definition new_Subject : Subject := mkSubject [].

Definition attach (this : Subject) (observer : nat) : Subject :=
  mkSubject (observers this ++ [observer]).

Definition detach (this : Subject) (observer : nat) : Subject :=
  mkSubject (filter (λ o, o ≠ observer) (observers this)).

(** [this.observers.forEach((o) => o.update(data))] over the remaining
    observers.  The argument [data] is evaluated in the scope of the arrow
    function before [update] is entered.  The result is the sequence of
    [update] calls made and the exception that ended the loop, if any. *)
Fixpoint forEach_update (todo : list nat) (env : scope) (done : list event)
  : list event * option exn :=
  match todo with
  | [] => (done, None)
  | o :: rest =>
      match resolve "data" (("o", Obj o) :: env) with
      | Ok d => forEach_update rest env (done ++ [Update o d])
      | Throw e => (done, Some e)
      end
  end.

(** [notify(observer)]: the parameter is called [observer]; [outer] is the
    scope in which the class is defined. *)
Definition notify (outer : scope) (this : Subject) (observer : value)
  : list event * option exn :=
  forEach_update (observers this) (("observer", observer) :: outer) [].

(** The example script: the top-level bindings of the file, in which
    [observer1] and [observer2] are the objects 1 and 2 and [subject] is
    object 0. *)
Definition observer1 : nat := 1%nat.
Definition observer2 : nat := 2%nat.
Definition module_scope : scope :=
  [("Subject", Class "Subject"); ("ConcreteObserver", Class "ConcreteObserver");
   ("subject", Obj 0); ("observer1", Obj observer1); ("observer2", Obj observer2)].

Definition subject : Subject := attach (attach new_Subject observer1) observer2.

End Observer.

(** ** [getSpecialString] *)

Module SpecialString.
Import JS.

(** [s.split('')] and [chars.join('')]; the strings of interest consist of
    lowercase letters, one character per code unit. *)
Definition split (s : string) : list ascii := list_ascii_of_string s.
Definition join (chars : list ascii) : string := string_of_list_ascii chars.

Definition charCodeAt0 (c : ascii) : nat := nat_of_ascii c.
Definition fromCharCode (code : nat) : ascii := ascii_of_nat code.

(** [nextChar !== chars[j]]; an index outside the array reads [undefined],
    which differs from every character. *)
Definition differs (nextChar : ascii) (chars : list ascii) (j : nat) : bool :=
  match chars !! j with
  | Some c => negb (Ascii.eqb nextChar c)
  | None => true
  end.

(** The codes visited by [for (code = first; code <= 122; code++)]. *)
Definition codes_from (first : nat) : list nat := seq first (123 - first).

(** The inner loop of [fillRest] at position [i]: the array after the
    assignment and whether a character was found. *)
Fixpoint fillRest_codes (codes : list nat) (chars : list ascii) (i : nat)
  : bool * list ascii :=
  match codes with
  | [] => (false, chars)
  | code :: rest =>
      let nextChar := fromCharCode code in
      if (i =? 0)%nat || differs nextChar chars (i - 1)
      then (true, <[i := nextChar]> chars)
      else fillRest_codes rest chars i
  end.

(** The outer loop of [fillRest] over the remaining positions. *)
Fixpoint fillRest_positions (positions : list nat) (chars : list ascii)
  : bool * list ascii :=
  match positions with
  | [] => (true, chars)
  | i :: rest =>
      let '(found, chars') := fillRest_codes (codes_from 97) chars i in
      if found then fillRest_positions rest chars' else (false, chars')
  end.

(** [fillRest(chars, startIndex)]: the result and the array, which is
    changed in place. *)
Definition fillRest (chars : list ascii) (startIndex : nat) : bool * list ascii :=
  let n := length chars in
  fillRest_positions (seq startIndex (n - startIndex)) chars.

(** The inner loop of [getSpecialString] at position [index]: the string
    returned, if any, and the array. *)
Fixpoint try_codes (codes : list nat) (chars : list ascii) (index : nat)
  : option string * list ascii :=
  match codes with
  | [] => (None, chars)
  | code :: rest =>
      let nextChar := fromCharCode code in
      if (index =? 0)%nat || differs nextChar chars (index - 1)
      then
        let chars1 := <[index := nextChar]> chars in
        let '(filled, chars2) := fillRest chars1 (index + 1) in
        if filled then (Some (join chars2), chars2)
        else try_codes rest chars2 index
      else try_codes rest chars index
  end.

(** The outer loop, over the positions [n - 1] down to [0]. *)
Fixpoint try_positions (positions : list nat) (chars : list ascii)
  : result string :=
  match positions with
  | [] => Ok "-1"
  | index :: rest =>
      match chars !! index with
      | Some c =>
          let currentCharCode := charCodeAt0 c in
          match try_codes (codes_from (currentCharCode + 1)) chars index with
          | (Some special, _) => Ok special
          | (None, chars') => try_positions rest chars'
          end
      | None => Throw (TypeError "Cannot read properties of undefined")
      end
  end.

Definition getSpecialString (s : string) : result string :=
  let n := String.length s in
  let chars := split s in
  try_positions (rev (seq 0 n)) chars.

(** *** Vocabulary of the property *)

Definition lowercase (s : string) : Prop :=
  Forall (λ c, (97 ≤ nat_of_ascii c ≤ 122)%nat) (list_ascii_of_string s).

(** No two adjacent characters are equal. *)
Fixpoint no_adjacent_equal (chars : list ascii) : bool :=
  match chars with
  | a :: (b :: _) as rest => negb (Ascii.eqb a b) && no_adjacent_equal rest
  | _ => true
  end.

Definition special (s : string) : bool :=
  no_adjacent_equal (list_ascii_of_string s).

(** Strict lexicographic order by character code. *)
Fixpoint lex_lt (a b : list ascii) : bool :=
  match a, b with
  | [], [] => false
  | [], _ :: _ => true
  | _ :: _, [] => false
  | x :: a', y :: b' =>
      (nat_of_ascii x <? nat_of_ascii y)%nat
      || ((nat_of_ascii x =? nat_of_ascii y)%nat && lex_lt a' b')
  end.

Definition string_lt (s t : string) : bool :=
  lex_lt (list_ascii_of_string s) (list_ascii_of_string t).

(** [t] is an admissible answer for [s]: of the same length, strictly
    greater, lowercase, without two equal adjacent characters. *)
Definition candidate (s t : string) : Prop :=
  String.length t = String.length s ∧ lowercase t
  ∧ string_lt s t = true ∧ special t = true.

End SpecialString.

(** ** [topKFrequent] *)

Module TopK.

(** The priority queue comes from the package
    [@datastructures-js/priority-queue], which is not part of the
    repository; the program imports its class [PriorityQueue].  The queue
    object is taken as a parameter: any implementation with the
    operations the program calls and the contract of a priority queue.
    [queue compare] is a queue ordered by [compare]; [toArray] lists what
    it holds.  [dequeue] stands for [pq.dequeue()]: it gives the value at
    the front, as it was enqueued, and the queue after the call; [None]
    is the [null] of an empty queue. *)

(** [compare] is a usable comparator: total and transitive. *)
Definition total_preorder {E : Type} (compare : E → E → Z) : Prop :=
  (∀ a b, compare a b ≤ 0 ∨ compare b a ≤ 0)
  ∧ (∀ a b c, compare a b ≤ 0 → compare b c ≤ 0 → compare a c ≤ 0).

Class PriorityQueue (E : Type) : Type := {
  queue : (E → E → Z) → Type;
  new_PriorityQueue : ∀ compare, queue compare;
  enqueue : ∀ {compare}, queue compare → E → queue compare;
  dequeue : ∀ {compare}, queue compare → option (E * queue compare);
  isEmpty : ∀ {compare}, queue compare → bool;
  toArray : ∀ {compare}, queue compare → list E;
  toArray_new : ∀ compare, toArray (new_PriorityQueue compare) = [];
  toArray_enqueue : ∀ compare (q : queue compare) e,
    toArray (enqueue q e) ≡ₚ e :: toArray q;
  isEmpty_toArray : ∀ compare (q : queue compare),
    isEmpty q = true ↔ toArray q = [];
  dequeue_empty : ∀ compare (q : queue compare),
    toArray q = [] → dequeue q = None;
  dequeue_front : ∀ compare (q : queue compare),
    toArray q ≠ [] →
    ∃ e q', dequeue q = Some (e, q')
            ∧ toArray q ≡ₚ e :: toArray q'
            ∧ (total_preorder compare →
               ∀ x, x ∈ toArray q → compare e x ≤ 0)
}.

(** A [Map] from words to counts: the entries in insertion order, at most
    one per key. *)
Definition entry : Type := string * Z.

Fixpoint Map_get (m : list entry) (key : string) : option Z :=
  match m with
  | [] => None
  | (k, v) :: rest => if decide (k = key) then Some v else Map_get rest key
  end.

(** [m.set(key, value)]: an existing key keeps its place. *)
Fixpoint Map_set (m : list entry) (key : string) (value : Z) : list entry :=
  match m with
  | [] => [(key, value)]
  | (k, v) :: rest =>
      if decide (k = key) then (key, value) :: rest
      else (k, v) :: Map_set rest key value
  end.

(** [freq.get(word) || 0]: a missing key reads [undefined]. *)
Definition get_or_0 (m : list entry) (word : string) : Z :=
  match Map_get m word with
  | Some count => if count =? 0 then 0 else count
  | None => 0
  end.

Definition getFrequencies (words : list string) : list entry :=
  fold_left (λ freq word, Map_set freq word (get_or_0 freq word + 1)) words [].

(** The releases of the package that export [PriorityQueue] differ in the
    constructor.  In 5.x it takes an object of options, with the
    comparator under [compare].  In 6.x it takes the comparator itself and
    throws for an argument that is not a function. *)
Inductive release : Type := release_5 | release_6.

(** [new PriorityQueue({ compare })], the call of the program. *)
Definition new_PriorityQueue_of_options `{PriorityQueue E} (library : release)
    (compare : E → E → Z) : JS.result (queue compare) :=
  match library with
  | release_5 => JS.Ok (new_PriorityQueue compare)
  | release_6 =>
      JS.Throw (JS.Error "PriorityQueue constructor requires a compare function")
  end.

(** What the program reads from a dequeued item. *)
Inductive value : Type :=
| undefined
| array (word : string) (count : Z).

(** [item.element].  The item is the array [[word, count]] that was
    enqueued: it has the properties [0], [1] and [length] and those of
    [Array.prototype], and [element] is none of them. *)
Definition element (item : entry) : value := undefined.

(** [const [word, count] = v] needs a value that can be iterated. *)
Definition destructure (v : value) : JS.result (string * Z) :=
  match v with
  | undefined => JS.Throw (JS.TypeError "undefined is not iterable")
  | array word count => JS.Ok (word, count)
  end.

Section WithLibrary.

(** [a.localeCompare(b)] depends on the collation of the host; it is a
    parameter. *)
Variable localeCompare : string → string → Z.
Context `{PQ : PriorityQueue entry}.

Definition compareFunc (a b : entry) : Z :=
  if negb (a.2 =? b.2) then b.2 - a.2 else localeCompare a.1 b.1.

(** The loop [for (i = 0; i < k && !pq.isEmpty(); i++)] with [remaining]
    iterations left before [i] reaches [k]. *)
Fixpoint dequeue_loop (remaining : nat) (pq : queue compareFunc)
  (result : list string) : JS.result (list string) :=
  match remaining with
  | O => JS.Ok result
  | S remaining' =>
      if isEmpty pq then JS.Ok result
      else match dequeue pq with
           | Some (item, pq') =>
               match destructure (element item) with
               | JS.Ok (word, count) =>
                   dequeue_loop remaining' pq' (result ++ [word])
               | JS.Throw e => JS.Throw e
               end
           | None =>
               JS.Throw (JS.TypeError "Cannot read properties of null")
           end
  end.

Definition topKFrequent (library : release) (words : list string) (k : Z)
  : JS.result (list string) :=
  match words with
  | [] => JS.Ok []
  | _ =>
      let freq := getFrequencies words in
      match new_PriorityQueue_of_options library compareFunc with
      | JS.Throw e => JS.Throw e
      | JS.Ok pq =>
          let pq := fold_left enqueue freq pq in
          dequeue_loop (Z.to_nat k) pq []
      end
  end.

(** *** Vocabulary of the property *)

(** The collation orders the words: a strict total order, reported by the
    sign of the result. *)
Definition collation : Prop :=
  (∀ a b, localeCompare a b = 0 → a = b)
  ∧ (∀ a, localeCompare a a = 0)
  ∧ (∀ a b, 0 < localeCompare a b ↔ localeCompare b a < 0)
  ∧ (∀ a b c, localeCompare a b ≤ 0 → localeCompare b c ≤ 0 →
              localeCompare a c ≤ 0).

(** Number of occurrences of a word in the input. *)
Definition frequency (words : list string) (w : string) : Z :=
  Z.of_nat (length (filter (λ x, x = w) words)).

(** [a] comes before [b]: it is more frequent, or as frequent and first in
    the order of the collation. *)
Definition ranks_before (words : list string) (a b : string) : Prop :=
  frequency words b < frequency words a
  ∨ (frequency words a = frequency words b ∧ localeCompare a b < 0).

End WithLibrary.

(** The inputs of the example usage. *)
Definition words1 : list string :=
  ["i"; "love"; "leetcode"; "i"; "love"; "coding"].
Definition words2 : list string :=
  ["the"; "day"; "is"; "sunny"; "the"; "the"; "the"; "sunny"; "is"; "is"].
Definition words3 : list string := ["i"; "i"; "i"].

(** A reference implementation of the queue: an unordered list from which
    [dequeue] removes a least element. *)
Fixpoint extract_min {E} (compare : E → E → Z) (l : list E) : option (E * list E) :=
  match l with
  | [] => None
  | x :: rest =>
      match extract_min compare rest with
      | None => Some (x, [])
      | Some (m, rest') =>
          if compare x m <=? 0 then Some (x, rest) else Some (m, x :: rest')
      end
  end.

(** The order of words by character code, as a comparator. *)
Definition codeCompare (a b : string) : Z :=
  match String.compare a b with
  | Lt => -1
  | Eq => 0
  | Gt => 1
  end.

End TopK.

(** ** Further vocabulary of the parking garage *)

Module ParkingInvariants.
Import JS ParkingGarage.

(** Every parked vehicle is of the type of the spot that holds it. *)
Definition types_match (w : ParkingLot.t) : Prop :=
  ∀ level l i s v,
    ParkingLot.heap w !! level = Some l →
    Level.parkingSpots l !! i = Some s →
    ParkingSpot.parkedVehicle s = Some v →
    getType v = ParkingSpot.vehicleType s.

(** The numbers and types of the spots of a level, in order. *)
Definition layout (l : Level.t) : list (Z * VehicleType) :=
  (λ s, (ParkingSpot.spotNumber s, ParkingSpot.vehicleType s))
    <$> Level.parkingSpots l.

(** The runs of [reachable], with the arguments of the calls of
    [new Level] in the order of the calls: the level object at index
    [level] of the heap is the one built by the call at index [level]. *)
Inductive reachable_building : list (Z * Z) → ParkingLot.t → Prop :=
| building_new : reachable_building [] ParkingLot.new
| building_new_Level built w floor numSpots :
    reachable_building built w →
    reachable_building (built ++ [(floor, numSpots)])
      (ParkingLot.new_Level floor numSpots w).2
| building_addLevel built w level :
    reachable_building built w → (level < length (ParkingLot.heap w))%nat →
    reachable_building built (ParkingLot.addLevel w level)
| building_parkVehicle built w v b w' :
    reachable_building built w → ParkingLot.parkVehicle w v = Ok (b, w') →
    reachable_building built w'
| building_unparkVehicle built w v :
    reachable_building built w →
    reachable_building built (ParkingLot.unparkVehicle w v).2.

(** Every level object has the floor and the spots it was constructed
    with: the object built by [new Level(floor, numSpots)] has the floor
    [floor] and the spot numbers and types of a fresh
    [new Level(floor, numSpots)], and there are no other level objects. *)
Definition as_constructed (built : list (Z * Z)) (w : ParkingLot.t) : Prop :=
  length (ParkingLot.heap w) = length built
  ∧ ∀ level floor numSpots,
      built !! level = Some (floor, numSpots) →
      ∃ l, ParkingLot.heap w !! level = Some l
           ∧ Level.floor l = floor
           ∧ layout l = layout (Level.new floor numSpots).

(** The type of the spot at index [i] of a level with [nb] motorcycle
    spots and [nc] car spots. *)
Definition type_at (nb nc : Z) (i : nat) : VehicleType :=
  if Z.of_nat i <? nb then MOTORCYCLE
  else if Z.of_nat i <? nb + nc then CAR
  else TRUCK.

(** The shares of a level are in order: none is negative and they leave
    room for the trucks. *)
Definition shares_in_range (numSpots : Z) : bool :=
  (0 <=? Level.numBikes numSpots) && (0 <=? Level.numCars numSpots)
  && (Level.numBikes numSpots + Level.numCars numSpots <=? numSpots)
  && (Level.numBikes numSpots =? numSpots / 10)
  && ((Level.numCars numSpots =? 7 * numSpots / 10)
      || (Level.numCars numSpots =? 7 * numSpots / 10 - 1)).

(** [f] holds at [start], [start + 1], ..., [count] values in all. *)
Fixpoint all_from (f : Z → bool) (start : Z) (count : nat) : bool :=
  match count with
  | O => true
  | S c => f start && all_from f (start + 1) c
  end.

End ParkingInvariants.

(** ** Further vocabulary of [topKFrequent] *)

Module TopKOrder.
Import TopK.

(** The distinct words of a list, each at the place of its first
    occurrence. *)
Fixpoint first_occurrences (words : list string) : list string :=
  match words with
  | [] => []
  | w :: rest => w :: filter (λ x, x ≠ w) (first_occurrences rest)
  end.

(** The sum of the counts of a map. *)
Definition total_count (m : list entry) : Z := foldr Z.add 0 m.*2.

(** [a] is not after [b] for the comparator of the program. *)
Definition comes_first (localeCompare : string → string → Z) (a b : entry)
  : Prop :=
  compareFunc localeCompare a b ≤ 0.

#[global] Instance comes_first_dec localeCompare a b :
  Decision (comes_first localeCompare a b).
Proof. unfold comes_first. apply _. Defined.

(** The entries of the frequency map, sorted by the comparator. *)
Definition sorted_entries (localeCompare : string → string → Z)
  (words : list string) : list entry :=
  merge_sort (comes_first localeCompare) (getFrequencies words).

End TopKOrder.

(** ** Further vocabulary of [getSpecialString] *)

Module SpecialStringSteps.
Import SpecialString.

(** The least lowercase letter that differs from [prev]. *)
Definition least_after (prev : option ascii) : ascii :=
  match prev with
  | Some c => if Ascii.eqb "a" c then "b"%char else "a"%char
  | None => "a"%char
  end.

(** The left neighbour of position [i], if there is one. *)
Definition prev_at (chars : list ascii) (i : nat) : option ascii :=
  match i with
  | O => None
  | S j => chars !! j
  end.

(** [count] letters, each the least one that differs from the letter
    before it, the first one being preceded by [prev]. *)
Fixpoint fill (prev : option ascii) (count : nat) : list ascii :=
  match count with
  | O => []
  | S c => least_after prev :: fill (Some (least_after prev)) c
  end.

(** The least letter after [c], up to [z], that differs from [prev]. *)
Definition next_char (prev : option ascii) (c : ascii) : option ascii :=
  let code := nat_of_ascii c in
  if (122 <=? code)%nat then None
  else if bool_decide (prev = Some (ascii_of_nat (code + 1)))
       then if (121 <=? code)%nat then None
            else Some (ascii_of_nat (code + 2))
       else Some (ascii_of_nat (code + 1)).

(** The string obtained by raising position [p] and refilling behind it. *)
Definition answer_at (chars : list ascii) (p : nat) : option (list ascii) :=
  c ← chars !! p;
  x ← next_char (prev_at chars p) c;
  Some (take p chars ++ x :: fill (Some x) (length chars - p - 1)).

(** The first position of the list that has an answer decides. *)
Fixpoint answer_from (positions : list nat) (chars : list ascii) : string :=
  match positions with
  | [] => "-1"
  | p :: rest =>
      match answer_at chars p with
      | Some t => join t
      | None => answer_from rest chars
      end
  end.

Definition lowercase_chars (chars : list ascii) : Prop :=
  Forall (λ c, (97 ≤ nat_of_ascii c ≤ 122)%nat) chars.

End SpecialStringSteps.

(** ** Strings and the recursion exercises *)

Module Exercises.
Import JS.

(** [s.substring(start, end)] on a string given by its characters: both
    indices are clamped to the string, and they are swapped when the first
    is the greater. *)
Definition clamp (len : nat) (i : Z) : nat := Z.to_nat (Z.min (Z.max i 0) (Z.of_nat len)).

Definition substring (s : list ascii) (indexStart indexEnd : Z) : list ascii :=
  let a := clamp (length s) indexStart in
  let b := clamp (length s) indexEnd in
  let lo := Nat.min a b in
  let hi := Nat.max a b in
  take (hi - lo) (drop lo s).

(** [truncateString(str, maxLength)] of the test harness. *)
Definition truncateString (str : list ascii) (maxLength : Z) : list ascii :=
  if Z.of_nat (length str) <=? maxLength then str
  else substring str 0 maxLength ++ list_ascii_of_string "...".

(** [s[i]] as a string: one character, or [undefined], which [+] turns
    into the word. *)
Definition charAt (s : list ascii) (i : nat) : list ascii :=
  match s !! i with
  | Some c => [c]
  | None => list_ascii_of_string "undefined"
  end.

(** [reverse(s)] of [reverseString.js].  The recursion is not on a smaller
    argument in every case, so the depth of the call stack is bounded by
    [depth]; [None] stands for a stack that is exhausted. *)
Fixpoint reverse (depth : nat) (s : list ascii) : option (list ascii) :=
  match depth with
  | O => None
  | S d =>
      let length := length s in
      if (length =? 0)%nat then Some []
      else
        let left := charAt s 0 in
        let right := charAt s (length - 1) in
        let substring := substring s 1 (Z.of_nat length - 1) in
        match reverse d substring with
        | Some r => Some (right ++ r ++ left)
        | None => None
        end
  end.

(** [findMax(i, lst)] of [findMax.js], where [rest] holds the elements
    from index [i] on; the pair [[null, null]] is [None]. *)
Fixpoint findMax (i : nat) (rest : list Z) : option (Z * nat) :=
  match rest with
  | [] => None
  | x :: rest' =>
      match findMax (S i) rest' with
      | None => Some (x, i)
      | Some (bestMax, bestIndex) =>
          if bestMax <? x then Some (x, i) else Some (bestMax, bestIndex)
      end
  end.

Definition findMaximumElement (lst : list Z) : option (Z * nat) :=
  findMax 0 lst.

(** The largest value of [findMatrixMax.js] starts at [-Infinity]. *)
Inductive number : Type := NegInfinity | Num (z : Z).

Definition gt (x : Z) (y : number) : bool :=
  match y with
  | NegInfinity => true
  | Num z => z <? x
  end.

Record position : Type := mkPosition {
  maxValue : number;
  row : Z;
  col : Z
}.

(** [matrixMax(row, col, matrix)] where [cells] holds the cells of row
    [row] from column [col] on and [below] is the result for the rows
    after it. *)
Fixpoint rowMax (r c : nat) (cells : list Z) (below : position) : position :=
  match cells with
  | [] => below
  | x :: cells' =>
      let nextMax := rowMax r (S c) cells' below in
      if gt x (maxValue nextMax)
      then mkPosition (Num x) (Z.of_nat r) (Z.of_nat c)
      else nextMax
  end.

Fixpoint matrixMax (r : nat) (rows : list (list Z)) : position :=
  match rows with
  | [] => mkPosition NegInfinity (-1) (-1)
  | cells :: rows' => rowMax r 0 cells (matrixMax (S r) rows')
  end.

Definition findMatrixMax (lst : list (list Z)) : position := matrixMax 0 lst.

End Exercises.

(** ** The iterator example *)

Module Iterator.

(** [CustomCollection]: the array [items]. *)
Record CustomCollection (A : Type) : Type := mkCollection { items : list A }.
Arguments mkCollection {A} items.
Arguments items {A} c.

Definition new_CustomCollection {A} : CustomCollection A := mkCollection [].

Definition addItem {A} (this : CustomCollection A) (item : A) : CustomCollection A :=
  mkCollection (items this ++ [item]).

(** The object returned by [next()]: [{ value, done: false }] or
    [{ done: true }]. *)
Inductive step (A : Type) : Type :=
| Value (value : A)
| Done.
Arguments Value {A} value.
Arguments Done {A}.

(** The iterator keeps [index] and a reference to the array of the
    collection, so [next] reads the array as it is at the time of the
    call. *)
Definition next {A} (this : CustomCollection A) (index : nat) : step A * nat :=
  match items this !! index with
  | Some item => (Value item, S index)
  | None => (Done, index)
  end.

(** The loop of the usage example, at most [calls] calls of [next]: the
    values seen before [done]. *)
Fixpoint loop {A} (calls : nat) (this : CustomCollection A) (index : nat)
  : list A :=
  match calls with
  | O => []
  | S n =>
      match next this index with
      | (Value v, index') => v :: loop n this index'
      | (Done, _) => []
      end
  end.

End Iterator.

(** ** Degrees of friendship *)

Module Friendship.
Import JS.

(** [visited.has(x)] on the set of the users seen. *)
Definition has (visited : list nat) (x : nat) : bool :=
  bool_decide (x ∈ visited).

(** The loop over [friend], where [rest] holds the cells of
    [friends[current]] from index [friend] on. *)
Fixpoint pushFriends (friend : nat) (rest : list Z) (visited queue : list nat)
  : list nat :=
  match rest with
  | [] => queue
  | x :: rest' =>
      pushFriends (S friend) rest' visited
        (if (x =? 1) && negb (has visited friend) then queue ++ [friend]
         else queue)
  end.

Record state : Type := mkState {
  visited : list nat;
  queue : list nat
}.

(** A pass of the loop over [i] ends with [return depth] or goes on. *)
Inductive outcome : Type :=
| Return (depth : Z)
| Continue (st : state).

(** The loop over [i] with [count] rounds to go.  [queue.shift()] on an
    empty queue gives [undefined], and [friends[undefined][userB]] throws,
    as [friends[current][userB]] does for a user with no row. *)
Fixpoint forLevel (friends : list (list Z)) (userB : nat) (depth : Z)
    (count : nat) (st : state) : result outcome :=
  match count with
  | O => Ok (Continue st)
  | S count' =>
      match queue st with
      | [] => Throw (TypeError "friends[current] is undefined")
      | current :: queue' =>
          if has (visited st) current
          then forLevel friends userB depth count' (mkState (visited st) queue')
          else
            let visited' := current :: visited st in
            match friends !! current with
            | None => Throw (TypeError "friends[current] is undefined")
            | Some row =>
                if match row !! userB with
                   | Some x => x =? 1
                   | None => false
                   end
                then Ok (Return depth)
                else forLevel friends userB depth count'
                       (mkState visited' (pushFriends 0 row visited' queue'))
            end
      end
  end.

(** The [while] loop; [None] when [fuel] rounds do not empty the queue. *)
Fixpoint whileLoop (fuel : nat) (friends : list (list Z)) (userB : nat)
    (depth : Z) (st : state) : option (result Z) :=
  match fuel with
  | O => None
  | S fuel' =>
      match queue st with
      | [] => Some (Ok (-1))
      | _ :: _ =>
          let levelSize := length (queue st) in
          let depth := depth + 1 in
          match forLevel friends userB depth levelSize st with
          | Throw e => Some (Throw e)
          | Ok (Return d) => Some (Ok d)
          | Ok (Continue st') => whileLoop fuel' friends userB depth st'
          end
      end
  end.

Definition friendDistance (fuel : nat) (friends : list (list Z))
    (userA userB : nat) : option (result Z) :=
  if (userA =? userB)%nat then Some (Ok 0)
  else whileLoop fuel friends userB 0 (mkState [] [userA]).

(** Vocabulary: [v] counts [w] as a friend, and a chain of [n] such
    links from [a]. *)
Definition edge (friends : list (list Z)) (v w : nat) : Prop :=
  ∃ row, friends !! v = Some row ∧ row !! w = Some 1.

Inductive chain (friends : list (list Z)) (a : nat) : nat → nat → Prop :=
| chain_here : chain friends a a 0
| chain_step v w n :
    chain friends a v n → edge friends v w → chain friends a w (S n).

(** What [friendDistance] is to return: [-1] and no chain, or the length
    of a shortest chain. *)
Definition shortest (friends : list (list Z)) (a b : nat) (r : Z) : Prop :=
  (r = -1 ∧ ∀ n, ¬ chain friends a b n)
  ∨ (∃ n : nat, r = Z.of_nat n ∧ chain friends a b n
                ∧ ∀ m, chain friends a b m → (n ≤ m)%nat).

(** The state of the search when [depth] rounds of the [while] loop are
    done, and the rounds the loop has left at most. *)
Definition invariant (friends : list (list Z)) (a b : nat) (depth : nat)
    (st : state) : Prop :=
  (∀ v, v ∈ visited st ↔ ∃ m, (m < depth)%nat ∧ chain friends a v m)
  ∧ (∀ v, v ∈ queue st → ∃ m, (m ≤ depth)%nat ∧ chain friends a v m)
  ∧ (∀ v, chain friends a v depth → v ∈ visited st ∨ v ∈ queue st)
  ∧ (∀ v, v ∈ visited st → ¬ edge friends v b)
  ∧ NoDup (visited st).

Definition rounds (friends : list (list Z)) (st : state) : nat :=
  match queue st with
  | [] => 1
  | _ :: _ => length friends - length (visited st) + 2
  end.

End Friendship.

(** ** The flyweight and proxy examples *)

Module Flyweight.

(** A [Character] object; [ref] is its identity, which [===] compares. *)
Record Character : Type := mkCharacter {
  ref : nat;
  symbol : string;
  font : string
}.

(** The property names every plain object inherits from
    [Object.prototype]. *)
Definition Object_prototype : list string :=
  ["constructor"; "hasOwnProperty"; "isPrototypeOf"; "propertyIsEnumerable";
   "toLocaleString"; "toString"; "valueOf"; "__proto__";
   "__defineGetter__"; "__defineSetter__"; "__lookupGetter__";
   "__lookupSetter__"]%string.

(** What [this.characters[key]] can be, apart from [undefined]. *)
Inductive value : Type :=
| Inherited (name : string)
| Shared (c : Character).

(** The factory: the own properties of the object [characters] in the
    order of their creation, and the number of [Character] objects
    allocated so far. *)
Record CharacterFactory : Type := mkFactory {
  characters : list (string * Character);
  allocated : nat
}.

Definition new_CharacterFactory (allocated : nat) : CharacterFactory :=
  mkFactory [] allocated.

Fixpoint own (properties : list (string * Character)) (key : string)
  : option Character :=
  match properties with
  | [] => None
  | (k, c) :: rest => if decide (k = key) then Some c else own rest key
  end.

(** [characters[key]]: an own property, else an inherited one. *)
Definition get (properties : list (string * Character)) (key : string)
  : option value :=
  match own properties key with
  | Some c => Some (Shared c)
  | None =>
      if decide (key ∈ Object_prototype) then Some (Inherited key) else None
  end.

Definition getCharacter (this : CharacterFactory) (symbol font : string)
  : value * CharacterFactory :=
  let key := (symbol ++ font)%string in
  match get (characters this) key with
  | Some v => (v, this)
  | None =>
      let c := mkCharacter (allocated this) symbol font in
      (Shared c,
       mkFactory (characters this ++ [(key, c)]) (S (allocated this)))
  end.

(** The factory after any number of further calls. *)
Inductive later (this : CharacterFactory) : CharacterFactory → Prop :=
| later_now : later this this
| later_call this' symbol font :
    later this this' → later this (getCharacter this' symbol font).2.

End Flyweight.

Module Proxy.

Record RealImage : Type := mkRealImage { real_filename : string }.

(** [new RealImage(filename)] calls [loadFromDisk]. *)
Definition new_RealImage (filename : string) (console : list string)
  : RealImage * list string :=
  (mkRealImage filename,
   console ++ [("Loading image from " ++ filename)%string]).

Definition RealImage_display (this : RealImage) (console : list string)
  : list string :=
  console ++ [("Displaying " ++ real_filename this)%string].

Record ProxyImage : Type := mkProxyImage {
  filename : string;
  realImage : option RealImage
}.

Definition new_ProxyImage (filename : string) : ProxyImage :=
  mkProxyImage filename None.

Definition display (this : ProxyImage) (console : list string)
  : ProxyImage * list string :=
  match realImage this with
  | None =>
      let '(real, console) := new_RealImage (filename this) console in
      (mkProxyImage (filename this) (Some real), RealImage_display real console)
  | Some real => (this, RealImage_display real console)
  end.

(** [calls] calls of [display] in a row. *)
Fixpoint displays (calls : nat) (this : ProxyImage) (console : list string)
  : ProxyImage * list string :=
  match calls with
  | O => (this, console)
  | S n => let '(this, console) := display this console in
           displays n this console
  end.

End Proxy.

(** * Properties *)

(** ** Spot partitioning of a level *)

Module LevelFacts.
Import JS ParkingGarage.

Lemma pushSpots_length first count ty :
  length (Level.pushSpots first count ty) = count.
Proof.
  revert first; induction count as [|c IH]; intros first; simpl; [done|].
  by rewrite IH.
Qed.

Lemma pushSpots_filter_same first count ty :
  filter (λ s, ParkingSpot.vehicleType s = ty) (Level.pushSpots first count ty)
  = Level.pushSpots first count ty.
Proof.
  revert first; induction count as [|c IH]; intros first; simpl; [done|].
  rewrite filter_cons_True; [|done]. by rewrite IH.
Qed.

Lemma pushSpots_filter_other first count ty ty' :
  ty ≠ ty' →
  filter (λ s, ParkingSpot.vehicleType s = ty') (Level.pushSpots first count ty)
  = [].
Proof.
  intros Hne. revert first; induction count as [|c IH]; intros first; simpl; [done|].
  rewrite filter_cons_False; [|done]. apply IH.
Qed.

(** The three loops produce [nb] motorcycle spots, then [nc] car spots, and
    trucks fill the level up to [numSpots]. *)
Lemma build_counts floor numSpots nb nc :
  0 ≤ nb → 0 ≤ nc → nb + nc ≤ numSpots →
  let l := Level.build floor numSpots nb nc in
  Level.countType MOTORCYCLE l = Z.to_nat nb
  ∧ Level.countType CAR l = Z.to_nat nc
  ∧ Level.countType TRUCK l = Z.to_nat (numSpots - nb - nc)
  ∧ length (Level.parkingSpots l) = Z.to_nat numSpots.
Proof.
  intros Hb Hc Hn. unfold Level.countType, Level.build. simpl.
  rewrite !filter_app, !length_app.
  rewrite !pushSpots_filter_same.
  rewrite !pushSpots_filter_other by done.
  rewrite !pushSpots_length. simpl.
  replace (numSpots - (1 + Z.max 0 nb + nc) + 1) with (numSpots - nb - nc) by lia.
  repeat split; lia.
Qed.

(** The example of the specification: a level of 100 spots. *)
Lemma level_of_100_spots :
  Level.countType MOTORCYCLE (Level.new 1 100) = 10%nat
  ∧ Level.countType CAR (Level.new 1 100) = 70%nat
  ∧ Level.countType TRUCK (Level.new 1 100) = 20%nat
  ∧ length (Level.parkingSpots (Level.new 1 100)) = 100%nat.
Proof. vm_compute. done. Qed.

(** For every spot count below 90 the car share is [floor (7n/10)] and the
    motorcycle share is [floor (n/10)]. *)
Lemma shares_below_90 :
  forallb (λ n, (Level.numBikes n =? n / 10) && (Level.numCars n =? 7 * n / 10))
          (Z.of_nat <$> seq 0 90) = true.
Proof. vm_compute. done. Qed.

(** C2: a level has floor(0.1 n) motorcycle spots, floor(0.7 n) car spots and
    the trucks take the rest.  At [numSpots = 90] the binary64 product
    [90 * 0.7] is 62.99999999999999, so the level gets 62 car spots and 19
    truck spots, where floor(0.7 * 90) = 63 and 90 - 9 - 63 = 18. *)
Theorem C2_level_of_90_spots :
  Level.numCars 90 = 62
  ∧ Level.countType MOTORCYCLE (Level.new 1 90) = 9%nat
  ∧ Level.countType CAR (Level.new 1 90) = 62%nat
  ∧ Level.countType TRUCK (Level.new 1 90) = 19%nat
  ∧ length (Level.parkingSpots (Level.new 1 90)) = 90%nat
  ∧ 7 * 90 / 10 = 63.
Proof. vm_compute. done. Qed.

End LevelFacts.

(** ** Parking and unparking *)

Module ParkingFacts.
Import JS ParkingGarage.

Lemma guard_free_for spot v :
  ParkingSpot.isAvailable spot
  && bool_decide (ParkingSpot.getVehicleType spot = getType v) = true
  ↔ free_for v spot.
Proof.
  unfold free_for. rewrite andb_true_iff, bool_decide_eq_true. done.
Qed.

(** Behind the test of [Level.parkVehicle], the spot accepts the vehicle. *)
Lemma spot_parkVehicle_guarded spot v :
  free_for v spot → ParkingSpot.parkVehicle spot v = Ok (occupied_by v spot).
Proof.
  intros [Ha Ht]. unfold ParkingSpot.parkVehicle.
  rewrite Ha. unfold ParkingSpot.getVehicleType in Ht.
  rewrite bool_decide_true by done. done.
Qed.

Lemma level_rebuild l : Level.mk (Level.floor l) (Level.parkingSpots l) = l.
Proof. by destruct l. Qed.

(** *** The scan of one level *)

Lemma parkVehicle_spots_none (spots : list ParkingSpot.t) v :
  (∀ i s, spots !! i = Some s → ¬ free_for v s) →
  Level.parkVehicle_spots spots v = Ok (false, spots).
Proof.
  induction spots as [|spot rest IH]; intros Hnone; simpl; [done|].
  destruct (ParkingSpot.isAvailable spot && _) eqn:Hg.
  - apply guard_free_for in Hg. by destruct (Hnone 0%nat spot).
  - rewrite IH; [done|]. intros i s Hi. apply (Hnone (S i) s Hi).
Qed.

Lemma parkVehicle_spots_first (spots : list ParkingSpot.t) v i s :
  spots !! i = Some s → free_for v s →
  (∀ j s', (j < i)%nat → spots !! j = Some s' → ¬ free_for v s') →
  Level.parkVehicle_spots spots v = Ok (true, <[i := occupied_by v s]> spots).
Proof.
  revert i; induction spots as [|spot rest IH]; intros i Hi Hfree Hfirst;
    [done|]. simpl.
  destruct (ParkingSpot.isAvailable spot && _) eqn:Hg.
  - apply guard_free_for in Hg.
    destruct i as [|i].
    + simpl in Hi. injection Hi as ->.
      by rewrite (spot_parkVehicle_guarded _ _ Hg).
    + by destruct (Hfirst 0%nat spot); [lia| |].
  - destruct i as [|i].
    + simpl in Hi. injection Hi as ->.
      apply guard_free_for in Hfree. congruence.
    + rewrite (IH i); [done..|].
      intros j s' Hj Hs'. apply (Hfirst (S j) s'); [lia|done].
Qed.

(** The two cases are exhaustive. *)
Lemma first_free_spot_or_none (spots : list ParkingSpot.t) v :
  (∀ i s, spots !! i = Some s → ¬ free_for v s)
  ∨ (∃ i s, spots !! i = Some s ∧ free_for v s
            ∧ ∀ j s', (j < i)%nat → spots !! j = Some s' → ¬ free_for v s').
Proof.
  induction spots as [|spot rest IH].
  - left. intros i s Hi. done.
  - destruct (ParkingSpot.isAvailable spot
              && bool_decide (ParkingSpot.getVehicleType spot = getType v))
      eqn:Hg.
    + right. exists 0%nat, spot. apply guard_free_for in Hg.
      split_and!; [done..|]. intros j s' Hj. lia.
    + assert (¬ free_for v spot) as Hn.
      { intros Hf%guard_free_for. congruence. }
      destruct IH as [IH|(i & s & Hi & Hf & Hfirst)].
      * left. intros [|i] s Hi; simpl in Hi; [by injection Hi as <-|].
        by eapply IH.
      * right. exists (S i), s. split_and!; [done..|].
        intros [|j] s' Hj Hs'; simpl in Hs'; [by injection Hs' as <-|].
        apply (Hfirst j s'); [lia|done].
Qed.

Lemma level_parkVehicle_none l v :
  (∀ i s, Level.parkingSpots l !! i = Some s → ¬ free_for v s) →
  Level.parkVehicle l v = Ok (false, l).
Proof.
  intros H. unfold Level.parkVehicle.
  rewrite (parkVehicle_spots_none _ _ H). simpl. by rewrite level_rebuild.
Qed.

Lemma level_parkVehicle_first l v i s :
  Level.parkingSpots l !! i = Some s → free_for v s →
  (∀ j s', (j < i)%nat → Level.parkingSpots l !! j = Some s' → ¬ free_for v s') →
  Level.parkVehicle l v
  = Ok (true, Level.mk (Level.floor l)
                       (<[i := occupied_by v s]> (Level.parkingSpots l))).
Proof.
  intros Hi Hf Hfirst. unfold Level.parkVehicle.
  by rewrite (parkVehicle_spots_first _ _ _ _ Hi Hf Hfirst).
Qed.

(** *** The scan of the levels *)

Lemma parkVehicle_levels_none (todo : list nat) v (h : list Level.t) :
  (∀ level, level ∈ todo → no_free_spot h v level) →
  ParkingLot.parkVehicle_levels todo v h = Ok (false, h).
Proof.
  induction todo as [|level rest IH]; intros Hnone; simpl; [done|].
  assert (no_free_spot h v level) as Hl by (apply Hnone; left).
  assert (ParkingLot.parkVehicle_levels rest v h = Ok (false, h)) as Hrest.
  { apply IH. intros level' Hin. apply Hnone. by right. }
  destruct (h !! level) as [l|] eqn:Hh; [|done].
  rewrite level_parkVehicle_none; [|by intros i s; apply Hl].
  by rewrite list_insert_id.
Qed.

Lemma parkVehicle_levels_first (todo : list nat) v (h : list Level.t)
    k level l i s :
  todo !! k = Some level →
  (∀ k' level', (k' < k)%nat → todo !! k' = Some level' →
                no_free_spot h v level') →
  h !! level = Some l →
  Level.parkingSpots l !! i = Some s →
  free_for v s →
  (∀ j s', (j < i)%nat → Level.parkingSpots l !! j = Some s' →
           ¬ free_for v s') →
  ParkingLot.parkVehicle_levels todo v h
  = Ok (true, <[level := Level.mk (Level.floor l)
                  (<[i := occupied_by v s]> (Level.parkingSpots l))]> h).
Proof.
  intros Hk Hbefore Hh Hi Hf Hfirst.
  revert k Hk Hbefore; induction todo as [|level0 rest IH];
    intros k Hk Hbefore; [done|].
  destruct k as [|k]; simpl in Hk |- *.
  - injection Hk as ->. rewrite Hh.
    by rewrite (level_parkVehicle_first _ _ _ _ Hi Hf Hfirst).
  - assert (no_free_spot h v level0) as H0.
    { apply (Hbefore 0%nat); [lia|done]. }
    assert (ParkingLot.parkVehicle_levels rest v h
            = Ok (true, <[level := Level.mk (Level.floor l)
                    (<[i := occupied_by v s]> (Level.parkingSpots l))]> h))
      as Hrest.
    { apply (IH k Hk). intros k' level' Hlt Hl'.
      apply (Hbefore (S k')); [lia|done]. }
    destruct (h !! level0) as [l0|] eqn:Hh0; [|done].
    rewrite level_parkVehicle_none; [|by intros j s'; apply H0].
    by rewrite list_insert_id.
Qed.

Lemma no_free_spot_dec (h : list Level.t) v level :
  no_free_spot h v level
  ∨ (∃ l i s, h !! level = Some l ∧ Level.parkingSpots l !! i = Some s
              ∧ free_for v s
              ∧ ∀ j s', (j < i)%nat → Level.parkingSpots l !! j = Some s' →
                        ¬ free_for v s').
Proof.
  destruct (h !! level) as [l|] eqn:Hh.
  - destruct (first_free_spot_or_none (Level.parkingSpots l) v)
      as [Hn|(i & s & Hi & Hf & Hfirst)].
    + left. intros l' i s Hl'. rewrite Hh in Hl'. injection Hl' as <-. apply Hn.
    + right. by exists l, i, s.
  - left. intros l i s Hl. congruence.
Qed.

Lemma first_free_level_or_none (todo : list nat) v (h : list Level.t) :
  (∀ level, level ∈ todo → no_free_spot h v level)
  ∨ (∃ k level l i s,
        todo !! k = Some level
        ∧ (∀ k' level', (k' < k)%nat → todo !! k' = Some level' →
                        no_free_spot h v level')
        ∧ h !! level = Some l
        ∧ Level.parkingSpots l !! i = Some s
        ∧ free_for v s
        ∧ ∀ j s', (j < i)%nat → Level.parkingSpots l !! j = Some s' →
                  ¬ free_for v s').
Proof.
  induction todo as [|level0 rest IH].
  - left. intros level Hin. by apply elem_of_nil in Hin.
  - destruct (no_free_spot_dec h v level0)
      as [H0|(l & i & s & Hh & Hi & Hf & Hfirst)].
    + destruct IH as [IH|(k & level & l & i & s & Hk & Hb & Hrest)].
      * left. intros level [->|Hin]%elem_of_cons; [done|by apply IH].
      * right. exists (S k), level, l, i, s. split_and!; try tauto.
        intros [|k'] level' Hlt Hl'; simpl in Hl'.
        -- by injection Hl' as <-.
        -- apply (Hb k'); [lia|done].
    + right. exists 0%nat, level0, l, i, s. split_and!; try done.
      intros k' level' Hlt. lia.
Qed.

Lemma lot_parkVehicle_first (w : ParkingLot.t) v k level l i s :
  ParkingLot.levels w !! k = Some level →
  (∀ k' level', (k' < k)%nat → ParkingLot.levels w !! k' = Some level' →
                no_free_spot (ParkingLot.heap w) v level') →
  ParkingLot.heap w !! level = Some l →
  Level.parkingSpots l !! i = Some s →
  free_for v s →
  (∀ j s', (j < i)%nat → Level.parkingSpots l !! j = Some s' →
           ¬ free_for v s') →
  ParkingLot.parkVehicle w v
  = Ok (true,
        ParkingLot.mk
          (<[level := Level.mk (Level.floor l)
               (<[i := occupied_by v s]> (Level.parkingSpots l))]>
             (ParkingLot.heap w))
          (ParkingLot.levels w)
          (ParkingLot.console w ++ ["Vehicle parked successfully."])).
Proof.
  intros Hk Hb Hh Hi Hf Hfirst. unfold ParkingLot.parkVehicle.
  by rewrite (parkVehicle_levels_first _ _ _ _ _ _ _ _ Hk Hb Hh Hi Hf Hfirst).
Qed.

Lemma lot_parkVehicle_none (w : ParkingLot.t) v :
  (∀ level, level ∈ ParkingLot.levels w →
            no_free_spot (ParkingLot.heap w) v level) →
  ParkingLot.parkVehicle w v
  = Ok (false,
        ParkingLot.mk (ParkingLot.heap w) (ParkingLot.levels w)
          (ParkingLot.console w ++ ["Could not park vehicle."])).
Proof.
  intros Hnone. unfold ParkingLot.parkVehicle.
  by rewrite (parkVehicle_levels_none _ _ _ Hnone).
Qed.

(** C1: [ParkingLot.parkVehicle] scans the levels in the order in which they
    were added and the spots of a level in construction order.  If the
    [k]-th level is the first with a spot free for [v], and the spot at
    index [i] is the first such spot of it, then [v] is assigned to exactly
    that spot and the call returns [true]; if no level has a spot free for
    [v] the call returns [false] and no spot changes; and one of the two
    cases always applies. *)
Theorem C1_parkVehicle_first_free_spot (w : ParkingLot.t) (v : Vehicle) :
  (∀ k level l i s,
      ParkingLot.levels w !! k = Some level →
      (∀ k' level', (k' < k)%nat → ParkingLot.levels w !! k' = Some level' →
                    no_free_spot (ParkingLot.heap w) v level') →
      ParkingLot.heap w !! level = Some l →
      Level.parkingSpots l !! i = Some s →
      free_for v s →
      (∀ j s', (j < i)%nat → Level.parkingSpots l !! j = Some s' →
               ¬ free_for v s') →
      ParkingLot.parkVehicle w v
      = Ok (true,
            ParkingLot.mk
              (<[level := Level.mk (Level.floor l)
                   (<[i := occupied_by v s]> (Level.parkingSpots l))]>
                 (ParkingLot.heap w))
              (ParkingLot.levels w)
              (ParkingLot.console w ++ ["Vehicle parked successfully."])))
  ∧ ((∀ level, level ∈ ParkingLot.levels w →
               no_free_spot (ParkingLot.heap w) v level) →
     ParkingLot.parkVehicle w v
     = Ok (false,
           ParkingLot.mk (ParkingLot.heap w) (ParkingLot.levels w)
             (ParkingLot.console w ++ ["Could not park vehicle."])))
  ∧ ((∀ level, level ∈ ParkingLot.levels w →
               no_free_spot (ParkingLot.heap w) v level)
     ∨ (∃ k level l i s,
          ParkingLot.levels w !! k = Some level
          ∧ (∀ k' level', (k' < k)%nat →
                ParkingLot.levels w !! k' = Some level' →
                no_free_spot (ParkingLot.heap w) v level')
          ∧ ParkingLot.heap w !! level = Some l
          ∧ Level.parkingSpots l !! i = Some s
          ∧ free_for v s
          ∧ ∀ j s', (j < i)%nat → Level.parkingSpots l !! j = Some s' →
                    ¬ free_for v s')).
Proof.
  split_and!.
  - apply lot_parkVehicle_first.
  - apply lot_parkVehicle_none.
  - apply first_free_level_or_none.
Qed.

(** C10: behind the test made by [Level.parkVehicle] the spot accepts the
    vehicle, so the error branch of [ParkingSpot.parkVehicle] is not taken;
    [Level.parkVehicle] and [ParkingLot.parkVehicle] complete without
    throwing for every state and every vehicle. *)
Theorem C10_parkVehicle_never_throws :
  (∀ spot v,
      ParkingSpot.isAvailable spot
      && bool_decide (ParkingSpot.getVehicleType spot = getType v) = true →
      ParkingSpot.parkVehicle spot v = Ok (occupied_by v spot))
  ∧ (∀ l v, completes (Level.parkVehicle l v))
  ∧ (∀ w v, completes (ParkingLot.parkVehicle w v)).
Proof.
  split_and!.
  - intros spot v Hg. by apply spot_parkVehicle_guarded, guard_free_for.
  - intros l v.
    destruct (first_free_spot_or_none (Level.parkingSpots l) v)
      as [Hn|(i & s & Hi & Hf & Hfirst)].
    + by rewrite (level_parkVehicle_none _ _ Hn).
    + by rewrite (level_parkVehicle_first _ _ _ _ Hi Hf Hfirst).
  - intros w v.
    destruct (first_free_level_or_none (ParkingLot.levels w) v
                (ParkingLot.heap w))
      as [Hn|(k & level & l & i & s & Hk & Hb & Hh & Hi & Hf & Hfirst)].
    + by rewrite (lot_parkVehicle_none _ _ Hn).
    + by rewrite (lot_parkVehicle_first _ _ _ _ _ _ _ Hk Hb Hh Hi Hf Hfirst).
Qed.

(** *** Unparking *)

Lemma holds_not_available s v :
  ParkingSpot.holds s v = true → ParkingSpot.isAvailable s = false.
Proof.
  unfold ParkingSpot.holds, ParkingSpot.isAvailable, ParkingSpot.getParkedVehicle.
  by destruct (ParkingSpot.parkedVehicle s).
Qed.

Lemma unparkVehicle_spots_none (spots : list ParkingSpot.t) v :
  (∀ i s, spots !! i = Some s → ParkingSpot.holds s v = false) →
  Level.unparkVehicle_spots spots v = (false, spots).
Proof.
  induction spots as [|spot rest IH]; intros Hnone; simpl; [done|].
  rewrite (Hnone 0%nat spot) by done. rewrite andb_false_r.
  rewrite IH; [done|]. intros i s Hi. apply (Hnone (S i) s Hi).
Qed.

Lemma unparkVehicle_spots_first (spots : list ParkingSpot.t) v i s :
  spots !! i = Some s → ParkingSpot.holds s v = true →
  (∀ j s', (j < i)%nat → spots !! j = Some s' →
           ParkingSpot.holds s' v = false) →
  Level.unparkVehicle_spots spots v
  = (true, <[i := ParkingSpot.unparkVehicle s]> spots).
Proof.
  revert i; induction spots as [|spot rest IH]; intros i Hi Hholds Hfirst;
    [done|]. simpl.
  destruct i as [|i].
  - simpl in Hi. injection Hi as ->.
    by rewrite (holds_not_available _ _ Hholds), Hholds.
  - rewrite (Hfirst 0%nat spot) by (done || lia). rewrite andb_false_r.
    rewrite (IH i); [done..|].
    intros j s' Hj Hs'. apply (Hfirst (S j) s'); [lia|done].
Qed.

Lemma first_holder_or_none (spots : list ParkingSpot.t) v :
  (∀ i s, spots !! i = Some s → ParkingSpot.holds s v = false)
  ∨ (∃ i s, spots !! i = Some s ∧ ParkingSpot.holds s v = true
            ∧ ∀ j s', (j < i)%nat → spots !! j = Some s' →
                      ParkingSpot.holds s' v = false).
Proof.
  induction spots as [|spot rest IH].
  - left. intros i s Hi. done.
  - destruct (ParkingSpot.holds spot v) eqn:Hg.
    + right. exists 0%nat, spot. split_and!; [done..|]. intros j s' Hj. lia.
    + destruct IH as [IH|(i & s & Hi & Hf & Hfirst)].
      * left. intros [|i] s Hi; simpl in Hi; [by injection Hi as <-|].
        by eapply IH.
      * right. exists (S i), s. split_and!; [done..|].
        intros [|j] s' Hj Hs'; simpl in Hs'; [by injection Hs' as <-|].
        apply (Hfirst j s'); [lia|done].
Qed.

Lemma level_unparkVehicle_none l v :
  (∀ i s, Level.parkingSpots l !! i = Some s → ParkingSpot.holds s v = false) →
  Level.unparkVehicle l v = (false, l).
Proof.
  intros H. unfold Level.unparkVehicle.
  rewrite (unparkVehicle_spots_none _ _ H). by rewrite level_rebuild.
Qed.

Lemma level_unparkVehicle_first l v i s :
  Level.parkingSpots l !! i = Some s → ParkingSpot.holds s v = true →
  (∀ j s', (j < i)%nat → Level.parkingSpots l !! j = Some s' →
           ParkingSpot.holds s' v = false) →
  Level.unparkVehicle l v
  = (true, Level.mk (Level.floor l)
             (<[i := ParkingSpot.unparkVehicle s]> (Level.parkingSpots l))).
Proof.
  intros Hi Hf Hfirst. unfold Level.unparkVehicle.
  by rewrite (unparkVehicle_spots_first _ _ _ _ Hi Hf Hfirst).
Qed.

Lemma unparkVehicle_levels_none (todo : list nat) v (h : list Level.t) :
  (∀ level, level ∈ todo → not_in_level h v level) →
  ParkingLot.unparkVehicle_levels todo v h = (false, h).
Proof.
  induction todo as [|level rest IH]; intros Hnone; simpl; [done|].
  assert (not_in_level h v level) as Hl by (apply Hnone; left).
  assert (ParkingLot.unparkVehicle_levels rest v h = (false, h)) as Hrest.
  { apply IH. intros level' Hin. apply Hnone. by right. }
  destruct (h !! level) as [l|] eqn:Hh; [|done].
  rewrite level_unparkVehicle_none; [|by intros i s; apply Hl].
  by rewrite list_insert_id.
Qed.

Lemma unparkVehicle_levels_first (todo : list nat) v (h : list Level.t)
    k level l i s :
  todo !! k = Some level →
  (∀ k' level', (k' < k)%nat → todo !! k' = Some level' →
                not_in_level h v level') →
  h !! level = Some l →
  Level.parkingSpots l !! i = Some s →
  ParkingSpot.holds s v = true →
  (∀ j s', (j < i)%nat → Level.parkingSpots l !! j = Some s' →
           ParkingSpot.holds s' v = false) →
  ParkingLot.unparkVehicle_levels todo v h
  = (true, <[level := Level.mk (Level.floor l)
               (<[i := ParkingSpot.unparkVehicle s]> (Level.parkingSpots l))]> h).
Proof.
  intros Hk Hbefore Hh Hi Hf Hfirst.
  revert k Hk Hbefore; induction todo as [|level0 rest IH];
    intros k Hk Hbefore; [done|].
  destruct k as [|k]; simpl in Hk |- *.
  - injection Hk as ->. rewrite Hh.
    by rewrite (level_unparkVehicle_first _ _ _ _ Hi Hf Hfirst).
  - assert (not_in_level h v level0) as H0.
    { apply (Hbefore 0%nat); [lia|done]. }
    assert (ParkingLot.unparkVehicle_levels rest v h
            = (true, <[level := Level.mk (Level.floor l)
                 (<[i := ParkingSpot.unparkVehicle s]> (Level.parkingSpots l))]> h))
      as Hrest.
    { apply (IH k Hk). intros k' level' Hlt Hl'.
      apply (Hbefore (S k')); [lia|done]. }
    destruct (h !! level0) as [l0|] eqn:Hh0; [|done].
    rewrite level_unparkVehicle_none; [|by intros j s'; apply H0].
    by rewrite list_insert_id.
Qed.

Lemma lot_rebuild w :
  ParkingLot.mk (ParkingLot.heap w) (ParkingLot.levels w) (ParkingLot.console w)
  = w.
Proof. by destruct w. Qed.

Lemma lot_unparkVehicle_none (w : ParkingLot.t) (v : Vehicle) :
  (∀ level, level ∈ ParkingLot.levels w →
            not_in_level (ParkingLot.heap w) v level) →
  ParkingLot.unparkVehicle w v = (false, w).
Proof.
  intros Hnone. unfold ParkingLot.unparkVehicle.
  rewrite (unparkVehicle_levels_none _ _ _ Hnone). by rewrite lot_rebuild.
Qed.

(** C6: unparking a vehicle that no spot of any level of the lot holds
    returns [false] and changes nothing: every level and every spot, and
    the lot itself, are as before. *)
Theorem C6_unparkVehicle_not_parked (w : ParkingLot.t) (v : Vehicle) :
  (∀ level, level ∈ ParkingLot.levels w →
            not_in_level (ParkingLot.heap w) v level) →
  ParkingLot.unparkVehicle w v = (false, w).
Proof.
  intros Hnone. unfold ParkingLot.unparkVehicle.
  rewrite (unparkVehicle_levels_none _ _ _ Hnone). by rewrite lot_rebuild.
Qed.

Lemma lot_unparkVehicle_first (w : ParkingLot.t) v k level l i s :
  ParkingLot.levels w !! k = Some level →
  (∀ k' level', (k' < k)%nat → ParkingLot.levels w !! k' = Some level' →
                not_in_level (ParkingLot.heap w) v level') →
  ParkingLot.heap w !! level = Some l →
  Level.parkingSpots l !! i = Some s →
  ParkingSpot.holds s v = true →
  (∀ j s', (j < i)%nat → Level.parkingSpots l !! j = Some s' →
           ParkingSpot.holds s' v = false) →
  ParkingLot.unparkVehicle w v
  = (true,
     ParkingLot.mk
       (<[level := Level.mk (Level.floor l)
            (<[i := ParkingSpot.unparkVehicle s]> (Level.parkingSpots l))]>
          (ParkingLot.heap w))
       (ParkingLot.levels w) (ParkingLot.console w)).
Proof.
  intros Hk Hb Hh Hi Hf Hfirst. unfold ParkingLot.unparkVehicle.
  by rewrite (unparkVehicle_levels_first _ _ _ _ _ _ _ _ Hk Hb Hh Hi Hf Hfirst).
Qed.

(** Reading a spot that has just been replaced. *)
Lemma spotAt_replaced (h : list Level.t) lv c level l i s s' :
  h !! level = Some l → Level.parkingSpots l !! i = Some s →
  ParkingLot.spotAt
    (ParkingLot.mk
       (<[level := Level.mk (Level.floor l) (<[i := s']> (Level.parkingSpots l))]> h)
       lv c) level i
  = Some s'.
Proof.
  intros Hh Hi. unfold ParkingLot.spotAt. simpl.
  rewrite list_lookup_insert_eq by (by eapply lookup_lt_Some). simpl.
  by rewrite list_lookup_insert_eq by (by eapply lookup_lt_Some).
Qed.

(** Reading any other spot. *)
Lemma spotAt_other (h : list Level.t) lv c level l i s' level' i' :
  h !! level = Some l → ¬ (level' = level ∧ i' = i) →
  ParkingLot.spotAt
    (ParkingLot.mk
       (<[level := Level.mk (Level.floor l) (<[i := s']> (Level.parkingSpots l))]> h)
       lv c) level' i'
  = ParkingLot.spotAt (ParkingLot.mk h lv c) level' i'.
Proof.
  intros Hh Hne. unfold ParkingLot.spotAt. simpl.
  destruct (decide (level' = level)) as [->|Hl].
  - rewrite list_lookup_insert_eq by (by eapply lookup_lt_Some).
    rewrite Hh. simpl.
    rewrite list_lookup_insert_ne; [done|]. intros ->. by apply Hne.
  - by rewrite list_lookup_insert_ne.
Qed.

(** C7 (amended): let [s] be the first spot, in the scan order of the lot,
    that holds [v] (the only one when [v] is parked once).  Then
    [unparkVehicle(v)] returns [true] and empties exactly [s], which is
    available afterwards; and for every vehicle [u] of the type of [s], the
    spot is free for [u] and an immediately following [parkVehicle(u)]
    returns [true]. *)
Theorem C7_unparkVehicle_frees_first_holder
    (w : ParkingLot.t) (v : Vehicle) k level l i s :
  ParkingLot.levels w !! k = Some level →
  (∀ k' level', (k' < k)%nat → ParkingLot.levels w !! k' = Some level' →
                not_in_level (ParkingLot.heap w) v level') →
  ParkingLot.heap w !! level = Some l →
  Level.parkingSpots l !! i = Some s →
  ParkingSpot.holds s v = true →
  (∀ j s', (j < i)%nat → Level.parkingSpots l !! j = Some s' →
           ParkingSpot.holds s' v = false) →
  ∃ w1,
    ParkingLot.unparkVehicle w v = (true, w1)
    ∧ ParkingLot.spotAt w1 level i = Some (ParkingSpot.unparkVehicle s)
    ∧ ParkingSpot.isAvailable (ParkingSpot.unparkVehicle s) = true
    ∧ (∀ level' i', ¬ (level' = level ∧ i' = i) →
                    ParkingLot.spotAt w1 level' i' = ParkingLot.spotAt w level' i')
    ∧ ∀ u, getType u = ParkingSpot.getVehicleType s →
           free_for u (ParkingSpot.unparkVehicle s)
           ∧ ∃ w2, ParkingLot.parkVehicle w1 u = Ok (true, w2).
Proof.
  intros Hk Hb Hh Hi Hholds Hfirst.
  eexists. split; [by eapply lot_unparkVehicle_first|].
  split; [by eapply spotAt_replaced|].
  split; [done|].
  split.
  { intros level' i' Hne. rewrite (spotAt_other _ _ _ _ _ _ _ _ _ Hh Hne).
    by rewrite lot_rebuild. }
  intros u Hu.
  assert (free_for u (ParkingSpot.unparkVehicle s)) as Hfree by done.
  split; [done|].
  set (h1 := <[level := _]> (ParkingLot.heap w)).
  destruct (first_free_level_or_none (ParkingLot.levels w) u h1)
    as [Hn|(k2 & level2 & l2 & i2 & s2 & Hk2 & Hb2 & Hh2 & Hi2 & Hf2 & Hfirst2)].
  - exfalso.
    apply (Hn level (list_elem_of_lookup_2 _ _ _ Hk)
             (Level.mk (Level.floor l)
                (<[i := ParkingSpot.unparkVehicle s]> (Level.parkingSpots l)))
             i (ParkingSpot.unparkVehicle s)); [| |done].
    + unfold h1. by rewrite list_lookup_insert_eq by (by eapply lookup_lt_Some).
    + simpl. by rewrite list_lookup_insert_eq by (by eapply lookup_lt_Some).
  - eexists.
    by apply (lot_parkVehicle_first (ParkingLot.mk h1 _ _) u k2 level2 l2 i2 s2).
Qed.

(** *** What a call changes *)

Lemma not_in_level_dec (h : list Level.t) v level :
  not_in_level h v level
  ∨ (∃ l i s, h !! level = Some l ∧ Level.parkingSpots l !! i = Some s
              ∧ ParkingSpot.holds s v = true
              ∧ ∀ j s', (j < i)%nat → Level.parkingSpots l !! j = Some s' →
                        ParkingSpot.holds s' v = false).
Proof.
  destruct (h !! level) as [l|] eqn:Hh.
  - destruct (first_holder_or_none (Level.parkingSpots l) v)
      as [Hn|(i & s & Hi & Hf & Hfirst)].
    + left. intros l' i s Hl'. rewrite Hh in Hl'. injection Hl' as <-. apply Hn.
    + right. by exists l, i, s.
  - left. intros l i s Hl. congruence.
Qed.

Lemma first_holder_level_or_none (todo : list nat) v (h : list Level.t) :
  (∀ level, level ∈ todo → not_in_level h v level)
  ∨ (∃ k level l i s,
        todo !! k = Some level
        ∧ (∀ k' level', (k' < k)%nat → todo !! k' = Some level' →
                        not_in_level h v level')
        ∧ h !! level = Some l
        ∧ Level.parkingSpots l !! i = Some s
        ∧ ParkingSpot.holds s v = true
        ∧ ∀ j s', (j < i)%nat → Level.parkingSpots l !! j = Some s' →
                  ParkingSpot.holds s' v = false).
Proof.
  induction todo as [|level0 rest IH].
  - left. intros level Hin. by apply elem_of_nil in Hin.
  - destruct (not_in_level_dec h v level0)
      as [H0|(l & i & s & Hh & Hi & Hf & Hfirst)].
    + destruct IH as [IH|(k & level & l & i & s & Hk & Hb & Hrest)].
      * left. intros level [->|Hin]%elem_of_cons; [done|by apply IH].
      * right. exists (S k), level, l, i, s. split_and!; try tauto.
        intros [|k'] level' Hlt Hl'; simpl in Hl'.
        -- by injection Hl' as <-.
        -- apply (Hb k'); [lia|done].
    + right. exists 0%nat, level0, l, i, s. split_and!; try done.
      intros k' level' Hlt. lia.
Qed.

(** [parkVehicle] changes at most one spot, of a level of the lot, from
    free to holding the vehicle. *)
Lemma parkVehicle_effect w v b w' :
  ParkingLot.parkVehicle w v = Ok (b, w') →
  ParkingLot.levels w' = ParkingLot.levels w
  ∧ (ParkingLot.heap w' = ParkingLot.heap w
     ∨ ∃ level l i s,
         level ∈ ParkingLot.levels w
         ∧ ParkingLot.heap w !! level = Some l
         ∧ Level.parkingSpots l !! i = Some s
         ∧ ParkingLot.heap w'
           = <[level := Level.mk (Level.floor l)
                 (<[i := occupied_by v s]> (Level.parkingSpots l))]>
               (ParkingLot.heap w)).
Proof.
  destruct (first_free_level_or_none (ParkingLot.levels w) v (ParkingLot.heap w))
    as [Hn|(k & level & l & i & s & Hk & Hb & Hh & Hi & Hf & Hfirst)].
  - rewrite (lot_parkVehicle_none _ _ Hn). intros [= <- <-]. simpl. by split; [|left].
  - rewrite (lot_parkVehicle_first _ _ _ _ _ _ _ Hk Hb Hh Hi Hf Hfirst).
    intros [= <- <-]. simpl. split; [done|]. right.
    exists level, l, i, s. split_and!; try done.
    by eapply list_elem_of_lookup_2.
Qed.

(** [unparkVehicle] changes at most one spot, of a level of the lot, by
    emptying it. *)
Lemma unparkVehicle_effect w v :
  ParkingLot.levels (ParkingLot.unparkVehicle w v).2 = ParkingLot.levels w
  ∧ (ParkingLot.heap (ParkingLot.unparkVehicle w v).2 = ParkingLot.heap w
     ∨ ∃ level l i s,
         level ∈ ParkingLot.levels w
         ∧ ParkingLot.heap w !! level = Some l
         ∧ Level.parkingSpots l !! i = Some s
         ∧ ParkingLot.heap (ParkingLot.unparkVehicle w v).2
           = <[level := Level.mk (Level.floor l)
                 (<[i := ParkingSpot.unparkVehicle s]> (Level.parkingSpots l))]>
               (ParkingLot.heap w)).
Proof.
  destruct (first_holder_level_or_none (ParkingLot.levels w) v (ParkingLot.heap w))
    as [Hn|(k & level & l & i & s & Hk & Hb & Hh & Hi & Hf & Hfirst)].
  - rewrite (lot_unparkVehicle_none _ _ Hn). simpl. by split; [|left].
  - rewrite (lot_unparkVehicle_first _ _ _ _ _ _ _ Hk Hb Hh Hi Hf Hfirst).
    simpl. split; [done|]. right.
    exists level, l, i, s. split_and!; try done.
    by eapply list_elem_of_lookup_2.
Qed.

(** *** Occupancy *)

Lemma occupies_heap w w' v level i :
  ParkingLot.heap w = ParkingLot.heap w' →
  occupies w v level i → occupies w' v level i.
Proof.
  intros Hh (s & Hs & Hv). exists s. split; [|done].
  unfold ParkingLot.spotAt in *. by rewrite <- Hh.
Qed.

Lemma holds_same_ref s u v :
  ref u = ref v → ParkingSpot.holds s u = true → ParkingSpot.holds s v = true.
Proof.
  unfold ParkingSpot.holds, same_vehicle. intros ->. done.
Qed.

Lemma holds_parked s v :
  ParkingSpot.holds s v = true → ParkingSpot.parkedVehicle s ≠ None.
Proof.
  unfold ParkingSpot.holds, ParkingSpot.getParkedVehicle.
  by destruct (ParkingSpot.parkedVehicle s).
Qed.

(** After a vehicle was assigned to the spot [(level, i)], an occupied spot
    either was occupied before or is that spot. *)
Lemma occupies_after_park w w' level l i s v u level' i' :
  ParkingLot.heap w !! level = Some l →
  Level.parkingSpots l !! i = Some s →
  ParkingLot.heap w'
  = <[level := Level.mk (Level.floor l)
        (<[i := occupied_by v s]> (Level.parkingSpots l))]> (ParkingLot.heap w) →
  occupies w' u level' i' →
  occupies w u level' i' ∨ (level' = level ∧ i' = i ∧ ref v = ref u).
Proof.
  intros Hh Hi Hw' (s0 & Hs0 & Hu).
  unfold ParkingLot.spotAt in Hs0. rewrite Hw' in Hs0.
  destruct (decide (level' = level ∧ i' = i)) as [[-> ->]|Hne].
  - right. split_and!; [done..|].
    pose proof (spotAt_replaced (ParkingLot.heap w) [] [] level l i s
                  (occupied_by v s) Hh Hi) as Hr.
    unfold ParkingLot.spotAt in Hr. simpl in Hr. rewrite Hr in Hs0.
    injection Hs0 as <-.
    unfold ParkingSpot.holds, same_vehicle in Hu. simpl in Hu.
    by apply Nat.eqb_eq in Hu.
  - left. exists s0. split; [|done].
    pose proof (spotAt_other (ParkingLot.heap w) [] [] level l i
                  (occupied_by v s) level' i' Hh Hne) as Hr.
    unfold ParkingLot.spotAt in Hr |- *. simpl in Hr. by rewrite <- Hr.
Qed.

(** After a spot was emptied, an occupied spot was occupied before. *)
Lemma occupies_after_unpark w w' level l i s u level' i' :
  ParkingLot.heap w !! level = Some l →
  Level.parkingSpots l !! i = Some s →
  ParkingLot.heap w'
  = <[level := Level.mk (Level.floor l)
        (<[i := ParkingSpot.unparkVehicle s]> (Level.parkingSpots l))]>
      (ParkingLot.heap w) →
  occupies w' u level' i' → occupies w u level' i'.
Proof.
  intros Hh Hi Hw' (s0 & Hs0 & Hu).
  unfold ParkingLot.spotAt in Hs0. rewrite Hw' in Hs0.
  destruct (decide (level' = level ∧ i' = i)) as [[-> ->]|Hne].
  - pose proof (spotAt_replaced (ParkingLot.heap w) [] [] level l i s
                  (ParkingSpot.unparkVehicle s) Hh Hi) as Hr.
    unfold ParkingLot.spotAt in Hr. simpl in Hr. rewrite Hr in Hs0.
    injection Hs0 as <-. done.
  - exists s0. split; [|done].
    pose proof (spotAt_other (ParkingLot.heap w) [] [] level l i
                  (ParkingSpot.unparkVehicle s) level' i' Hh Hne) as Hr.
    unfold ParkingLot.spotAt in Hr |- *. simpl in Hr. by rewrite <- Hr.
Qed.

Lemma pushSpots_empty first count ty s :
  s ∈ Level.pushSpots first count ty → ParkingSpot.parkedVehicle s = None.
Proof.
  revert first; induction count as [|c IH]; intros first; simpl.
  - by intros ?%elem_of_nil.
  - intros [->|Hin]%elem_of_cons; [done|by eapply IH].
Qed.

(** A freshly constructed level has no parked vehicle. *)
Lemma new_Level_empty floor numSpots i s :
  Level.parkingSpots (Level.new floor numSpots) !! i = Some s →
  ParkingSpot.parkedVehicle s = None.
Proof.
  intros Hin%list_elem_of_lookup_2. unfold Level.new, Level.build in Hin.
  simpl in Hin.
  apply elem_of_app in Hin as [Hin|Hin]; [by eapply pushSpots_empty|].
  apply elem_of_app in Hin as [Hin|Hin]; by eapply pushSpots_empty.
Qed.

(** *** At most one spot per vehicle *)

Lemma invariant_new : parked_only_in_lot ParkingLot.new ∧ at_most_one_spot ParkingLot.new.
Proof.
  split.
  - intros level l i s Hl. done.
  - intros v level1 i1 level2 i2 (s & Hs & _). done.
Qed.

Lemma invariant_new_Level w floor numSpots :
  parked_only_in_lot w ∧ at_most_one_spot w →
  parked_only_in_lot (ParkingLot.new_Level floor numSpots w).2
  ∧ at_most_one_spot (ParkingLot.new_Level floor numSpots w).2.
Proof.
  intros [Hout Hone]. simpl.
  assert (∀ v level i,
            occupies (ParkingLot.new_Level floor numSpots w).2 v level i →
            occupies w v level i) as Hocc.
  { intros v level i (s & Hs & Hv). exists s. split; [|done].
    unfold ParkingLot.spotAt in *. simpl in Hs.
    destruct (decide (level < length (ParkingLot.heap w))%nat) as [Hlt|Hge].
    - by rewrite lookup_app_l in Hs.
    - rewrite lookup_app_r in Hs by lia.
      destruct (level - length (ParkingLot.heap w))%nat; [|done].
      simpl in Hs. apply (new_Level_empty floor numSpots i s) in Hs.
      by apply holds_parked in Hv. }
  split.
  - intros level l i s Hl Hnot Hi. simpl in Hl, Hnot.
    destruct (decide (level < length (ParkingLot.heap w))%nat) as [Hlt|Hge].
    + rewrite lookup_app_l in Hl by done. by eapply Hout.
    + rewrite lookup_app_r in Hl by lia.
      destruct (level - length (ParkingLot.heap w))%nat; [|done].
      simpl in Hl. injection Hl as <-. by eapply new_Level_empty.
  - intros v level1 i1 level2 i2 H1 H2. eapply Hone; by apply Hocc.
Qed.

Lemma invariant_addLevel w level :
  parked_only_in_lot w ∧ at_most_one_spot w →
  parked_only_in_lot (ParkingLot.addLevel w level)
  ∧ at_most_one_spot (ParkingLot.addLevel w level).
Proof.
  intros [Hout Hone]. split.
  - intros level' l i s Hl Hnot Hi. simpl in Hl, Hnot.
    eapply Hout; [done| |done]. intros Hin. apply Hnot.
    apply elem_of_app. by left.
  - intros v level1 i1 level2 i2 H1 H2.
    eapply Hone; by eapply occupies_heap.
Qed.

Lemma invariant_parkVehicle w v b w' :
  ¬ is_parked w v →
  ParkingLot.parkVehicle w v = Ok (b, w') →
  parked_only_in_lot w ∧ at_most_one_spot w →
  parked_only_in_lot w' ∧ at_most_one_spot w'.
Proof.
  intros Hnot Hpark [Hout Hone].
  destruct (parkVehicle_effect _ _ _ _ Hpark)
    as [Hlv [Hheap|(level & l & i & s & Hin & Hh & Hi & Hheap)]].
  - split.
    + intros level l i s Hl Hn Hi. rewrite Hheap in Hl. rewrite Hlv in Hn.
      by eapply Hout.
    + intros u level1 i1 level2 i2 H1 H2.
      eapply Hone; by eapply occupies_heap.
  - assert (∀ u level' i', ref v = ref u → occupies w u level' i' → False)
      as Hfresh.
    { intros u level' i' Hu Hocc.
      assert (occupies w v level' i') as Hv.
      { destruct Hocc as (s0 & Hs0 & Hu0). exists s0. split; [done|].
        by eapply holds_same_ref. }
      destruct (decide (level' ∈ ParkingLot.levels w)) as [Hl|Hl].
      - apply Hnot. by exists level', i'.
      - destruct Hv as (s0 & Hs0 & Hv0). unfold ParkingLot.spotAt in Hs0.
        destruct (ParkingLot.heap w !! level') as [l0|] eqn:Hl0; [|done].
        simpl in Hs0. apply holds_parked in Hv0. apply Hv0.
        by eapply Hout. }
    split.
    + intros level' l' i' s' Hl Hn Hi'. rewrite Hlv in Hn.
      rewrite Hheap in Hl.
      rewrite list_lookup_insert_ne in Hl by (intros ->; done).
      by eapply Hout.
    + intros u level1 i1 level2 i2 H1 H2.
      destruct (occupies_after_park _ _ _ _ _ _ _ _ _ _ Hh Hi Hheap H1)
        as [H1'|(-> & -> & Hu1)];
      destruct (occupies_after_park _ _ _ _ _ _ _ _ _ _ Hh Hi Hheap H2)
        as [H2'|(-> & -> & Hu2)].
      * by eapply Hone.
      * destruct (Hfresh u level1 i1 Hu2 H1').
      * destruct (Hfresh u level2 i2 Hu1 H2').
      * done.
Qed.

Lemma invariant_unparkVehicle w v :
  parked_only_in_lot w ∧ at_most_one_spot w →
  parked_only_in_lot (ParkingLot.unparkVehicle w v).2
  ∧ at_most_one_spot (ParkingLot.unparkVehicle w v).2.
Proof.
  intros [Hout Hone].
  destruct (unparkVehicle_effect w v)
    as [Hlv [Hheap|(level & l & i & s & Hin & Hh & Hi & Hheap)]].
  - split.
    + intros level l i s Hl Hn Hi. rewrite Hheap in Hl. rewrite Hlv in Hn.
      by eapply Hout.
    + intros u level1 i1 level2 i2 H1 H2.
      eapply Hone; by eapply occupies_heap.
  - split.
    + intros level' l' i' s' Hl Hn Hi'. rewrite Hlv in Hn.
      rewrite Hheap in Hl.
      rewrite list_lookup_insert_ne in Hl by (intros ->; done).
      by eapply Hout.
    + intros u level1 i1 level2 i2 H1 H2.
      eapply Hone; by eapply occupies_after_unpark.
Qed.

(** C5 (amended): in every state reachable from a fresh lot by constructing
    levels and calling [addLevel], [parkVehicle] and [unparkVehicle], where
    [parkVehicle] is only called with a vehicle that is not parked at that
    time, no vehicle is the parked vehicle of two distinct spots. *)
Theorem C5_at_most_one_spot_when_parking_once (w : ParkingLot.t) :
  reachable_parking_once w → at_most_one_spot w.
Proof.
  intros Hreach.
  enough (parked_only_in_lot w ∧ at_most_one_spot w) as [_ H] by exact H.
  induction Hreach as [|w floor numSpots _ IH|w level _ IH _
                       |w v b w' _ IH Hnot Hpark|w v _ IH].
  - apply invariant_new.
  - by apply invariant_new_Level.
  - by apply invariant_addLevel.
  - by eapply invariant_parkVehicle.
  - by apply invariant_unparkVehicle.
Qed.

(** *** The example lot *)

Lemma small_lot_empty level i s :
  ParkingLot.spotAt small_lot level i = Some s →
  ParkingSpot.parkedVehicle s = None.
Proof.
  unfold ParkingLot.spotAt, small_lot. simpl.
  destruct level as [|level]; [|done]. simpl.
  apply (new_Level_empty 1 10).
Qed.

Lemma small_lot_not_parked v : ¬ is_parked small_lot v.
Proof.
  intros (level & i & _ & s & Hs & Hv).
  apply small_lot_empty in Hs. by apply holds_parked in Hv.
Qed.

Lemma reachable_small_lot : reachable small_lot.
Proof.
  apply (reach_addLevel (ParkingLot.new_Level 1 10 ParkingLot.new).2 0%nat).
  - apply (reach_new_Level _ 1 10), reach_new.
  - simpl. lia.
Qed.

Lemma reachable_after_parkVehicle w v :
  reachable w → reachable (after_parkVehicle w v).
Proof.
  intros Hw. unfold after_parkVehicle.
  destruct (ParkingLot.parkVehicle w v) as [[b w']|e] eqn:Hp; [|done].
  by eapply reach_parkVehicle.
Qed.

Lemma once_small_lot : reachable_parking_once small_lot.
Proof.
  apply (once_addLevel (ParkingLot.new_Level 1 10 ParkingLot.new).2 0%nat).
  - apply (once_new_Level _ 1 10), once_new.
  - simpl. lia.
Qed.

(** Parking the same car twice puts it into the car spots at indices 1
    and 2 of the level. *)
Lemma car_parked_twice :
  let w := after_parkVehicle (after_parkVehicle small_lot car) car in
  occupies w car 0 1 ∧ occupies w car 0 2.
Proof.
  split; eexists; (split; [vm_compute; reflexivity|reflexivity]).
Qed.

(** C5, as stated, fails: after [parkVehicle(car)] is called twice with the
    same car, that car is the parked vehicle of two distinct spots. *)
Lemma C5_counterexample_same_car_parked_twice :
  ¬ (∀ w, reachable w → at_most_one_spot w).
Proof.
  intros H.
  destruct car_parked_twice as [H1 H2].
  specialize (H _ (reachable_after_parkVehicle _ car
                     (reachable_after_parkVehicle _ car reachable_small_lot))).
  destruct (H car _ _ _ _ H1 H2) as [_ Hi]. discriminate Hi.
Qed.

(** C7, as stated, fails: when the car is held by two spots,
    [unparkVehicle(car)] empties the first one only, and the spot at index 2
    still holds the car. *)
Lemma C7_counterexample_second_spot_stays_occupied :
  ¬ (∀ w v level i,
        reachable w → level ∈ ParkingLot.levels w → occupies w v level i →
        (ParkingLot.unparkVehicle w v).1 = true
        ∧ ∃ s', ParkingLot.spotAt (ParkingLot.unparkVehicle w v).2 level i = Some s'
                ∧ ParkingSpot.isAvailable s' = true).
Proof.
  intros H.
  destruct car_parked_twice as [_ H2].
  destruct (H _ car 0%nat 2%nat
              (reachable_after_parkVehicle _ car
                 (reachable_after_parkVehicle _ car reachable_small_lot)))
    as [_ (s' & Hs' & Ha)].
  - vm_compute. left.
  - exact H2.
  - vm_compute in Hs'. injection Hs' as <-. discriminate Ha.
Qed.

(** The ten spots of the small lot: one for motorcycles, seven for cars,
    two for trucks, numbered from 1. *)
Lemma small_lot_spots :
  (λ l, (λ s, (ParkingSpot.spotNumber s, ParkingSpot.vehicleType s))
        <$> Level.parkingSpots l) <$> ParkingLot.heap small_lot
  = [[(1, MOTORCYCLE); (2, CAR); (3, CAR); (4, CAR); (5, CAR); (6, CAR);
      (7, CAR); (8, CAR); (9, TRUCK); (10, TRUCK)]].
Proof. vm_compute. reflexivity. Qed.

(** The example script: the car, the truck and the motorcycle are parked
    on the first level, in the spots numbered 11, 81 and 1, and the
    motorcycle is unparked again. *)
Lemma script_run :
  let w1 := after_parkVehicle script_lot car in
  let w2 := after_parkVehicle w1 truck in
  let w3 := after_parkVehicle w2 motorcycle in
  occupies w3 car 0 10 ∧ occupies w3 truck 0 80 ∧ occupies w3 motorcycle 0 0
  ∧ ParkingLot.console w3
    = ["Vehicle parked successfully."; "Vehicle parked successfully.";
       "Vehicle parked successfully."]
  ∧ (ParkingLot.unparkVehicle w3 motorcycle).1 = true
  ∧ (ParkingSpot.isAvailable
       <$> ParkingLot.spotAt (ParkingLot.unparkVehicle w3 motorcycle).2 0 0)
    = Some true.
Proof.
  split_and!; try (vm_compute; reflexivity);
    eexists; (split; [vm_compute; reflexivity|reflexivity]).
Qed.

(** *** The theorems at the example lot *)

(** In the ten-spot lot the car goes to the spot at index 1, the first car
    spot; in the lot with a single truck spot it cannot be parked. *)
Lemma C1_witness :
  ParkingLot.parkVehicle small_lot car
  = Ok (true,
        ParkingLot.mk
          (<[0%nat := Level.mk (Level.floor (Level.new 1 10))
               (<[1%nat := occupied_by car (ParkingSpot.new 2 CAR)]>
                  (Level.parkingSpots (Level.new 1 10)))]>
             (ParkingLot.heap small_lot))
          (ParkingLot.levels small_lot)
          (ParkingLot.console small_lot ++ ["Vehicle parked successfully."]))
  ∧ ParkingLot.parkVehicle truck_only_lot car
    = Ok (false,
          ParkingLot.mk (ParkingLot.heap truck_only_lot)
            (ParkingLot.levels truck_only_lot)
            (ParkingLot.console truck_only_lot ++ ["Could not park vehicle."])).
Proof.
  split.
  - apply (proj1 (C1_parkVehicle_first_free_spot small_lot car)
             0%nat 0%nat (Level.new 1 10) 1%nat (ParkingSpot.new 2 CAR)).
    + reflexivity.
    + intros k' level' Hlt. lia.
    + reflexivity.
    + vm_compute. reflexivity.
    + split; reflexivity.
    + intros j s' Hlt Hs' [_ Hty].
      destruct j as [|j]; [|lia].
      vm_compute in Hs'. injection Hs' as <-. discriminate Hty.
  - apply (proj1 (proj2 (C1_parkVehicle_first_free_spot truck_only_lot car))).
    intros level Hin l i s Hl Hi [_ Hty].
    vm_compute in Hin. apply list_elem_of_singleton in Hin. subst level.
    vm_compute in Hl. injection Hl as <-.
    destruct i as [|i]; [|done].
    vm_compute in Hi. injection Hi as <-. discriminate Hty.
Defined.

Lemma C5_witness : at_most_one_spot (after_parkVehicle small_lot car).
Proof.
  apply C5_at_most_one_spot_when_parking_once.
  apply (once_parkVehicle small_lot car true).
  - apply once_small_lot.
  - apply small_lot_not_parked.
  - vm_compute. reflexivity.
Defined.

Lemma C6_witness : ParkingLot.unparkVehicle small_lot car = (false, small_lot).
Proof.
  apply C6_unparkVehicle_not_parked.
  intros level Hin l i s Hl Hi.
  assert (ParkingSpot.parkedVehicle s = None) as Hs.
  { apply (small_lot_empty level i). unfold ParkingLot.spotAt.
    rewrite Hl. exact Hi. }
  unfold ParkingSpot.holds, ParkingSpot.getParkedVehicle. rewrite Hs.
  reflexivity.
Defined.

Lemma C7_witness :
  ∃ w1,
    ParkingLot.unparkVehicle (after_parkVehicle small_lot car) car = (true, w1)
    ∧ ParkingLot.spotAt w1 0 1
      = Some (ParkingSpot.unparkVehicle (occupied_by car (ParkingSpot.new 2 CAR)))
    ∧ ParkingSpot.isAvailable
        (ParkingSpot.unparkVehicle (occupied_by car (ParkingSpot.new 2 CAR)))
      = true
    ∧ (∀ level' i', ¬ (level' = 0%nat ∧ i' = 1%nat) →
         ParkingLot.spotAt w1 level' i'
         = ParkingLot.spotAt (after_parkVehicle small_lot car) level' i')
    ∧ ∀ u, getType u
           = ParkingSpot.getVehicleType (occupied_by car (ParkingSpot.new 2 CAR)) →
           free_for u
             (ParkingSpot.unparkVehicle (occupied_by car (ParkingSpot.new 2 CAR)))
           ∧ ∃ w2, ParkingLot.parkVehicle w1 u = Ok (true, w2).
Proof.
  apply (C7_unparkVehicle_frees_first_holder
           (after_parkVehicle small_lot car) car 0%nat 0%nat
           (Level.mk 1 (<[1%nat := occupied_by car (ParkingSpot.new 2 CAR)]>
                          (Level.parkingSpots (Level.new 1 10))))
           1%nat (occupied_by car (ParkingSpot.new 2 CAR))).
  - reflexivity.
  - intros k' level' Hlt. lia.
  - vm_compute. reflexivity.
  - vm_compute. reflexivity.
  - reflexivity.
  - intros j s' Hlt Hs'. destruct j as [|j]; [|lia].
    vm_compute in Hs'. injection Hs' as <-. reflexivity.
Defined.

Lemma C10_witness :
  ParkingSpot.parkVehicle (ParkingSpot.new 2 CAR) car
  = Ok (occupied_by car (ParkingSpot.new 2 CAR)).
Proof.
  apply (proj1 C10_parkVehicle_never_throws). reflexivity.
Defined.

End ParkingFacts.

(** ** Singletons *)

Module SingletonFacts.
Import JS Singletons.

(** Every acquisition returns the content of [Singleton.instance] after the
    call, which is an object. *)
Lemma acquire_instance a st :
  (Singleton.acquire a st).1 = Singleton.instance (Singleton.acquire a st).2
  ∧ is_Some (Singleton.acquire a st).1.
Proof.
  destruct st as [h [r|]], a; simpl; eauto.
Qed.

(** Once the instance exists, every acquisition returns it and leaves
    [Singleton.instance] as it is. *)
Lemma acquire_existing a st r :
  Singleton.instance st = Some r →
  (Singleton.acquire a st).1 = Some r
  ∧ Singleton.instance (Singleton.acquire a st).2 = Some r.
Proof.
  destruct st as [h i]. simpl. intros ->. by destruct a.
Qed.

Lemma acquire_all_existing accesses st r :
  Singleton.instance st = Some r →
  Forall (λ x, x = Some r) (Singleton.acquire_all accesses st).
Proof.
  revert st; induction accesses as [|a rest IH]; intros st Hst; simpl.
  - constructor.
  - destruct (acquire_existing a st r Hst) as [H1 H2].
    destruct (Singleton.acquire a st) as [x st']. simpl in *.
    constructor; [done|]. by apply IH.
Qed.

Lemma parkingLot_getInstance_cases st :
  ∃ r st1,
    ParkingLot.getInstance st = Ok (Some r, st1)
    ∧ ParkingLot.instance st1 = Some r
    ∧ ParkingLot.getInstance st1 = Ok (Some r, st1)
    ∧ ParkingLot.new st1
      = Throw (Error "Use ParkingLot.getInstance() to get the singleton instance.").
Proof.
  destruct st as [h [r|]].
  - exists r, (ParkingLot.mk h (Some r)). done.
  - exists (length h), (ParkingLot.mk (h ++ [ParkingLot.mk_object []]) (Some (length h))).
    done.
Qed.

(** C8 (amended).  For [Singleton]: whatever the state, two consecutive
    acquisitions, each by [new] or by [getInstance], yield the same object,
    and so does every later acquisition; before the first access there is
    no instance, and the first access creates it.  For [ParkingLot]:
    [getInstance] yields an object that every later [getInstance] yields
    again, created by the first call when there was none; once it exists,
    direct construction throws instead of yielding an instance. *)
Theorem C8_singleton_instance_is_shared :
  (∀ st a b,
      (Singleton.acquire b (Singleton.acquire a st).2).1
      = (Singleton.acquire a st).1
      ∧ is_Some (Singleton.acquire a st).1)
  ∧ (∀ st a accesses,
      Forall (λ r, r = (Singleton.acquire a st).1)
             (Singleton.acquire_all (a :: accesses) st))
  ∧ (Singleton.instance Singleton.init = None
     ∧ Singleton.heap Singleton.init = []
     ∧ ∀ a, (Singleton.acquire a Singleton.init).1 = Some 0%nat
            ∧ Singleton.heap (Singleton.acquire a Singleton.init).2 !! 0%nat
              = Some (Singleton.mk_object (Some 42)))
  ∧ (∀ st, ∃ r st1,
      ParkingLot.getInstance st = Ok (Some r, st1)
      ∧ ParkingLot.instance st1 = Some r
      ∧ ParkingLot.getInstance st1 = Ok (Some r, st1)
      ∧ ParkingLot.new st1
        = Throw (Error "Use ParkingLot.getInstance() to get the singleton instance."))
  ∧ (ParkingLot.instance ParkingLot.init = None
     ∧ ParkingLot.heap ParkingLot.init = []
     ∧ (ParkingLot.getInstance ParkingLot.init
        = Ok (Some 0%nat,
              ParkingLot.mk [ParkingLot.mk_object []] (Some 0%nat)))).
Proof.
  split_and!; try done.
  - intros st a b.
    destruct (acquire_instance a st) as [Hi [r Hr]].
    rewrite Hr in Hi. symmetry in Hi.
    destruct (acquire_existing b _ r Hi) as [Hb _].
    rewrite Hb, Hr. eauto.
  - intros st a accesses. simpl.
    destruct (acquire_instance a st) as [Hi [r Hr]].
    destruct (Singleton.acquire a st) as [x st'] eqn:Ha. simpl in *. subst x.
    constructor; [done|].
    rewrite Hr. by apply acquire_all_existing.
  - intros a. by destruct a.
  - apply parkingLot_getInstance_cases.
Qed.

(** C8, as stated, fails for [ParkingLot]: its constructor does not record
    the object it builds, so direct construction followed by [getInstance]
    yields two different objects; and after [getInstance], direct
    construction throws. *)
Lemma C8_counterexample_ParkingLot_new :
  (∃ obj1 st1 obj2 st2,
      ParkingLot.new ParkingLot.init = Ok (obj1, st1)
      ∧ ParkingLot.getInstance st1 = Ok (Some obj2, st2)
      ∧ obj1 ≠ obj2)
  ∧ (∃ obj st1 e,
      ParkingLot.getInstance ParkingLot.init = Ok (Some obj, st1)
      ∧ ParkingLot.new st1 = Throw e).
Proof.
  split.
  - exists 0%nat, (ParkingLot.mk [ParkingLot.mk_object []] None), 1%nat.
    eexists. split_and!; [reflexivity|reflexivity|lia].
  - do 3 eexists. split; reflexivity.
Qed.

(** The example of [singleton.js]: [obj1 === obj2]. *)
Lemma singleton_example :
  let '(obj1, st1) := Singleton.new Singleton.init in
  let '(obj2, st2) := Singleton.getInstance st1 in
  Some obj1 = obj2.
Proof. reflexivity. Qed.

End SingletonFacts.

(** ** Observer *)

Module ObserverFacts.
Import JS Observer.

(** Observers are kept in attachment order, and [detach] removes every
    occurrence of the observer. *)
Lemma observers_of_subject : observers subject = [observer1; observer2].
Proof. reflexivity. Qed.

Lemma observers_after_detach :
  observers (detach subject observer1) = [observer2].
Proof. reflexivity. Qed.

(** If the scope around the class binds [data], every attached observer is
    updated once, in attachment order, with the value of that binding (the
    argument of [notify] is not used). *)
Lemma forEach_update_bound todo outer arg d done :
  resolve "data" outer = Ok d →
  forEach_update todo (("observer", arg) :: outer) done
  = (done ++ ((λ o, Update o d) <$> todo), None).
Proof.
  intros Hd. revert done; induction todo as [|o rest IH]; intros done; simpl.
  - by rewrite app_nil_r.
  - rewrite Hd. rewrite IH. by rewrite <- app_assoc.
Qed.

(** If no scope around the class binds [data], reading it in the first
    callback throws, and no [update] is called. *)
Lemma notify_unbound outer this arg e o rest :
  resolve "data" outer = Throw e →
  observers this = o :: rest →
  notify outer this arg = ([], Some e).
Proof.
  intros Hd Ho. unfold notify. rewrite Ho. simpl. by rewrite Hd.
Qed.

(** C4: with two observers attached, [notify] is expected to call [update]
    on both, once each, in attachment order and with the payload.  In the
    example script the call [subject.notify('Something changed!')] throws
    [ReferenceError: data is not defined] in the first callback and calls no
    [update], because [notify] names its parameter [observer] and the
    callback reads [data], which nothing binds; the same happens after a
    detach. *)
Theorem C4_notify_throws_reference_error :
  notify module_scope subject (Str "Something changed!")
  = ([], Some (ReferenceError "data is not defined"))
  ∧ notify module_scope (detach subject observer1) (Str "Something changed!")
    = ([], Some (ReferenceError "data is not defined")).
Proof. split; reflexivity. Qed.

End ObserverFacts.

(** ** The string puzzle *)

Module SpecialStringFacts.
Import JS SpecialString.

(** The test cases of the source file that state an expected output and are
    met: cases 1 to 8 and 10 to 12. *)
Lemma test_cases_met :
  getSpecialString "a" = Ok "b"
  ∧ getSpecialString "ab" = Ok "ac"
  ∧ getSpecialString "aba" = Ok "abc"
  ∧ getSpecialString "zz" = Ok "-1"
  ∧ getSpecialString "zzzzzz" = Ok "-1"
  ∧ getSpecialString "z" = Ok "-1"
  ∧ getSpecialString "ababab" = Ok "ababac"
  ∧ getSpecialString "abcdez" = Ok "abcdfa"
  ∧ getSpecialString "abcdefg" = Ok "abcdefh"
  ∧ getSpecialString "aabccbaa" = Ok "aabccbab"
  ∧ getSpecialString "abcxyz" = Ok "abcxza".
Proof. vm_compute. repeat split. Qed.

(** C3: the result should be the least string that is greater than the
    input, of the same length and without two equal adjacent characters.
    On "abccde" (test case 9 of the source file, expected "abcdab") the
    function returns "abccdf", which keeps the two adjacent [c] of the
    input, although "abcdab" is an admissible answer. *)
Theorem C3_getSpecialString_keeps_adjacent_pair :
  lowercase "abccde"
  ∧ getSpecialString "abccde" = Ok "abccdf"
  ∧ special "abccdf" = false
  ∧ candidate "abccde" "abcdab".
Proof.
  split_and!.
  - unfold lowercase. simpl. repeat constructor; simpl; lia.
  - vm_compute. reflexivity.
  - reflexivity.
  - unfold candidate. split_and!; try reflexivity.
    unfold lowercase. simpl. repeat constructor; simpl; lia.
Qed.

End SpecialStringFacts.

(** ** The most frequent words *)

Module TopKFacts.
Import TopK.

(** *** The map of frequencies *)

Lemma Map_get_set m key value key' :
  Map_get (Map_set m key value) key'
  = if decide (key = key') then Some value else Map_get m key'.
Proof.
  induction m as [|[k v] rest IH]; simpl.
  - done.
  - destruct (decide (k = key)) as [->|Hk]; simpl.
    + destruct (decide (key = key')); done.
    + destruct (decide (k = key')) as [->|Hk'].
      * by rewrite decide_False.
      * done.
Qed.

Lemma Map_set_keys m key value x :
  x ∈ (Map_set m key value).*1 ↔ x = key ∨ x ∈ m.*1.
Proof.
  induction m as [|[k v] rest IH]; simpl.
  - rewrite list_elem_of_singleton, elem_of_nil. tauto.
  - destruct (decide (k = key)) as [->|Hk]; simpl.
    + rewrite !elem_of_cons. tauto.
    + rewrite !elem_of_cons, IH. tauto.
Qed.

Lemma Map_set_NoDup m key value :
  NoDup m.*1 → NoDup (Map_set m key value).*1.
Proof.
  induction m as [|[k v] rest IH]; simpl; intros Hnd.
  - apply NoDup_singleton.
  - apply NoDup_cons in Hnd as [Hk Hrest].
    destruct (decide (k = key)) as [->|Hne]; simpl.
    + by apply NoDup_cons.
    + apply NoDup_cons. split; [|by apply IH].
      rewrite Map_set_keys. intros [->|Hin]; done.
Qed.

Lemma Map_get_Some_elem m key value :
  Map_get m key = Some value → (key, value) ∈ m.
Proof.
  induction m as [|[k v] rest IH]; simpl; [done|].
  destruct (decide (k = key)) as [->|Hne].
  - intros [= ->]. left.
  - intros H. right. by apply IH.
Qed.

Lemma Map_elem_get m key value :
  NoDup m.*1 → (key, value) ∈ m → Map_get m key = Some value.
Proof.
  induction m as [|[k v] rest IH]; simpl; intros Hnd Hin.
  - by apply elem_of_nil in Hin.
  - apply NoDup_cons in Hnd as [Hk Hrest].
    apply elem_of_cons in Hin as [[= <- <-]|Hin].
    + by rewrite decide_True.
    + destruct (decide (k = key)) as [->|Hne].
      * destruct Hk. apply list_elem_of_fmap. by exists (key, value).
      * by apply IH.
Qed.

Lemma frequency_snoc words x w :
  frequency (words ++ [x]) w
  = frequency words w + (if decide (x = w) then 1 else 0).
Proof.
  unfold frequency. rewrite filter_app, length_app.
  destruct (decide (x = w)) as [->|Hne].
  - rewrite filter_cons_True by done. simpl. lia.
  - rewrite filter_cons_False by done. simpl. lia.
Qed.

Lemma frequency_nonneg words w : 0 ≤ frequency words w.
Proof. unfold frequency. lia. Qed.

Lemma frequency_pos words w : 0 < frequency words w ↔ w ∈ words.
Proof.
  unfold frequency. induction words as [|x rest IH]; simpl.
  - split; [lia|by intros ?%elem_of_nil].
  - destruct (decide (x = w)) as [->|Hne].
    + rewrite filter_cons_True by done. simpl. split; [left|lia].
    + rewrite filter_cons_False by done. rewrite IH.
      rewrite elem_of_cons. split; [by right|]. by intros [->|?].
Qed.

(** The map has one entry per distinct word, and its value is the number of
    occurrences of the word. *)
Lemma getFrequencies_spec words :
  NoDup (getFrequencies words).*1
  ∧ ∀ w, Map_get (getFrequencies words) w
         = if decide (frequency words w = 0) then None
           else Some (frequency words w).
Proof.
  induction words as [|x pre IH] using rev_ind.
  - split; [constructor|done].
  - destruct IH as [Hnd Hget]. unfold getFrequencies in *.
    rewrite fold_left_app. simpl.
    set (m := fold_left _ pre []) in *.
    split; [by apply Map_set_NoDup|].
    intros w. rewrite Map_get_set, frequency_snoc.
    pose proof (frequency_nonneg pre w) as Hw.
    destruct (decide (x = w)) as [->|Hne].
    + rewrite decide_False by lia. f_equal.
      unfold get_or_0. rewrite Hget.
      destruct (decide (frequency pre w = 0)) as [->|Hnz]; [done|].
      by rewrite (proj2 (Z.eqb_neq _ _) Hnz).
    + rewrite Hget. rewrite Z.add_0_r. done.
Qed.

Lemma getFrequencies_elem words w c :
  (w, c) ∈ getFrequencies words ↔ w ∈ words ∧ c = frequency words w.
Proof.
  destruct (getFrequencies_spec words) as [Hnd Hget].
  split.
  - intros Hin%(Map_elem_get _ _ _ Hnd). rewrite Hget in Hin.
    destruct (decide (frequency words w = 0)) as [|Hnz]; [done|].
    injection Hin as <-. split; [|done].
    apply frequency_pos. pose proof (frequency_nonneg words w). lia.
  - intros [Hin ->]. apply Map_get_Some_elem. rewrite Hget.
    apply frequency_pos in Hin. rewrite decide_False by lia. done.
Qed.

(** *** The queue *)

Lemma StronglySorted_lookup {A} (R : A → A → Prop) (l : list A) i j a b :
  StronglySorted R l → (i < j)%nat → l !! i = Some a → l !! j = Some b →
  R a b.
Proof.
  intros Hs. revert i j.
  induction Hs as [|x l Hs IH Hall]; intros i j Hlt Hi Hj; [done|].
  destruct j as [|j]; [lia|]. simpl in Hj.
  destruct i as [|i]; simpl in Hi.
  - injection Hi as <-. rewrite Forall_forall in Hall. apply Hall.
    by eapply list_elem_of_lookup_2.
  - apply (IH i j); [lia|done..].
Qed.

Section Queue.
Context (localeCompare : string → string → Z) `{PQ : PriorityQueue entry}.
Hypothesis Hcoll : collation localeCompare.

#[local] Abbreviation compareFunc := (TopK.compareFunc localeCompare).

Lemma compareFunc_total_preorder : total_preorder compareFunc.
Proof.
  destruct Hcoll as (Hzero & Hrefl & Hanti & Htrans).
  split.
  - intros [w1 c1] [w2 c2]. unfold TopK.compareFunc. simpl.
    destruct (Z.eqb_spec c1 c2) as [->|Hne]; simpl.
    + rewrite Z.eqb_refl. simpl.
      destruct (Z_le_gt_dec (localeCompare w1 w2) 0) as [Hle|Hgt]; [by left|].
      right. assert (localeCompare w2 w1 < 0) by (apply Hanti; lia). lia.
    + destruct (Z.eqb_spec c2 c1) as [->|_]; [done|]. simpl. lia.
  - intros [w1 c1] [w2 c2] [w3 c3]. unfold TopK.compareFunc. simpl.
    destruct (Z.eqb_spec c1 c2) as [->|H12];
      destruct (Z.eqb_spec c2 c3) as [->|H23]; simpl;
      try rewrite Z.eqb_refl; simpl.
    + apply Htrans.
    + destruct (Z.eqb_spec c2 c3); [done|]. simpl. done.
    + destruct (Z.eqb_spec c1 c3); [done|]. simpl. done.
    + intros Ha Hb. destruct (Z.eqb_spec c1 c3); simpl; lia.
Qed.

Lemma compareFunc_zero a b : compareFunc a b = 0 → a = b.
Proof.
  destruct Hcoll as (Hzero & _).
  destruct a as [w1 c1], b as [w2 c2]. unfold TopK.compareFunc. simpl.
  destruct (Z.eqb_spec c1 c2) as [->|Hne]; simpl.
  - intros ->%Hzero. done.
  - lia.
Qed.

Lemma compareFunc_ranks words w1 w2 :
  w1 ≠ w2 →
  compareFunc (w1, frequency words w1) (w2, frequency words w2) ≤ 0 →
  ranks_before localeCompare words w1 w2.
Proof.
  intros Hne Hle.
  assert (compareFunc (w1, frequency words w1) (w2, frequency words w2) ≠ 0)
    as Hnz.
  { intros Hz%compareFunc_zero. congruence. }
  unfold TopK.compareFunc in *. simpl in *. unfold ranks_before.
  destruct (Z.eqb_spec (frequency words w1) (frequency words w2)) as [He|Hd];
    simpl in *.
  - right. split; [done|lia].
  - left. lia.
Qed.

Lemma enqueue_all (l : list entry) (q : queue compareFunc) :
  toArray (fold_left enqueue l q) ≡ₚ l ++ toArray q.
Proof.
  revert q; induction l as [|e l IH]; intros q; simpl; [done|].
  rewrite IH, toArray_enqueue. by rewrite Permutation_middle.
Qed.

(** After the loop over the map the queue holds an entry for every word. *)
Lemma getFrequencies_not_empty (words : list string) :
  words ≠ [] → getFrequencies words ≠ [].
Proof.
  destruct words as [|w rest]; [done|]. intros _ Hnil.
  assert ((w, frequency (w :: rest) w) ∈ getFrequencies (w :: rest)) as Hin.
  { apply getFrequencies_elem. split; [left | done]. }
  rewrite Hnil in Hin. by apply elem_of_nil in Hin.
Qed.

Lemma filled_queue_not_empty (words : list string) :
  words ≠ [] →
  toArray (fold_left enqueue (getFrequencies words)
             (new_PriorityQueue compareFunc)) ≠ [].
Proof.
  intros Hne Hnil.
  pose proof (enqueue_all (getFrequencies words)
                (new_PriorityQueue compareFunc)) as Hperm.
  rewrite Hnil, toArray_new, app_nil_r in Hperm.
  apply Permutation_nil_l in Hperm.
  by apply (getFrequencies_not_empty words).
Qed.

(** The first round of the loop on a queue that is not empty ends at the
    destructuring of [pq.dequeue().element]. *)
Lemma dequeue_loop_throws remaining (q : queue compareFunc) result :
  toArray q ≠ [] →
  ∃ message,
    dequeue_loop localeCompare (S remaining) q result
    = JS.Throw (JS.TypeError message).
Proof.
  intros Hne. cbn [dequeue_loop].
  destruct (isEmpty q) eqn:Hemp.
  { apply isEmpty_toArray in Hemp. done. }
  destruct (dequeue_front _ q Hne) as (item & q' & -> & _).
  unfold element, destructure. by eexists.
Qed.

Lemma topKFrequent_release_5 (words : list string) (k : Z) :
  words ≠ [] → 0 < k →
  ∃ message,
    topKFrequent localeCompare release_5 words k
    = JS.Throw (JS.TypeError message).
Proof.
  intros Hne Hk. destruct words as [|w rest]; [done|].
  unfold topKFrequent, new_PriorityQueue_of_options.
  replace (Z.to_nat k) with (S (Z.to_nat (k - 1))) by lia.
  by apply dequeue_loop_throws, filled_queue_not_empty.
Qed.

Lemma topKFrequent_release_6 (words : list string) (k : Z) :
  words ≠ [] →
  ∃ message,
    topKFrequent localeCompare release_6 words k
    = JS.Throw (JS.Error message).
Proof.
  intros Hne. destruct words as [|w rest]; [done|].
  unfold topKFrequent, new_PriorityQueue_of_options. by eexists.
Qed.

End Queue.

(** *** The result *)

(** C9: [topKFrequent(["i","love","leetcode","i","love","coding"], 2)]
    does not return [["i","love"]]: it throws, with either release of the
    package and whatever the queue and the collation are.  With a release
    5.x the queue is built and filled, and the first round of the loop
    throws a [TypeError]: [pq.dequeue()] is the entry itself, its
    [element] is [undefined], and [undefined] cannot be destructured.
    With a release 6.x the constructor throws an [Error], since it is
    given an object and not a function. *)
Theorem C9_topKFrequent_throws
    (localeCompare : string → string → Z) `{PQ : PriorityQueue entry} :
  (∃ message,
     topKFrequent localeCompare release_5 words1 2
     = JS.Throw (JS.TypeError message))
  ∧ (∃ message,
       topKFrequent localeCompare release_6 words1 2
       = JS.Throw (JS.Error message)).
Proof.
  split.
  - by apply topKFrequent_release_5.
  - by apply topKFrequent_release_6.
Qed.

(** *** A queue and a collation that meet the assumptions *)

Lemma extract_min_spec {E} (compare : E → E → Z) (l : list E) :
  l ≠ [] →
  ∃ e l', extract_min compare l = Some (e, l')
          ∧ l ≡ₚ e :: l'
          ∧ (total_preorder compare → ∀ x, x ∈ l → compare e x ≤ 0).
Proof.
  induction l as [|x rest IH]; [done|]. intros _. simpl.
  destruct rest as [|y rest'].
  - simpl. exists x, []. split_and!; [done..|].
    intros [Htot _] z ->%list_elem_of_singleton. by destruct (Htot x x).
  - destruct IH as (m & l' & Hm & Hperm & Hmin); [done|].
    rewrite Hm.
    destruct (Z.leb_spec (compare x m) 0) as [Hle|Hgt].
    + exists x, (y :: rest'). split_and!; [done..|].
      intros Hpre z [->|Hz]%elem_of_cons.
      * destruct Hpre as [Htot _]. by destruct (Htot x x).
      * destruct Hpre as [Htot Htrans].
        apply (Htrans _ m); [done|]. by apply Hmin.
    + exists m, (x :: l'). split_and!; [done| |].
      * rewrite Hperm. apply perm_swap.
      * intros Hpre z [->|Hz]%elem_of_cons.
        -- destruct Hpre as [Htot _]. destruct (Htot m x); [done|lia].
        -- by apply Hmin.
Qed.

Definition list_queue (E : Type) : PriorityQueue E.
Proof.
  refine {|
    queue := λ _, list E;
    new_PriorityQueue := λ _, [];
    enqueue := λ _ q e, e :: q;
    dequeue := λ compare q, extract_min compare q;
    isEmpty := λ _ q, match q with [] => true | _ :: _ => false end;
    toArray := λ _ q, q
  |}.
  - done.
  - done.
  - intros _ [|x q]; done.
  - by intros compare q ->.
  - intros compare q. apply extract_min_spec.
Defined.

Lemma codeCompare_collation : collation codeCompare.
Proof.
  unfold collation, codeCompare. split_and!.
  - intros a b. destruct (String.compare a b) eqn:Hc; try done.
    intros _. by apply String.compare_eq_iff.
  - intros a. pose proof (proj2 (String_as_OT.cmp_eq a a) eq_refl) as Haa.
    unfold String_as_OT.cmp in Haa. by rewrite Haa.
  - intros a b. rewrite (String.compare_antisym b a).
    destruct (String.compare a b); simpl; lia.
  - intros a b c.
    destruct (String.compare a b) eqn:Hab; [|intros _|lia].
    + apply String.compare_eq_iff in Hab as ->. done.
    + destruct (String.compare b c) eqn:Hbc; [|intros _|lia].
      * apply String.compare_eq_iff in Hbc as <-. by rewrite Hab.
      * apply String_as_OT.cmp_lt in Hab, Hbc.
        pose proof (String_as_OT.lt_trans _ _ _ Hab Hbc) as Hac.
        apply String_as_OT.cmp_lt in Hac.
        unfold String_as_OT.cmp in Hac. by rewrite Hac.
Qed.

(** The examples of the source file, run with the reference queue and the
    order by character code: each call throws. *)
Lemma examples_run (library : release) :
  ∃ e1 e2 e3,
    topKFrequent codeCompare (PQ := list_queue entry) library words1 2
    = JS.Throw e1
    ∧ topKFrequent codeCompare (PQ := list_queue entry) library words2 4
      = JS.Throw e2
    ∧ topKFrequent codeCompare (PQ := list_queue entry) library words3 1
      = JS.Throw e3.
Proof. destruct library; vm_compute; by eexists _, _, _. Qed.

End TopKFacts.

(** ** Further properties of the parking garage *)

Module ParkingMoreFacts.
Import JS ParkingGarage ParkingInvariants ParkingFacts.

Lemma pushSpots_lookup first count ty i :
  (i < count)%nat →
  Level.pushSpots first count ty !! i = Some (ParkingSpot.new (first + Z.of_nat i) ty).
Proof.
  revert first i; induction count as [|c IH]; intros first i Hi; [lia|].
  destruct i as [|i].
  - simpl. by rewrite Z.add_0_r.
  - change (Level.pushSpots (first + 1) c ty !! i
            = Some (ParkingSpot.new (first + Z.of_nat (S i)) ty)).
    rewrite IH by lia. f_equal. f_equal. lia.
Qed.

(** The spots produced by the three loops: numbered from 1 without gaps,
    motorcycles first, then cars, then trucks. *)
Lemma build_lookup floor numSpots nb nc i :
  0 ≤ nb → 0 ≤ nc → nb + nc ≤ numSpots → (Z.of_nat i < numSpots) →
  Level.parkingSpots (Level.build floor numSpots nb nc) !! i
  = Some (ParkingSpot.new (Z.of_nat i + 1) (type_at nb nc i)).
Proof.
  intros Hb Hc Hn Hi. unfold Level.build, type_at. simpl.
  destruct (Z.ltb_spec (Z.of_nat i) nb) as [H1|H1].
  - rewrite lookup_app_l by (rewrite LevelFacts.pushSpots_length; lia).
    rewrite pushSpots_lookup by lia. do 2 f_equal. lia.
  - rewrite lookup_app_r by (rewrite LevelFacts.pushSpots_length; lia).
    rewrite LevelFacts.pushSpots_length.
    destruct (Z.ltb_spec (Z.of_nat i) (nb + nc)) as [H2|H2].
    + rewrite lookup_app_l by (rewrite LevelFacts.pushSpots_length; lia).
      rewrite pushSpots_lookup by lia. do 2 f_equal. lia.
    + rewrite lookup_app_r by (rewrite LevelFacts.pushSpots_length; lia).
      rewrite LevelFacts.pushSpots_length.
      rewrite pushSpots_lookup by lia. do 2 f_equal. lia.
Qed.

Lemma all_from_spec f start count z :
  all_from f start count = true →
  start ≤ z < start + Z.of_nat count → f z = true.
Proof.
  revert start; induction count as [|c IH]; intros start Hall Hz; [lia|].
  simpl in Hall. apply andb_true_iff in Hall as [Hs Hrest].
  destruct (decide (z = start)) as [->|Hne]; [done|].
  apply (IH (start + 1)); [done|lia].
Qed.

Lemma shares_checked :
  all_from shares_in_range 0 (Z.to_nat 10001) = true.
Proof. vm_compute. reflexivity. Qed.

(** X1: a level built with up to 10000 spots has exactly [numSpots] spots,
    numbered 1, 2, ... in order; the first floor(n/10) are motorcycle
    spots, the next ones car spots, as many as floor(7n/10) or one fewer,
    and all the others truck spots. *)
Theorem level_layout floor numSpots :
  0 ≤ numSpots ≤ 10000 →
  Level.numBikes numSpots = numSpots / 10
  ∧ (Level.numCars numSpots = 7 * numSpots / 10
     ∨ Level.numCars numSpots = 7 * numSpots / 10 - 1)
  ∧ length (Level.parkingSpots (Level.new floor numSpots)) = Z.to_nat numSpots
  ∧ ∀ i, Z.of_nat i < numSpots →
         Level.parkingSpots (Level.new floor numSpots) !! i
         = Some (ParkingSpot.new (Z.of_nat i + 1)
                   (type_at (Level.numBikes numSpots) (Level.numCars numSpots) i)).
Proof.
  intros Hn.
  pose proof (all_from_spec _ _ _ numSpots shares_checked ltac:(lia)) as Hs.
  unfold shares_in_range in Hs.
  repeat (apply andb_true_iff in Hs as [Hs ?]).
  assert (0 ≤ Level.numBikes numSpots) by lia.
  assert (0 ≤ Level.numCars numSpots) by lia.
  assert (Level.numBikes numSpots + Level.numCars numSpots ≤ numSpots) by lia.
  split_and!.
  - lia.
  - lia.
  - unfold Level.new.
    by apply (LevelFacts.build_counts floor numSpots).
  - intros i Hi. unfold Level.new. by apply build_lookup.
Qed.

Lemma level_layout_witness :
  Level.parkingSpots (Level.new 1 100) !! 10%nat = Some (ParkingSpot.new 11 CAR).
Proof.
  apply (proj2 (proj2 (proj2 (level_layout 1 100 ltac:(lia)))) 10%nat).
  lia.
Defined.

(** *** What the calls keep *)

(** [parkVehicle] returns [false] and changes no level, or returns [true]
    and assigns the vehicle to one spot that was free for it. *)
Lemma parkVehicle_result w v b w' :
  ParkingLot.parkVehicle w v = Ok (b, w') →
  ParkingLot.levels w' = ParkingLot.levels w
  ∧ ((b = false ∧ ParkingLot.heap w' = ParkingLot.heap w)
     ∨ (b = true
        ∧ ∃ level l i s,
            level ∈ ParkingLot.levels w
            ∧ ParkingLot.heap w !! level = Some l
            ∧ Level.parkingSpots l !! i = Some s
            ∧ free_for v s
            ∧ ParkingLot.heap w'
              = <[level := Level.mk (Level.floor l)
                    (<[i := occupied_by v s]> (Level.parkingSpots l))]>
                  (ParkingLot.heap w))).
Proof.
  destruct (first_free_level_or_none (ParkingLot.levels w) v (ParkingLot.heap w))
    as [Hn|(k & level & l & i & s & Hk & Hb & Hh & Hi & Hf & Hfirst)].
  - rewrite (lot_parkVehicle_none _ _ Hn). intros [= <- <-]. simpl.
    split; [done|]. by left.
  - rewrite (lot_parkVehicle_first _ _ _ _ _ _ _ Hk Hb Hh Hi Hf Hfirst).
    intros [= <- <-]. simpl. split; [done|]. right. split; [done|].
    exists level, l, i, s. split_and!; try done.
    by eapply list_elem_of_lookup_2.
Qed.

(** A level whose spot at index [i] is replaced by a spot with the same
    number and type. *)
Lemma layout_replace l i s s' :
  Level.parkingSpots l !! i = Some s →
  ParkingSpot.spotNumber s' = ParkingSpot.spotNumber s →
  ParkingSpot.vehicleType s' = ParkingSpot.vehicleType s →
  layout (Level.mk (Level.floor l) (<[i := s']> (Level.parkingSpots l)))
  = layout l.
Proof.
  intros Hi Hn Ht. unfold layout. simpl.
  rewrite list_fmap_insert. apply list_insert_id.
  rewrite list_lookup_fmap, Hi. simpl. by rewrite Hn, Ht.
Qed.

Lemma lookup_replaced_level (h : list Level.t) level l1 level' l' :
  <[level := l1]> h !! level' = Some l' →
  (level' = level ∧ l' = l1 ∧ is_Some (h !! level))
  ∨ (level' ≠ level ∧ h !! level' = Some l').
Proof.
  intros Hl. destruct (decide (level' = level)) as [->|Hne].
  - left. assert (level < length h)%nat as Hlt.
    { apply lookup_lt_Some in Hl. by rewrite length_insert in Hl. }
    rewrite list_lookup_insert_eq in Hl by done. injection Hl as <-.
    split_and!; try done. by apply lookup_lt_is_Some.
  - right. by rewrite list_lookup_insert_ne in Hl.
Qed.

(** X2: in every state reachable from a fresh lot, whatever the calls were,
    each parked vehicle is of the type of the spot that holds it. *)
Theorem reachable_types_match (w : ParkingLot.t) :
  reachable w → types_match w.
Proof.
  intros Hreach.
  induction Hreach as [|w floor numSpots _ IH|w level _ IH _
                       |w v b w' _ IH Hpark|w v _ IH].
  - intros level l i s v Hl. done.
  - intros level l i s v Hl Hi Hv. simpl in Hl.
    apply lookup_app_Some in Hl as [Hl|[_ Hl]]; [by eapply IH|].
    destruct (level - length (ParkingLot.heap w))%nat; [|done].
    simpl in Hl. injection Hl as <-.
    apply new_Level_empty in Hi. congruence.
  - exact IH.
  - destruct (parkVehicle_result _ _ _ _ Hpark)
      as [_ [[_ Hheap]|(_ & level & l & i & s & _ & Hh & Hi & Hf & Hheap)]].
    + intros level l i s u Hl. rewrite Hheap in Hl. by eapply IH.
    + intros level' l' i' s' u Hl Hi' Hu. rewrite Hheap in Hl.
      apply lookup_replaced_level in Hl as [(-> & -> & _)|[_ Hl]];
        [|by eapply IH]. simpl in Hi'.
      destruct (decide (i' = i)) as [->|Hne].
      * rewrite list_lookup_insert_eq in Hi' by (by eapply lookup_lt_Some).
        injection Hi' as <-. simpl in Hu. injection Hu as <-. simpl.
        by destruct Hf as [_ <-].
      * rewrite list_lookup_insert_ne in Hi' by done. by eapply IH.
  - destruct (unparkVehicle_effect w v)
      as [_ [Hheap|(level & l & i & s & _ & Hh & Hi & Hheap)]].
    + intros level l i s u Hl. rewrite Hheap in Hl. by eapply IH.
    + intros level' l' i' s' u Hl Hi' Hu. rewrite Hheap in Hl.
      apply lookup_replaced_level in Hl as [(-> & -> & _)|[_ Hl]];
        [|by eapply IH]. simpl in Hi'.
      destruct (decide (i' = i)) as [->|Hne].
      * rewrite list_lookup_insert_eq in Hi' by (by eapply lookup_lt_Some).
        injection Hi' as <-. done.
      * rewrite list_lookup_insert_ne in Hi' by done. by eapply IH.
Qed.

Lemma reachable_types_match_witness :
  types_match (after_parkVehicle small_lot car).
Proof.
  apply reachable_types_match.
  apply reachable_after_parkVehicle, reachable_small_lot.
Defined.

Lemma reachable_has_building (w : ParkingLot.t) :
  reachable w ↔ ∃ built, reachable_building built w.
Proof.
  split.
  - induction 1 as [|w floor numSpots _ [built IH]|w level _ [built IH] Hlt
                    |w v b w' _ [built IH] Hpark|w v _ [built IH]].
    + exists []. constructor.
    + exists (built ++ [(floor, numSpots)]). by constructor.
    + exists built. by constructor.
    + exists built. by econstructor.
    + exists built. by constructor.
  - intros [built Hrun].
    induction Hrun as [|built w floor numSpots _ IH|built w level _ IH Hlt
                       |built w v b w' _ IH Hpark|built w v _ IH].
    + constructor.
    + by constructor.
    + by constructor.
    + by econstructor.
    + by constructor.
Qed.

(** A level whose spot at index [i] is replaced keeps its place in the
    heap with its floor and, if the new spot has the number and type of
    the old one, its layout. *)
Lemma as_constructed_replace built w level l i s s' h' :
  as_constructed built w →
  ParkingLot.heap w !! level = Some l →
  Level.parkingSpots l !! i = Some s →
  ParkingSpot.spotNumber s' = ParkingSpot.spotNumber s →
  ParkingSpot.vehicleType s' = ParkingSpot.vehicleType s →
  h' = <[level := Level.mk (Level.floor l)
           (<[i := s']> (Level.parkingSpots l))]> (ParkingLot.heap w) →
  length h' = length built
  ∧ ∀ level' floor numSpots,
      built !! level' = Some (floor, numSpots) →
      ∃ l', h' !! level' = Some l'
            ∧ Level.floor l' = floor
            ∧ layout l' = layout (Level.new floor numSpots).
Proof.
  intros [Hlen Hall] Hh Hi Hn Ht ->. split; [by rewrite length_insert|].
  intros level' floor numSpots Hb.
  destruct (Hall level' floor numSpots Hb) as (l0 & Hl0 & Hfloor & Hlayout).
  destruct (decide (level' = level)) as [->|Hne].
  - assert (l0 = l) as -> by congruence.
    eexists. split.
    + apply list_lookup_insert_eq. by eapply lookup_lt_Some.
    + split; [done|]. by rewrite (layout_replace l i s).
  - exists l0. by rewrite list_lookup_insert_ne.
Qed.

(** X3: no call adds, removes, renumbers or retypes a spot or changes a
    floor.  Every reachable state is reached by a run that built its
    level objects with some arguments; and after any run, whatever the
    calls of [addLevel], [parkVehicle] and [unparkVehicle] were, the
    level object built by [new Level(floor, numSpots)] has the floor
    [floor] and the spot numbers and types, in order, of a fresh
    [new Level(floor, numSpots)]. *)
Theorem reachable_as_constructed (w : ParkingLot.t) :
  (reachable w ↔ ∃ built, reachable_building built w)
  ∧ ∀ built, reachable_building built w → as_constructed built w.
Proof.
  split; [apply reachable_has_building|].
  intros built Hrun.
  induction Hrun as [|built w floor numSpots _ IH|built w level _ IH Hlt
                     |built w v b w' _ IH Hpark|built w v _ IH].
  - split; [done|]. intros level floor numSpots Hb. done.
  - destruct IH as [Hlen Hall]. split.
    + simpl. rewrite !length_app. simpl. lia.
    + intros level floor' numSpots' Hb. simpl.
      apply lookup_app_Some in Hb as [Hb|[Hge Hb]].
      * destruct (Hall level floor' numSpots' Hb) as (l & Hl & Hrest).
        exists l. split; [|done]. by apply lookup_app_l_Some.
      * destruct (level - length built)%nat as [|n] eqn:Hn; [|done].
        simpl in Hb. injection Hb as <- <-.
        exists (Level.new floor numSpots). split; [|done].
        rewrite lookup_app_r by lia.
        replace (level - length (ParkingLot.heap w))%nat with 0%nat by lia.
        done.
  - exact IH.
  - destruct (parkVehicle_result _ _ _ _ Hpark)
      as [_ [[_ Hheap]|(_ & level & l & i & s & _ & Hh & Hi & Hf & Hheap)]].
    + unfold as_constructed. by rewrite Hheap.
    + by apply (as_constructed_replace built w level l i s (occupied_by v s)).
  - destruct (unparkVehicle_effect w v)
      as [_ [Hheap|(level & l & i & s & _ & Hh & Hi & Hheap)]].
    + unfold as_constructed. by rewrite Hheap.
    + by apply (as_constructed_replace built w level l i s
                  (ParkingSpot.unparkVehicle s)).
Qed.

Lemma reachable_as_constructed_witness :
  as_constructed [(1, 10)] (after_parkVehicle small_lot car).
Proof.
  apply (proj2 (reachable_as_constructed (after_parkVehicle small_lot car))).
  apply (building_parkVehicle [(1, 10)] small_lot car true).
  - apply (building_addLevel [(1, 10)]
             (ParkingLot.new_Level 1 10 ParkingLot.new).2 0%nat).
    + apply (building_new_Level [] ParkingLot.new 1 10), building_new.
    + simpl. lia.
  - vm_compute. reflexivity.
Defined.

(** *** Parking and unparking again *)

Lemma not_parked_not_in_level w v level :
  ¬ is_parked w v → level ∈ ParkingLot.levels w →
  not_in_level (ParkingLot.heap w) v level.
Proof.
  intros Hnot Hin l i s Hl Hi.
  destruct (ParkingSpot.holds s v) eqn:Hh; [|done].
  destruct Hnot. exists level, i. split; [done|]. exists s. split; [|done].
  unfold ParkingLot.spotAt. by rewrite Hl.
Qed.

Lemma unpark_occupied_by v s :
  ParkingSpot.isAvailable s = true →
  ParkingSpot.unparkVehicle (occupied_by v s) = s.
Proof.
  destruct s as [n t p]. unfold ParkingSpot.isAvailable. simpl.
  by destruct p.
Qed.

(** X4: parking a vehicle that is not parked and unparking it at once
    gives back the levels as they were: [unparkVehicle] returns what
    [parkVehicle] returned, and every spot is as before the two calls. *)
Theorem park_then_unpark (w : ParkingLot.t) (v : Vehicle) b w1 :
  ¬ is_parked w v →
  ParkingLot.parkVehicle w v = Ok (b, w1) →
  ParkingLot.unparkVehicle w1 v
  = (b, ParkingLot.mk (ParkingLot.heap w) (ParkingLot.levels w)
          (ParkingLot.console w1)).
Proof.
  intros Hnot.
  destruct (first_free_level_or_none (ParkingLot.levels w) v (ParkingLot.heap w))
    as [Hn|(k & level & l & i & s & Hk & Hb & Hh & Hi & Hf & Hfirst)].
  - rewrite (lot_parkVehicle_none _ _ Hn). intros [= <- <-].
    apply lot_unparkVehicle_none. simpl.
    intros level Hin. by apply not_parked_not_in_level.
  - rewrite (lot_parkVehicle_first _ _ _ _ _ _ _ Hk Hb Hh Hi Hf Hfirst).
    intros [= <- <-].
    set (l1 := Level.mk (Level.floor l)
                 (<[i := occupied_by v s]> (Level.parkingSpots l))).
    assert (level < length (ParkingLot.heap w))%nat as Hlt
      by (by eapply lookup_lt_Some).
    assert (i < length (Level.parkingSpots l))%nat as Hilt
      by (by eapply lookup_lt_Some).
    rewrite (lot_unparkVehicle_first _ v k level l1 i (occupied_by v s)); simpl.
    + f_equal. f_equal.
      rewrite list_insert_insert_eq.
      rewrite list_insert_insert_eq.
      rewrite unpark_occupied_by by apply Hf.
      rewrite (list_insert_id (Level.parkingSpots l)) by done.
      rewrite level_rebuild. by apply list_insert_id.
    + done.
    + intros k' level' Hlt' Hl' l' j s' Hl'' Hj.
      assert (level' ≠ level) as Hne.
      { intros ->. by destruct (Hb k' level Hlt' Hl' l i s Hh Hi). }
      rewrite list_lookup_insert_ne in Hl'' by done.
      eapply (not_parked_not_in_level w v level'); try done.
      by eapply list_elem_of_lookup_2.
    + by apply list_lookup_insert_eq.
    + by apply list_lookup_insert_eq.
    + unfold ParkingSpot.holds, same_vehicle. simpl. apply Nat.eqb_refl.
    + intros j s' Hj Hs'.
      rewrite list_lookup_insert_ne in Hs' by lia.
      eapply (not_parked_not_in_level w v level); try done.
      by eapply list_elem_of_lookup_2.
Qed.

Lemma park_then_unpark_witness :
  ParkingLot.unparkVehicle (after_parkVehicle small_lot car) car
  = (true, ParkingLot.mk (ParkingLot.heap small_lot) (ParkingLot.levels small_lot)
             (ParkingLot.console (after_parkVehicle small_lot car))).
Proof.
  apply (park_then_unpark small_lot car true).
  - apply small_lot_not_parked.
  - vm_compute. reflexivity.
Defined.

(** X5: in a state where no vehicle is held by two spots, a vehicle is
    parked nowhere in the lot after [unparkVehicle] was called for it. *)
Theorem unparkVehicle_leaves_not_parked (w : ParkingLot.t) (v : Vehicle) :
  at_most_one_spot w → ¬ is_parked (ParkingLot.unparkVehicle w v).2 v.
Proof.
  intros Hone (level' & i' & Hin' & Hocc).
  destruct (first_holder_level_or_none (ParkingLot.levels w) v (ParkingLot.heap w))
    as [Hn|(k & level & l & i & s & Hk & Hb & Hh & Hi & Hf & Hfirst)].
  - rewrite (lot_unparkVehicle_none _ _ Hn) in Hin', Hocc. simpl in *.
    destruct Hocc as (s & Hs & Hv). unfold ParkingLot.spotAt in Hs.
    destruct (ParkingLot.heap w !! level') as [l|] eqn:Hl; [|done].
    simpl in Hs. rewrite (Hn level' Hin' l i' s Hl Hs) in Hv. done.
  - rewrite (lot_unparkVehicle_first _ _ _ _ _ _ _ Hk Hb Hh Hi Hf Hfirst)
      in Hin', Hocc. simpl in *.
    assert (occupies w v level i) as Hocc0.
    { exists s. split; [|done]. unfold ParkingLot.spotAt. by rewrite Hh. }
    assert (occupies w v level' i') as Hocc1.
    { eapply (occupies_after_unpark w _ level l i s v level' i' Hh Hi);
        [|exact Hocc]. reflexivity. }
    destruct (Hone v _ _ _ _ Hocc0 Hocc1) as [<- <-].
    destruct Hocc as (s' & Hs' & Hv').
    rewrite (spotAt_replaced _ _ _ _ _ _ _ _ Hh Hi) in Hs'.
    injection Hs' as <-. done.
Qed.

Lemma unparkVehicle_leaves_not_parked_witness :
  ¬ is_parked (ParkingLot.unparkVehicle (after_parkVehicle small_lot car) car).2 car.
Proof.
  apply unparkVehicle_leaves_not_parked.
  apply (invariant_parkVehicle small_lot car true).
  - apply small_lot_not_parked.
  - vm_compute. reflexivity.
  - apply (invariant_addLevel (ParkingLot.new_Level 1 10 ParkingLot.new).2 0%nat).
    apply (invariant_new_Level ParkingLot.new 1 10), invariant_new.
Defined.

End ParkingMoreFacts.

(** ** Further properties of [topKFrequent] *)

Module TopKMoreFacts.
Import TopK TopKOrder TopKFacts.

Lemma Map_set_keys_old m key value :
  key ∈ m.*1 → (Map_set m key value).*1 = m.*1.
Proof.
  induction m as [|[k v] rest IH]; intros Hin.
  - by apply elem_of_nil in Hin.
  - simpl. destruct (decide (k = key)) as [->|Hk]; [done|]. simpl.
    apply elem_of_cons in Hin as [->|Hin]; [done|]. f_equal. by apply IH.
Qed.

Lemma Map_set_keys_new m key value :
  key ∉ m.*1 → (Map_set m key value).*1 = m.*1 ++ [key].
Proof.
  induction m as [|[k v] rest IH]; intros Hnin; [done|].
  simpl. destruct (decide (k = key)) as [->|Hk].
  - destruct Hnin. left.
  - simpl. f_equal. apply IH. intros Hin. apply Hnin. by right.
Qed.

Lemma first_occurrences_elem words w :
  w ∈ first_occurrences words ↔ w ∈ words.
Proof.
  induction words as [|x rest IH]; simpl; [done|].
  rewrite !elem_of_cons, list_elem_of_filter, IH.
  destruct (decide (w = x)); tauto.
Qed.

Lemma first_occurrences_snoc_old words x :
  x ∈ words → first_occurrences (words ++ [x]) = first_occurrences words.
Proof.
  induction words as [|w rest IH]; intros Hin.
  - by apply elem_of_nil in Hin.
  - simpl. destruct (decide (x ∈ rest)) as [Hr|Hr]; [by rewrite IH|].
    apply elem_of_cons in Hin as [->|Hin]; [|done].
    assert (first_occurrences (rest ++ [w]) = first_occurrences rest ++ [w])
      as ->.
    { clear IH. induction rest as [|y rest IH]; [done|]. simpl.
      assert (w ≠ y) by (intros ->; apply Hr; left).
      rewrite IH by (intros ?; apply Hr; by right).
      rewrite filter_app, filter_cons_True by done. done. }
    rewrite filter_app, filter_cons_False by (intros H; by apply H).
    by rewrite filter_nil, app_nil_r.
Qed.

Lemma first_occurrences_snoc_new words x :
  x ∉ words → first_occurrences (words ++ [x]) = first_occurrences words ++ [x].
Proof.
  induction words as [|w rest IH]; intros Hnin; [done|]. simpl.
  assert (x ≠ w) by (intros ->; apply Hnin; left).
  rewrite IH by (intros ?; apply Hnin; by right).
  rewrite filter_app, filter_cons_True by done. done.
Qed.

Lemma get_or_0_cons k v rest key :
  get_or_0 ((k, v) :: rest) key
  = if decide (k = key) then v else get_or_0 rest key.
Proof.
  unfold get_or_0. simpl. destruct (decide (k = key)); [|done].
  by destruct (Z.eqb_spec v 0).
Qed.

Lemma total_count_cons k v rest :
  total_count ((k, v) :: rest) = v + total_count rest.
Proof. done. Qed.

Lemma Map_set_total m key :
  total_count (Map_set m key (get_or_0 m key + 1)) = total_count m + 1.
Proof.
  induction m as [|[k v] rest IH]; [done|].
  rewrite get_or_0_cons. cbn [Map_set].
  destruct (decide (k = key)) as [->|Hk].
  - rewrite !total_count_cons. lia.
  - rewrite !total_count_cons, IH. lia.
Qed.

Lemma getFrequencies_keys words :
  (getFrequencies words).*1 = first_occurrences words.
Proof.
  induction words as [|x pre IH] using rev_ind; [done|].
  unfold getFrequencies in *. rewrite fold_left_app. simpl.
  destruct (decide (x ∈ pre)) as [Hin|Hnin].
  - rewrite Map_set_keys_old, first_occurrences_snoc_old; try done.
    rewrite IH. by apply first_occurrences_elem.
  - rewrite Map_set_keys_new, first_occurrences_snoc_new, IH; try done.
    rewrite IH. by rewrite first_occurrences_elem.
Qed.

(** X6: [getFrequencies] yields one entry per distinct word, in the order
    in which the words first occur; the value of a word is the number of
    its occurrences, and the values add up to the length of the list. *)
Theorem getFrequencies_counts words :
  (getFrequencies words).*1 = first_occurrences words
  ∧ (∀ w c, (w, c) ∈ getFrequencies words ↔ w ∈ words ∧ c = frequency words w)
  ∧ total_count (getFrequencies words) = Z.of_nat (length words).
Proof.
  split_and!.
  - apply getFrequencies_keys.
  - apply getFrequencies_elem.
  - induction words as [|x pre IH] using rev_ind; [done|].
    unfold getFrequencies in *. rewrite fold_left_app. simpl.
    rewrite Map_set_total, IH, length_app. simpl. lia.
Qed.

(** *** The order of the comparator *)

Section Sorted.
Context (localeCompare : string → string → Z).
Hypothesis Hcoll : collation localeCompare.

#[local] Instance comes_first_total : Total (comes_first localeCompare).
Proof.
  intros a b. apply (proj1 (compareFunc_total_preorder localeCompare Hcoll)).
Qed.

#[local] Instance comes_first_trans : Transitive (comes_first localeCompare).
Proof.
  intros a b c. apply (proj2 (compareFunc_total_preorder localeCompare Hcoll)).
Qed.

#[local] Instance comes_first_antisymm : AntiSymm (=) (comes_first localeCompare).
Proof.
  intros [w1 c1] [w2 c2]. unfold comes_first, compareFunc. simpl.
  destruct Hcoll as (Hzero & _ & Hanti & _).
  destruct (Z.eqb_spec c1 c2) as [->|Hne]; simpl.
  - rewrite Z.eqb_refl. simpl. intros H1 H2.
    assert (localeCompare w1 w2 = 0) as Hz.
    { destruct (Z_lt_le_dec (localeCompare w1 w2) 0) as [Hlt|Hge]; [|lia].
      apply Hanti in Hlt. lia. }
    by rewrite (Hzero _ _ Hz).
  - destruct (Z.eqb_spec c2 c1) as [->|_]; [done|]. simpl. lia.
Qed.

Lemma sorted_entries_sorted words :
  sorted_entries localeCompare words ≡ₚ getFrequencies words
  ∧ StronglySorted (comes_first localeCompare)
      (sorted_entries localeCompare words).
Proof.
  unfold sorted_entries. split.
  - apply merge_sort_Permutation.
  - apply StronglySorted_merge_sort; apply _.
Qed.

Lemma sorted_entries_unique words (l : list entry) :
  l ≡ₚ getFrequencies words →
  StronglySorted (comes_first localeCompare) l →
  l = sorted_entries localeCompare words.
Proof.
  intros Hperm Hsorted.
  destruct (sorted_entries_sorted words) as [Hperm' Hsorted'].
  apply (StronglySorted_unique (comes_first localeCompare)); [done..|].
  by rewrite Hperm, Hperm'.
Qed.

Lemma compareFunc_negative (a b : entry) :
  compareFunc localeCompare a b < 0
  ↔ b.2 < a.2 ∨ (a.2 = b.2 ∧ localeCompare a.1 b.1 < 0).
Proof.
  unfold compareFunc.
  destruct (Z.eqb_spec a.2 b.2) as [Heq|Hne]; simpl; lia.
Qed.

Lemma compareFunc_flip (a b : entry) :
  0 < compareFunc localeCompare a b ↔ compareFunc localeCompare b a < 0.
Proof.
  destruct Hcoll as (_ & _ & Hanti & _). unfold compareFunc.
  destruct (Z.eqb_spec a.2 b.2) as [Heq|Hne];
    destruct (Z.eqb_spec b.2 a.2) as [Heq'|Hne']; simpl; try lia.
  apply Hanti.
Qed.

Lemma compareFunc_same (a : entry) : compareFunc localeCompare a a = 0.
Proof.
  destruct Hcoll as (_ & Hrefl & _). unfold compareFunc.
  rewrite Z.eqb_refl. simpl. apply Hrefl.
Qed.

End Sorted.

(** X7: [compareFunc] is the comparator of a strict total order on the
    entries, for every collation that is one on the words.  It is
    negative exactly when the first entry has the greater count or, with
    equal counts, the word that [localeCompare] puts first; it is zero
    for equal entries only; swapping the arguments swaps the sign; and
    "not after" is transitive.  So the entries of a frequency map have
    exactly one arrangement in the order of the comparator, the one a
    priority queue on [compareFunc] is to hand out. *)
Theorem compareFunc_orders_entries
    (localeCompare : string → string → Z) (words : list string) :
  collation localeCompare →
  (∀ a b : entry,
     compareFunc localeCompare a b < 0
     ↔ b.2 < a.2 ∨ (a.2 = b.2 ∧ localeCompare a.1 b.1 < 0))
  ∧ (∀ a b : entry, compareFunc localeCompare a b = 0 ↔ a = b)
  ∧ (∀ a b : entry,
       0 < compareFunc localeCompare a b ↔ compareFunc localeCompare b a < 0)
  ∧ (∀ a b c : entry,
       compareFunc localeCompare a b ≤ 0 → compareFunc localeCompare b c ≤ 0 →
       compareFunc localeCompare a c ≤ 0)
  ∧ sorted_entries localeCompare words ≡ₚ getFrequencies words
  ∧ StronglySorted (comes_first localeCompare)
      (sorted_entries localeCompare words)
  ∧ (∀ l, l ≡ₚ getFrequencies words →
          StronglySorted (comes_first localeCompare) l →
          l = sorted_entries localeCompare words).
Proof.
  intros Hcoll. split_and!.
  - apply compareFunc_negative.
  - intros a b. split.
    + by apply compareFunc_zero.
    + intros ->. by apply compareFunc_same.
  - by apply compareFunc_flip.
  - apply (proj2 (compareFunc_total_preorder localeCompare Hcoll)).
  - by apply sorted_entries_sorted.
  - by apply sorted_entries_sorted.
  - intros l. by apply sorted_entries_unique.
Qed.

Lemma compareFunc_orders_entries_witness :
  sorted_entries codeCompare words2
  = [("the", 4); ("is", 3); ("sunny", 2); ("day", 1)]
  ∧ ∀ l, l ≡ₚ getFrequencies words2 →
         StronglySorted (comes_first codeCompare) l →
         l = [("the", 4); ("is", 3); ("sunny", 2); ("day", 1)].
Proof.
  split; [reflexivity|].
  apply (compareFunc_orders_entries codeCompare words2 codeCompare_collation).
Defined.

(** X8: what [topKFrequent] does on every input.  The empty word list
    gives the empty result, with either release of the package.  On a
    list that is not empty, a release 6.x throws an [Error] at the
    constructor, whatever [k] is; a release 5.x returns the empty result
    for a [k] that is not positive and throws a [TypeError] in the first
    round of the loop for every positive [k].  So no call returns a
    word. *)
Theorem topKFrequent_edges
    (localeCompare : string → string → Z) `{PQ : PriorityQueue entry}
    (library : release) (words : list string) (k : Z) :
  topKFrequent localeCompare library [] k = JS.Ok []
  ∧ (words ≠ [] →
     (∃ message,
        topKFrequent localeCompare release_6 words k
        = JS.Throw (JS.Error message))
     ∧ (k ≤ 0 → topKFrequent localeCompare release_5 words k = JS.Ok [])
     ∧ (0 < k →
        ∃ message,
          topKFrequent localeCompare release_5 words k
          = JS.Throw (JS.TypeError message)))
  ∧ ∀ result, topKFrequent localeCompare library words k = JS.Ok result →
              result = [].
Proof.
  assert (Hcases : words ≠ [] →
     (∃ message,
        topKFrequent localeCompare release_6 words k
        = JS.Throw (JS.Error message))
     ∧ (k ≤ 0 → topKFrequent localeCompare release_5 words k = JS.Ok [])
     ∧ (0 < k →
        ∃ message,
          topKFrequent localeCompare release_5 words k
          = JS.Throw (JS.TypeError message))).
  { intros Hne. split_and!.
    - by apply topKFrequent_release_6.
    - intros Hk. destruct words as [|w rest]; [done|].
      unfold topKFrequent, new_PriorityQueue_of_options.
      by replace (Z.to_nat k) with 0%nat by lia.
    - intros Hk. by apply topKFrequent_release_5. }
  split_and!; [done | done |].
  intros result Hres.
  destruct (decide (words = [])) as [->|Hne].
  { simpl in Hres. by injection Hres. }
  destruct (Hcases Hne) as ((m6 & H6) & H5 & H5').
  destruct library.
  - destruct (decide (k ≤ 0)) as [Hk|Hk].
    + rewrite (H5 Hk) in Hres. by injection Hres.
    + destruct H5' as (m5 & H5'); [lia|]. by rewrite H5' in Hres.
  - by rewrite H6 in Hres.
Qed.

Lemma topKFrequent_edges_witness :
  (∃ message,
     topKFrequent codeCompare (PQ := list_queue entry) release_6 words1 0
     = JS.Throw (JS.Error message))
  ∧ topKFrequent codeCompare (PQ := list_queue entry) release_5 words1 0
    = JS.Ok []
  ∧ ∃ message,
      topKFrequent codeCompare (PQ := list_queue entry) release_5 words3 1
      = JS.Throw (JS.TypeError message).
Proof.
  destruct (topKFrequent_edges codeCompare (PQ := list_queue entry)
              release_5 words1 0) as (_ & H0 & _).
  destruct (topKFrequent_edges codeCompare (PQ := list_queue entry)
              release_5 words3 1) as (_ & H1 & _).
  destruct H0 as (H6 & H5 & _); [discriminate|].
  destruct H1 as (_ & _ & H5'); [discriminate|].
  split; [exact H6|]. split; [apply H5; lia | apply H5'; lia].
Defined.

End TopKMoreFacts.

(** ** Further properties of the observer example *)

Module ObserverMoreFacts.
Import JS Observer ObserverFacts.

Lemma detach_not_attached (this : Subject) (observer : nat) :
  observer ∉ observers this → detach this observer = this.
Proof.
  intros Hnot. destruct this as [obs]. unfold detach. simpl in *. f_equal.
  induction obs as [|x rest IH]; [done|].
  rewrite filter_cons_True by (intros ->; apply Hnot; left).
  f_equal. apply IH. intros Hin. apply Hnot. by right.
Qed.

Lemma detach_attach (this : Subject) (observer : nat) :
  detach (attach this observer) observer = detach this observer.
Proof.
  unfold detach, attach. simpl. f_equal. rewrite filter_app.
  rewrite filter_cons_False by (intros H; by apply H).
  by rewrite filter_nil, app_nil_r.
Qed.

(** X9: [detach] removes every occurrence of the observer and keeps the
    others in their order: the observers left are what remains of the
    array when entries are struck out, none of them is the observer, and
    every other observer is there as often as before.  It changes
    nothing when the observer is not attached, and it undoes any number
    of [attach] calls for that observer. *)
Theorem detach_removes_all (this : Subject) (observer : nat) :
  (observer ∉ observers (detach this observer))
  ∧ observers (detach this observer) `sublist_of` observers this
  ∧ (∀ o, o ≠ observer →
          filter (λ x, x = o) (observers (detach this observer))
          = filter (λ x, x = o) (observers this))
  ∧ (∀ before after,
       observers this = before ++ after →
       observers (detach this observer)
       = observers (detach (mkSubject before) observer)
         ++ observers (detach (mkSubject after) observer))
  ∧ (observer ∉ observers this → detach this observer = this)
  ∧ detach (attach (attach this observer) observer) observer
    = detach this observer
  ∧ (observer ∉ observers this → detach (attach this observer) observer = this).
Proof.
  split_and!.
  - unfold detach. simpl. rewrite list_elem_of_filter. by intros [? _].
  - unfold detach. simpl. apply sublist_filter.
  - intros o Ho. unfold detach. simpl.
    induction (observers this) as [|x rest IH]; [done|].
    destruct (decide (x = observer)) as [->|Hx].
    + rewrite (filter_cons_False (λ o0, o0 ≠ observer)) by (intros H; by apply H).
      rewrite (filter_cons_False (λ x, x = o)) by done. done.
    + rewrite (filter_cons_True (λ o0, o0 ≠ observer)) by done.
      destruct (decide (x = o)) as [->|Hxo].
      * rewrite !(filter_cons_True (λ x, x = o)) by done. by rewrite IH.
      * rewrite !(filter_cons_False (λ x, x = o)) by done. done.
  - intros before after Hsplit. unfold detach. simpl.
    by rewrite Hsplit, filter_app.
  - apply detach_not_attached.
  - by rewrite !detach_attach.
  - intros Hnot. rewrite detach_attach. by apply detach_not_attached.
Qed.

Lemma detach_removes_all_witness :
  detach subject 3%nat = subject
  ∧ detach (attach subject 3%nat) 3%nat = subject.
Proof.
  assert (3%nat ∉ observers subject) as Hnot.
  { intros Hin. vm_compute in Hin.
    apply elem_of_cons in Hin as [Hin|Hin]; [discriminate|].
    apply elem_of_cons in Hin as [Hin|Hin]; [discriminate|].
    by apply elem_of_nil in Hin. }
  destruct (detach_removes_all subject 3%nat)
    as (_ & _ & _ & _ & Hsame & _ & Hundo).
  split; [by apply Hsame | by apply Hundo].
Defined.

(** X10: what [notify] does depends on whether a scope around the class
    binds [data], not on its argument.  With no observer attached it
    completes without a call.  With an observer attached and [data]
    unbound it throws before any [update] is called.  With [data] bound to
    [d], every attached observer is updated once, in attachment order,
    with [d]. *)
Theorem notify_cases (outer : scope) (this : Subject) (arg : value) :
  (observers this = [] → notify outer this arg = ([], None))
  ∧ (∀ e, resolve "data" outer = Throw e → observers this ≠ [] →
          notify outer this arg = ([], Some e))
  ∧ (∀ d, resolve "data" outer = Ok d →
          notify outer this arg
          = ((λ o, Update o d) <$> observers this, None)).
Proof.
  split_and!.
  - intros Hnil. unfold notify. by rewrite Hnil.
  - intros e He Hne. destruct (observers this) as [|o rest] eqn:Ho; [done|].
    by apply (notify_unbound outer this arg e o rest).
  - intros d Hd. unfold notify.
    by rewrite (forEach_update_bound _ outer arg d []).
Qed.

Lemma notify_cases_witness :
  notify (("data", Str "shared") :: module_scope) subject (Str "Something changed!")
  = ([Update observer1 (Str "shared"); Update observer2 (Str "shared")], None).
Proof.
  apply (proj2 (proj2 (notify_cases (("data", Str "shared") :: module_scope)
                         subject (Str "Something changed!")))).
  reflexivity.
Defined.

End ObserverMoreFacts.

(** ** Further properties of [getSpecialString] *)

Module SpecialStringMoreFacts.
Import JS SpecialString SpecialStringSteps.

(** *** Characters and codes *)

Lemma code_inj (a b : ascii) : nat_of_ascii a = nat_of_ascii b → a = b.
Proof.
  intros H. rewrite <- (ascii_nat_embedding a), <- (ascii_nat_embedding b).
  by rewrite H.
Qed.

Lemma code_of_nat n : (n < 256)%nat → nat_of_ascii (ascii_of_nat n) = n.
Proof. apply nat_ascii_embedding. Qed.

Lemma eqb_false_iff (a b : ascii) : Ascii.eqb a b = false ↔ a ≠ b.
Proof. apply Ascii.eqb_neq. Qed.

Lemma differs_spec nextChar chars j :
  differs nextChar chars j = true ↔ chars !! j ≠ Some nextChar.
Proof.
  unfold differs. destruct (chars !! j) as [c|]; [|done].
  rewrite negb_true_iff, Ascii.eqb_neq. split.
  - intros H [= ->]. by apply H.
  - intros H ->. by apply H.
Qed.

Lemma least_after_differs prev : prev ≠ Some (least_after prev).
Proof.
  destruct prev as [c|]; [|done]. unfold least_after.
  destruct (Ascii.eqb "a" c) eqn:He.
  - apply Ascii.eqb_eq in He as <-. done.
  - apply Ascii.eqb_neq in He. intros [= Hc]. by apply He.
Qed.

Lemma least_after_lowercase prev :
  (97 ≤ nat_of_ascii (least_after prev) ≤ 122)%nat.
Proof.
  unfold least_after.
  destruct prev as [c|]; [destruct (Ascii.eqb "a" c)|];
    [change (nat_of_ascii "b") with 98%nat
    |change (nat_of_ascii "a") with 97%nat
    |change (nat_of_ascii "a") with 97%nat]; lia.
Qed.

(** *** [fillRest] *)

(** The inner loop of [fillRest] stops at [a] or at [b]. *)
Lemma fillRest_codes_97 chars i :
  fillRest_codes (codes_from 97) chars i
  = (true, <[i := least_after (prev_at chars i)]> chars).
Proof.
  destruct i as [|j]; [done|].
  change (codes_from 97) with (97 :: 98 :: seq 99 24)%nat.
  cbn [fillRest_codes]. replace (S j - 1)%nat with j by lia.
  cbn [Nat.eqb orb prev_at least_after]. unfold differs.
  change (fromCharCode 97) with "a"%char.
  change (fromCharCode 98) with "b"%char.
  destruct (chars !! j) as [c|]; [|done]. unfold least_after.
  destruct (Ascii.eqb "a" c) eqn:He; [|done]. cbn [negb].
  apply Ascii.eqb_eq in He as <-. done.
Qed.

Lemma fillRest_positions_spec count start chars :
  (start + count ≤ length chars)%nat →
  fillRest_positions (seq start count) chars
  = (true, take start chars ++ fill (prev_at chars start) count
           ++ drop (start + count) chars).
Proof.
  revert start chars; induction count as [|c IH]; intros start chars Hlen.
  - simpl. rewrite Nat.add_0_r. by rewrite take_drop.
  - cbn [seq fillRest_positions]. rewrite fillRest_codes_97.
    set (x := least_after (prev_at chars start)).
    rewrite IH by (rewrite length_insert; lia).
    f_equal. cbn [fill]. fold x.
    assert (start < length chars)%nat as Hs by lia.
    rewrite (take_S_r (<[start:=x]> chars) start x)
      by (by apply list_lookup_insert_eq).
    rewrite take_insert_ge by lia.
    cbn [prev_at]. rewrite list_lookup_insert_eq by done.
    rewrite drop_insert_lt by lia.
    rewrite <- app_assoc. simpl.
    by replace (S (start + c))%nat with (start + S c)%nat by lia.
Qed.

(** [fillRest] never fails. *)
Lemma fillRest_spec chars start :
  (start ≤ length chars)%nat →
  fillRest chars start
  = (true, take start chars
           ++ fill (prev_at chars start) (length chars - start)).
Proof.
  intros Hs. unfold fillRest.
  rewrite fillRest_positions_spec by lia.
  replace (start + (length chars - start))%nat with (length chars) by lia.
  by rewrite drop_all, app_nil_r.
Qed.

(** *** The search *)

(** The string built when position [index] is raised to [x]. *)
Lemma raised_fill chars index x :
  (index < length chars)%nat →
  fillRest (<[index := x]> chars) (index + 1)
  = (true, take index chars ++ x :: fill (Some x) (length chars - index - 1)).
Proof.
  intros Hi. rewrite fillRest_spec by (rewrite length_insert; lia).
  rewrite length_insert. f_equal.
  replace (index + 1)%nat with (S index) by lia.
  rewrite (take_S_r (<[index:=x]> chars) index x)
    by (by apply list_lookup_insert_eq).
  rewrite take_insert_ge by lia. cbn [prev_at].
  rewrite list_lookup_insert_eq by done.
  rewrite <- app_assoc. simpl.
  by replace (length chars - S index)%nat with (length chars - index - 1)%nat
    by lia.
Qed.

Lemma try_condition chars index x :
  (index =? 0)%nat || differs x chars (index - 1) = true
  ↔ prev_at chars index ≠ Some x.
Proof.
  destruct index as [|j]; [done|]. cbn [Nat.eqb orb prev_at].
  replace (S j - 1)%nat with j by lia. apply differs_spec.
Qed.

Lemma try_codes_hit code rest chars index :
  (index < length chars)%nat →
  prev_at chars index ≠ Some (fromCharCode code) →
  try_codes (code :: rest) chars index
  = (Some (join (take index chars ++ fromCharCode code
                 :: fill (Some (fromCharCode code)) (length chars - index - 1))),
     take index chars ++ fromCharCode code
       :: fill (Some (fromCharCode code)) (length chars - index - 1)).
Proof.
  intros Hi Hc. cbn [try_codes].
  rewrite (proj2 (try_condition chars index (fromCharCode code)) Hc).
  by rewrite raised_fill.
Qed.

Lemma try_codes_miss code rest chars index :
  prev_at chars index = Some (fromCharCode code) →
  try_codes (code :: rest) chars index = try_codes rest chars index.
Proof.
  intros Hc. cbn [try_codes].
  destruct ((index =? 0)%nat || differs (fromCharCode code) chars (index - 1))
    eqn:He; [|done].
  apply try_condition in He. done.
Qed.

Lemma ascii_of_nat_inj n m :
  (n < 256)%nat → (m < 256)%nat → ascii_of_nat n = ascii_of_nat m → n = m.
Proof.
  intros Hn Hm H. rewrite <- (code_of_nat n Hn), <- (code_of_nat m Hm).
  by rewrite H.
Qed.

(** The inner loop of [getSpecialString] finds the least admissible letter
    after the current one, and the refill behind it always succeeds. *)
Lemma try_codes_spec chars index c :
  (index < length chars)%nat →
  try_codes (codes_from (charCodeAt0 c + 1)) chars index
  = match next_char (prev_at chars index) c with
    | Some x =>
        (Some (join (take index chars
                     ++ x :: fill (Some x) (length chars - index - 1))),
         take index chars ++ x :: fill (Some x) (length chars - index - 1))
    | None => (None, chars)
    end.
Proof.
  intros Hi. unfold next_char, codes_from, charCodeAt0.
  set (code := nat_of_ascii c).
  destruct (Nat.leb_spec 122 code) as [H122|H122].
  - by replace (123 - (code + 1))%nat with 0%nat by lia.
  - replace (123 - (code + 1))%nat with (S (121 - code)) by lia.
    cbn [seq].
    destruct (bool_decide_reflect (prev_at chars index
                                   = Some (ascii_of_nat (code + 1))))
      as [Hp|Hp].
    + rewrite try_codes_miss by done.
      destruct (Nat.leb_spec 121 code) as [H121|H121].
      * by replace (121 - code)%nat with 0%nat by lia.
      * replace (121 - code)%nat with (S (120 - code)) by lia.
        cbn [seq]. replace (S (code + 1)) with (code + 2)%nat by lia.
        apply try_codes_hit; [done|]. rewrite Hp. intros [= He].
        apply ascii_of_nat_inj in He; lia.
    + by apply try_codes_hit.
Qed.

Lemma try_positions_spec positions chars :
  (∀ p, p ∈ positions → (p < length chars)%nat) →
  try_positions positions chars = Ok (answer_from positions chars).
Proof.
  induction positions as [|index rest IH]; intros Hpos; [done|].
  cbn [try_positions answer_from]. unfold answer_at.
  assert (index < length chars)%nat as Hi by (apply Hpos; left).
  destruct (lookup_lt_is_Some_2 chars index Hi) as [c Hc].
  rewrite Hc. simpl. rewrite try_codes_spec by done.
  destruct (next_char (prev_at chars index) c) as [x|]; simpl; [done|].
  apply IH. intros p Hp. apply Hpos. by right.
Qed.

Lemma length_split s : length (split s) = String.length s.
Proof. unfold split. induction s as [|c s IH]; simpl; [done|]. by rewrite IH. Qed.

(** [getSpecialString] never throws: it raises the rightmost position that
    can be raised. *)
Lemma getSpecialString_spec s :
  getSpecialString s
  = Ok (answer_from (rev (seq 0 (String.length s))) (split s)).
Proof.
  unfold getSpecialString. apply try_positions_spec.
  intros p Hp. rewrite length_split.
  apply list_elem_of_In, in_rev, in_seq in Hp. lia.
Qed.

(** *** Order and adjacency on lists of characters *)

Lemma lex_lt_app pre a b : lex_lt (pre ++ a) (pre ++ b) = lex_lt a b.
Proof.
  induction pre as [|x pre IH]; [done|]. simpl.
  by rewrite Nat.ltb_irrefl, Nat.eqb_refl, IH.
Qed.

Lemma lex_lt_cons_lt x y a b :
  (nat_of_ascii x < nat_of_ascii y)%nat → lex_lt (x :: a) (y :: b) = true.
Proof. intros H. simpl. by rewrite (proj2 (Nat.ltb_lt _ _) H). Qed.

(** Two lists of the same length in strict order agree up to a position
    at which the second has the greater character. *)
Lemma lex_lt_first_difference a b :
  length a = length b → lex_lt a b = true →
  ∃ pre c y a' b',
    a = pre ++ c :: a' ∧ b = pre ++ y :: b'
    ∧ (nat_of_ascii c < nat_of_ascii y)%nat.
Proof.
  revert b; induction a as [|x a IH]; intros [|y b] Hlen Hlt; try done.
  simpl in Hlt. destruct (Nat.ltb_spec (nat_of_ascii x) (nat_of_ascii y))
    as [Hxy|Hxy].
  - by exists [], x, y, a, b.
  - simpl in Hlt. apply andb_true_iff in Hlt as [He Hlt].
    apply Nat.eqb_eq, code_inj in He as ->.
    destruct (IH b) as (pre & c & z & a' & b' & -> & -> & Hc);
      [by injection Hlen|done|].
    by exists (y :: pre), c, z, a', b'.
Qed.

Lemma no_adjacent_cons x y rest :
  no_adjacent_equal (x :: y :: rest)
  = negb (Ascii.eqb x y) && no_adjacent_equal (y :: rest).
Proof. done. Qed.

Lemma no_adjacent_tail x rest :
  no_adjacent_equal (x :: rest) = true → no_adjacent_equal rest = true.
Proof.
  destruct rest as [|y rest]; [done|]. rewrite no_adjacent_cons.
  by intros [_ ?]%andb_true_iff.
Qed.

Lemma no_adjacent_suffix pre rest :
  no_adjacent_equal (pre ++ rest) = true → no_adjacent_equal rest = true.
Proof.
  induction pre as [|x pre IH]; [done|]. intros H. apply IH.
  by apply (no_adjacent_tail x).
Qed.

Lemma no_adjacent_prefix pre rest :
  no_adjacent_equal (pre ++ rest) = true → no_adjacent_equal pre = true.
Proof.
  induction pre as [|x pre IH]; [done|].
  destruct pre as [|y pre]; [done|].
  change ((x :: y :: pre) ++ rest) with (x :: y :: (pre ++ rest)).
  rewrite !no_adjacent_cons. intros [Hxy H]%andb_true_iff.
  rewrite Hxy. simpl. by apply IH.
Qed.

(** The junction of a list without equal neighbours and such a list that
    starts with a character other than the last of the first. *)
Lemma no_adjacent_join pre x rest :
  no_adjacent_equal pre = true →
  last pre ≠ Some x →
  no_adjacent_equal (x :: rest) = true →
  no_adjacent_equal (pre ++ x :: rest) = true.
Proof.
  induction pre as [|y pre IH]; intros Hpre Hlast Hrest; [done|].
  destruct pre as [|z pre].
  - change ([y] ++ x :: rest) with (y :: x :: rest).
    rewrite no_adjacent_cons, Hrest, andb_true_r.
    apply negb_true_iff, Ascii.eqb_neq. intros ->. by apply Hlast.
  - change ((y :: z :: pre) ++ x :: rest) with (y :: z :: (pre ++ x :: rest)).
    rewrite no_adjacent_cons in Hpre |- *.
    apply andb_true_iff in Hpre as [Hyz Hpre]. rewrite Hyz. simpl.
    by apply IH.
Qed.

Lemma no_adjacent_last pre x rest :
  no_adjacent_equal (pre ++ x :: rest) = true → last pre ≠ Some x.
Proof.
  induction pre as [|y pre IH]; [done|]. intros H.
  destruct pre as [|z pre].
  - change ([y] ++ x :: rest) with (y :: x :: rest) in H.
    rewrite no_adjacent_cons in H. apply andb_true_iff in H as [H _].
    apply negb_true_iff, Ascii.eqb_neq in H. simpl. congruence.
  - change (last (z :: pre) ≠ Some x). apply IH.
    by apply (no_adjacent_tail y).
Qed.

Lemma last_take chars p :
  (p ≤ length chars)%nat → last (take p chars) = prev_at chars p.
Proof.
  intros Hp. destruct p as [|j]; [by rewrite take_0|].
  destruct (lookup_lt_is_Some_2 chars j ltac:(lia)) as [c Hc].
  rewrite (take_S_r _ _ _ Hc), last_snoc. done.
Qed.

(** *** The refill is the least one *)

Lemma fill_length prev count : length (fill prev count) = count.
Proof.
  revert prev; induction count as [|c IH]; intros prev; simpl; [done|].
  by rewrite IH.
Qed.

Lemma fill_lowercase prev count : lowercase_chars (fill prev count).
Proof.
  revert prev; induction count as [|c IH]; intros prev; simpl.
  - constructor.
  - constructor; [apply least_after_lowercase|apply IH].
Qed.

Lemma fill_no_adjacent x count :
  no_adjacent_equal (x :: fill (Some x) count) = true.
Proof.
  revert x; induction count as [|c IH]; intros x; [done|].
  cbn [fill]. rewrite no_adjacent_cons, IH, andb_true_r.
  apply negb_true_iff, Ascii.eqb_neq. intros H.
  by apply (least_after_differs (Some x)); rewrite <- H.
Qed.

Lemma least_after_least prev y :
  (97 ≤ nat_of_ascii y)%nat → y ≠ prev →
  (nat_of_ascii (least_after (Some prev)) ≤ nat_of_ascii y)%nat.
Proof.
  intros Hy Hne. unfold least_after.
  destruct (Ascii.eqb "a" prev) eqn:He.
  - apply Ascii.eqb_eq in He as <-.
    change (nat_of_ascii "b") with 98%nat.
    destruct (decide (nat_of_ascii y = 97%nat)) as [H97|H97]; [|lia].
    destruct Hne. by apply code_inj.
  - by change (nat_of_ascii "a") with 97%nat.
Qed.

Lemma fill_minimal prev count v :
  length v = count → lowercase_chars v →
  no_adjacent_equal (prev :: v) = true →
  fill (Some prev) count = v ∨ lex_lt (fill (Some prev) count) v = true.
Proof.
  revert prev v; induction count as [|c IH]; intros prev v Hlen Hlow Hadj.
  - destruct v; [by left|done].
  - destruct v as [|y v]; [done|]. cbn [fill].
    apply Forall_cons in Hlow as [Hy Hlow].
    rewrite no_adjacent_cons in Hadj.
    apply andb_true_iff in Hadj as [Hne Hadj].
    apply negb_true_iff, Ascii.eqb_neq in Hne.
    pose proof (least_after_least prev y ltac:(lia) ltac:(congruence)) as Hle.
    destruct (decide (nat_of_ascii (least_after (Some prev)) = nat_of_ascii y))
      as [Heq|Hlt].
    + apply code_inj in Heq. rewrite Heq.
      destruct (IH y v) as [->|Hlt]; [by injection Hlen|done..| |].
      * by left.
      * right. simpl. by rewrite Nat.ltb_irrefl, Nat.eqb_refl.
    + right. apply lex_lt_cons_lt. lia.
Qed.

(** *** The raised character *)

Lemma next_char_Some prev c x :
  next_char prev c = Some x →
  (nat_of_ascii c < nat_of_ascii x ≤ 122)%nat
  ∧ prev ≠ Some x
  ∧ ∀ y, (nat_of_ascii c < nat_of_ascii y)%nat → prev ≠ Some y →
         (nat_of_ascii x ≤ nat_of_ascii y)%nat.
Proof.
  unfold next_char. set (code := nat_of_ascii c).
  destruct (Nat.leb_spec 122 code) as [H122|H122]; [done|].
  destruct (bool_decide_reflect (prev = Some (ascii_of_nat (code + 1))))
    as [Hp|Hp].
  - destruct (Nat.leb_spec 121 code) as [H121|H121]; [done|].
    intros [= <-]. rewrite code_of_nat by lia. split_and!; try lia.
    + rewrite Hp. intros [= He]. apply ascii_of_nat_inj in He; lia.
    + intros y Hy Hne.
      destruct (decide (nat_of_ascii y = code + 1)%nat) as [Heq|Hneq]; [|lia].
      destruct Hne. rewrite Hp, <- Heq. by rewrite ascii_nat_embedding.
  - intros [= <-]. rewrite code_of_nat by lia. split_and!; try lia. done.
Qed.

Lemma next_char_None prev c y :
  next_char prev c = None →
  (nat_of_ascii c < nat_of_ascii y ≤ 122)%nat → prev = Some y.
Proof.
  unfold next_char. set (code := nat_of_ascii c).
  destruct (Nat.leb_spec 122 code) as [H122|H122]; [lia|].
  destruct (bool_decide_reflect (prev = Some (ascii_of_nat (code + 1))))
    as [Hp|Hp]; [|done].
  destruct (Nat.leb_spec 121 code) as [H121|H121]; [|done].
  intros _ Hy. rewrite Hp. f_equal.
  replace (code + 1)%nat with (nat_of_ascii y) by lia.
  apply ascii_nat_embedding.
Qed.

(** What an answer looks like. *)
Lemma answer_at_Some chars p t :
  answer_at chars p = Some t →
  ∃ c x, chars !! p = Some c
         ∧ next_char (prev_at chars p) c = Some x
         ∧ t = take p chars ++ x :: fill (Some x) (length chars - p - 1).
Proof.
  unfold answer_at. destruct (chars !! p) as [c|]; [|done]. simpl.
  destruct (next_char (prev_at chars p) c) as [x|] eqn:Hx; [|done]. simpl.
  intros [= <-]. by exists c, x.
Qed.

Lemma answer_at_properties chars p t :
  lowercase_chars chars →
  answer_at chars p = Some t →
  length t = length chars
  ∧ lowercase_chars t
  ∧ lex_lt chars t = true
  ∧ (no_adjacent_equal chars = true → no_adjacent_equal t = true).
Proof.
  intros Hlow (c & x & Hc & Hx & ->)%answer_at_Some.
  assert (p < length chars)%nat as Hp by (by eapply lookup_lt_Some).
  destruct (next_char_Some _ _ _ Hx) as (Hcx & Hprev & _).
  assert (chars = take p chars ++ c :: drop (S p) chars) as Hsplit.
  { by rewrite take_drop_middle. }
  split_and!.
  - rewrite length_app, length_take. simpl. rewrite fill_length. lia.
  - apply Forall_app. split.
    + rewrite Hsplit in Hlow. by apply Forall_app in Hlow as [? _].
    + constructor; [|apply fill_lowercase].
      unfold lowercase_chars in Hlow. rewrite Forall_forall in Hlow.
      pose proof (Hlow c (list_elem_of_lookup_2 _ _ _ Hc)). lia.
  - rewrite Hsplit at 1. rewrite lex_lt_app. apply lex_lt_cons_lt. lia.
  - intros Hadj. apply no_adjacent_join.
    + rewrite Hsplit in Hadj. by apply no_adjacent_prefix in Hadj.
    + rewrite last_take by lia. done.
    + apply fill_no_adjacent.
Qed.

(** A candidate shows a position that can be raised, and an answer at that
    position is not above the candidate. *)
Lemma candidate_position chars u :
  length u = length chars → lowercase_chars u →
  lex_lt chars u = true → no_adjacent_equal u = true →
  ∃ q c y t,
    (q < length chars)%nat
    ∧ chars !! q = Some c ∧ u !! q = Some y
    ∧ take q chars = take q u
    ∧ (nat_of_ascii c < nat_of_ascii y)%nat
    ∧ answer_at chars q = Some t
    ∧ (t = u ∨ lex_lt t u = true).
Proof.
  intros Hlen Hlow Hlt Hadj.
  destruct (lex_lt_first_difference chars u (eq_sym Hlen) Hlt)
    as (pre & c & y & a' & v & Hchars & Hu & Hcy).
  set (q := length pre).
  assert (take q chars = pre) as Htc.
  { rewrite Hchars. unfold q. by rewrite take_app_length. }
  assert (take q u = pre) as Htu.
  { rewrite Hu. unfold q. by rewrite take_app_length. }
  assert (chars !! q = Some c) as Hc.
  { rewrite Hchars. by apply list_lookup_middle. }
  assert (u !! q = Some y) as Hy.
  { rewrite Hu. by apply list_lookup_middle. }
  assert (q < length chars)%nat as Hq by (by eapply lookup_lt_Some).
  assert (prev_at chars q = last pre) as Hprev.
  { rewrite <- Htc. symmetry. apply last_take. lia. }
  assert (last pre ≠ Some y) as Hlast.
  { rewrite Hu in Hadj. by eapply no_adjacent_last. }
  assert ((97 ≤ nat_of_ascii y ≤ 122)%nat) as Hylow.
  { unfold lowercase_chars in Hlow. rewrite Forall_forall in Hlow.
    apply Hlow. by eapply list_elem_of_lookup_2. }
  destruct (next_char (prev_at chars q) c) as [x|] eqn:Hx.
  - destruct (next_char_Some _ _ _ Hx) as (Hcx & _ & Hleast).
    pose proof (Hleast y Hcy ltac:(by rewrite Hprev)) as Hxy.
    exists q, c, y,
      (take q chars ++ x :: fill (Some x) (length chars - q - 1)).
    split_and!; try done.
    + congruence.
    + unfold answer_at. rewrite Hc. simpl. by rewrite Hx.
    + rewrite Htc.
      assert (length v = (length chars - q - 1)%nat) as Hv.
      { rewrite Hu, length_app in Hlen. simpl in Hlen. unfold q. lia. }
      assert (lowercase_chars v) as Hvlow.
      { rewrite Hu in Hlow. apply Forall_app in Hlow as [_ Hlow].
        by apply Forall_cons in Hlow as [_ ?]. }
      assert (no_adjacent_equal (y :: v) = true) as Hvadj.
      { rewrite Hu in Hadj. by apply no_adjacent_suffix in Hadj. }
      rewrite Hu, lex_lt_app.
      destruct (decide (nat_of_ascii x = nat_of_ascii y)) as [Heq|Hne].
      * apply code_inj in Heq as ->.
        destruct (fill_minimal y (length chars - q - 1) v Hv Hvlow Hvadj)
          as [Hf|Hf].
        -- left. by rewrite Hf.
        -- right. simpl. by rewrite Nat.ltb_irrefl, Nat.eqb_refl.
      * right. apply lex_lt_cons_lt. lia.
  - exfalso. apply Hlast. rewrite <- Hprev.
    apply (next_char_None _ c y Hx). lia.
Qed.

Lemma prev_at_after (pre rest : list ascii) :
  prev_at (pre ++ rest) (length pre) = last pre.
Proof.
  destruct pre as [|y pre _] using rev_ind; [done|].
  rewrite length_app, last_snoc. simpl.
  replace (length pre + 1)%nat with (S (length pre)) by lia.
  cbn [prev_at]. rewrite <- app_assoc. by apply list_lookup_middle.
Qed.

Lemma fill_chain pre count i :
  (length pre ≤ i < length pre + count)%nat →
  (pre ++ fill (last pre) count) !! i
  = Some (least_after (prev_at (pre ++ fill (last pre) count) i)).
Proof.
  revert pre; induction count as [|c IH]; intros pre Hi; [lia|].
  cbn [fill]. set (x := least_after (last pre)).
  assert (pre ++ x :: fill (Some x) c
          = (pre ++ [x]) ++ fill (last (pre ++ [x])) c) as Hre.
  { by rewrite last_snoc, <- app_assoc. }
  destruct (decide (i = length pre)) as [->|Hne].
  - rewrite prev_at_after. by apply list_lookup_middle.
  - rewrite Hre. apply IH. rewrite length_app. simpl. lia.
Qed.

(** X11: [fillRest] never fails.  For a start index within the array it
    returns [true], keeps the length of the array and the characters before
    the start index, and gives every position from the start index on the
    least lowercase letter that differs from the character to its left
    (the letter [a] at position 0). *)
Theorem fillRest_fills (chars : list ascii) (startIndex : nat) :
  (startIndex ≤ length chars)%nat →
  ∃ chars',
    fillRest chars startIndex = (true, chars')
    ∧ length chars' = length chars
    ∧ take startIndex chars' = take startIndex chars
    ∧ ∀ i, (startIndex ≤ i < length chars)%nat →
           chars' !! i = Some (least_after (prev_at chars' i)).
Proof.
  intros Hs. rewrite fillRest_spec by done. eexists. split; [done|].
  assert (length (take startIndex chars) = startIndex) as Hlen
    by (rewrite length_take; lia).
  split_and!.
  - rewrite length_app, fill_length, Hlen. lia.
  - rewrite take_app_le by lia. rewrite take_take. f_equal. lia.
  - intros i Hi. rewrite <- (last_take chars startIndex Hs).
    apply fill_chain. rewrite Hlen. lia.
Qed.

Lemma fillRest_fills_witness :
  ∃ chars',
    fillRest (split "abzzz") 2 = (true, chars')
    ∧ length chars' = length (split "abzzz")
    ∧ take 2 chars' = take 2 (split "abzzz")
    ∧ ∀ i, (2 ≤ i < length (split "abzzz"))%nat →
           chars' !! i = Some (least_after (prev_at chars' i)).
Proof. apply (fillRest_fills (split "abzzz") 2). simpl. lia. Defined.

(** *** The rightmost position decides *)

Lemma answer_from_rev_seq n chars :
  (answer_from (rev (seq 0 n)) chars = "-1"
   ∧ ∀ p, (p < n)%nat → answer_at chars p = None)
  ∨ (∃ p t, (p < n)%nat ∧ answer_at chars p = Some t
            ∧ (∀ p', (p < p' < n)%nat → answer_at chars p' = None)
            ∧ answer_from (rev (seq 0 n)) chars = join t).
Proof.
  induction n as [|n IH].
  - left. split; [done|]. intros p Hp. lia.
  - rewrite seq_S, rev_unit. cbn [answer_from]. simpl.
    destruct (answer_at chars n) as [t|] eqn:Hn.
    + right. exists n, t. split_and!; try done; [lia|]. intros p' Hp'. lia.
    + destruct IH as [[Hm Hnone]|(p & t & Hp & Ht & Hafter & Hres)].
      * left. split; [done|]. intros p Hp.
        destruct (decide (p = n)) as [->|Hne]; [done|]. apply Hnone. lia.
      * right. exists p, t. split_and!; try done; [lia|].
        intros p' Hp'. destruct (decide (p' = n)) as [->|Hne]; [done|].
        apply Hafter. lia.
Qed.

(** An answer at a position to the right of the first difference with a
    candidate is below the candidate. *)
Lemma answer_right_of_difference chars u p t q c y :
  answer_at chars p = Some t → (q < p)%nat →
  chars !! q = Some c → u !! q = Some y → take q chars = take q u →
  (nat_of_ascii c < nat_of_ascii y)%nat →
  lex_lt t u = true.
Proof.
  intros (c' & x & Hc' & Hx & ->)%answer_at_Some Hqp Hc Hy Htake Hcy.
  assert (p < length chars)%nat as Hp by (by eapply lookup_lt_Some).
  set (t := take p chars ++ x :: fill (Some x) (length chars - p - 1)).
  assert (t !! q = Some c) as Htq.
  { unfold t. rewrite lookup_app_l by (rewrite length_take; lia).
    rewrite lookup_take_lt by lia. done. }
  assert (take q t = take q chars) as Htt.
  { unfold t. rewrite take_app_le by (rewrite length_take; lia).
    rewrite take_take. f_equal. lia. }
  rewrite <- (take_drop_middle t q c Htq), <- (take_drop_middle u q y Hy).
  rewrite Htt, Htake, lex_lt_app. by apply lex_lt_cons_lt.
Qed.

Lemma lowercase_split s : lowercase s ↔ lowercase_chars (split s).
Proof. done. Qed.

Lemma split_join t : split (join t) = t.
Proof. apply list_ascii_of_string_of_list_ascii. Qed.

Lemma join_split s : join (split s) = s.
Proof. apply string_of_list_ascii_of_string. Qed.

(** X12: [getSpecialString] on a string of lowercase letters.  It returns
    without throwing.  A result "-1" means that no string of the same
    length is greater than the input and free of equal neighbours.  Any
    other result has the length of the input, consists of lowercase
    letters, is greater than the input, and is below or equal to every
    such string; and if the input has no two equal neighbours, neither has
    the result, which is then the least such string. *)
Theorem getSpecialString_lower_bound (s : string) :
  lowercase s →
  ∃ t, getSpecialString s = Ok t
       ∧ ((t = "-1" ∧ ∀ u, ¬ candidate s u)
          ∨ (String.length t = String.length s
             ∧ lowercase t
             ∧ string_lt s t = true
             ∧ (∀ u, candidate s u → u = t ∨ string_lt t u = true)
             ∧ (special s = true → candidate s t))).
Proof.
  intros Hlow. rewrite getSpecialString_spec. eexists. split; [done|].
  rewrite <- length_split.
  assert (∀ u, candidate s u →
               ∃ q c y t', (q < length (split s))%nat
                 ∧ split s !! q = Some c ∧ split u !! q = Some y
                 ∧ take q (split s) = take q (split u)
                 ∧ (nat_of_ascii c < nat_of_ascii y)%nat
                 ∧ answer_at (split s) q = Some t'
                 ∧ (t' = split u ∨ lex_lt t' (split u) = true)) as Hcand.
  { intros u (Hlen & Hulow & Hlt & Hspecial).
    apply candidate_position; try done.
    by rewrite !length_split. }
  destruct (answer_from_rev_seq (length (split s)) (split s))
    as [[Hm Hnone]|(p & t & Hp & Ht & Hafter & Hres)].
  - left. split; [done|]. intros u Hu.
    destruct (Hcand u Hu) as (q & c & y & t' & Hq & _ & _ & _ & _ & Hq' & _).
    rewrite Hnone in Hq' by done. done.
  - right. rewrite Hres.
    destruct (answer_at_properties (split s) p t Hlow Ht)
      as (Hlen & Htlow & Hlt & Hadj).
    assert (String.length (join t) = length (split s)) as Hlen'.
    { by rewrite <- length_split, split_join. }
    assert (lowercase (join t)) as Hlow'.
    { apply lowercase_split. by rewrite split_join. }
    assert (string_lt s (join t) = true) as Hlt'.
    { unfold string_lt. fold (split s) (split (join t)). by rewrite split_join. }
    split_and!; try done.
    + intros u Hu.
      destruct (Hcand u Hu)
        as (q & c & y & t' & Hq & Hc & Hy & Htake & Hcy & Hq' & Hle).
      unfold string_lt. fold (split (join t)) (split u). rewrite split_join.
      destruct (decide (q = p)) as [->|Hne].
      * rewrite Ht in Hq'. injection Hq' as <-.
        destruct Hle as [->|Hle]; [|by right].
        left. by rewrite join_split.
      * right. assert (q < p)%nat as Hqp.
        { destruct (decide (q < p)%nat) as [|Hge]; [done|].
          rewrite Hafter in Hq' by lia. done. }
        by eapply answer_right_of_difference.
    + intros Hspecial. unfold candidate. split_and!; try done.
      * by rewrite Hlen', length_split.
      * unfold special. fold (split (join t)). rewrite split_join.
        by apply Hadj.
Qed.

Lemma getSpecialString_lower_bound_witness :
  ∃ t, getSpecialString "abcdez" = Ok t
       ∧ ((t = "-1" ∧ ∀ u, ¬ candidate "abcdez" u)
          ∨ (String.length t = String.length "abcdez"
             ∧ lowercase t
             ∧ string_lt "abcdez" t = true
             ∧ (∀ u, candidate "abcdez" u → u = t ∨ string_lt t u = true)
             ∧ (special "abcdez" = true → candidate "abcdez" t))).
Proof.
  apply getSpecialString_lower_bound.
  unfold lowercase. simpl. repeat constructor; simpl; lia.
Defined.

End SpecialStringMoreFacts.

(** ** The recursion exercises and the helper of the test harness *)

Module ExerciseFacts.
Import Exercises.

Lemma clamp_inside (len : nat) (i : Z) :
  0 ≤ i ≤ Z.of_nat len → clamp len i = Z.to_nat i.
Proof. intros H. unfold clamp. f_equal. lia. Qed.

Lemma substring_prefix (s : list ascii) (n : Z) :
  substring s 0 n = take (Z.to_nat n) s.
Proof.
  unfold substring, clamp.
  replace (Z.to_nat (Z.min (Z.max 0 0) (Z.of_nat (length s)))) with 0%nat by lia.
  rewrite Nat.min_0_l, Nat.max_0_l, Nat.sub_0_r, drop_0.
  destruct (decide (n ≤ Z.of_nat (length s))) as [Hle|Hgt].
  - f_equal. lia.
  - rewrite !take_ge; [done | lia | lia].
Qed.

Lemma substring_one (s : list ascii) :
  length s = 1%nat → substring s 1 (Z.of_nat (length s) - 1) = s.
Proof.
  intros Hlen. unfold substring, clamp. rewrite Hlen.
  change (Z.to_nat (Z.min (Z.max 1 0) (Z.of_nat 1))) with 1%nat.
  change (Z.to_nat (Z.min (Z.max (Z.of_nat 1 - 1) 0) (Z.of_nat 1))) with 0%nat.
  simpl. rewrite drop_0. apply take_ge. lia.
Qed.

Lemma substring_middle (x y : ascii) (mid : list ascii) :
  substring (x :: mid ++ [y]) 1 (Z.of_nat (length (x :: mid ++ [y])) - 1) = mid.
Proof.
  unfold substring.
  assert (Hlen : length (x :: mid ++ [y]) = S (S (length mid))).
  { simpl. rewrite length_app. simpl. lia. }
  rewrite Hlen, !clamp_inside by lia.
  replace (Z.to_nat 1) with 1%nat by lia.
  replace (Z.to_nat (Z.of_nat (S (S (length mid))) - 1)) with (S (length mid)) by lia.
  rewrite Nat.min_l, Nat.max_r by lia.
  replace (S (length mid) - 1)%nat with (length mid) by lia.
  simpl. rewrite drop_0. apply take_app_length.
Qed.

Lemma first_and_last (s : list ascii) :
  (2 ≤ length s)%nat → ∃ x mid y, s = x :: mid ++ [y].
Proof.
  intros Hlen. destruct s as [|x s']; [simpl in Hlen; lia|].
  destruct s' as [|y' s''] using rev_ind; [simpl in Hlen; lia|].
  eauto.
Qed.

Lemma reverse_even_length (k : nat) :
  ∀ depth s, length s = (2 * k)%nat → (k < depth)%nat →
    reverse depth s = Some (rev s).
Proof.
  induction k as [|k IH]; intros depth s Hlen Hdepth;
    (destruct depth as [|d]; [lia|]).
  - destruct s; [done | simpl in Hlen; lia].
  - destruct (first_and_last s) as (x & mid & y & ->); [lia|].
    assert (Hmid : length mid = (2 * k)%nat).
    { simpl in Hlen. rewrite length_app in Hlen. simpl in Hlen. lia. }
    cbn [reverse].
    destruct (Nat.eqb_spec (length (x :: mid ++ [y])) 0) as [H0|_];
      [simpl in H0; lia|].
    rewrite substring_middle, (IH d mid Hmid) by lia.
    unfold charAt.
    assert (Hlast : (x :: mid ++ [y]) !! (length (x :: mid ++ [y]) - 1)%nat = Some y).
    { simpl. rewrite Nat.sub_0_r, length_app. simpl.
      replace (length mid + 1)%nat with (S (length mid)) by lia.
      change ((x :: mid ++ [y]) !! S (length mid)) with ((mid ++ [y]) !! length mid).
      rewrite lookup_app_r by lia. by rewrite Nat.sub_diag. }
    rewrite Hlast. simpl. f_equal.
    rewrite rev_app_distr. done.
Qed.

Lemma reverse_odd_length (depth : nat) :
  ∀ s, Nat.Odd (length s) → reverse depth s = None.
Proof.
  induction depth as [|d IH]; intros s Hodd; [done|].
  cbn [reverse].
  destruct (Nat.eqb_spec (length s) 0) as [H0|Hpos].
  { rewrite H0 in Hodd. destruct Hodd as [n Hn]. lia. }
  destruct (decide (length s = 1%nat)) as [H1|Hmore].
  - rewrite (substring_one s H1), (IH s Hodd). done.
  - destruct (first_and_last s) as (x & mid & y & ->); [lia|].
    rewrite substring_middle, (IH mid); [done|].
    destruct Hodd as [n Hn]. simpl in Hn. rewrite length_app in Hn.
    simpl in Hn. exists (n - 1)%nat.
    assert (n ≠ 0%nat).
    { intros ->. apply Hmore. simpl. rewrite length_app. simpl. lia. }
    lia.
Qed.

(** X13. [truncateString] returns a string of at most [maxLength]
    characters unchanged; of a longer one it keeps the first [maxLength]
    characters (none when [maxLength] is negative) and appends three
    dots, so the result has [maxLength + 3] characters and can be longer
    than the string it shortens. *)
Theorem truncateString_cases (str : list ascii) (maxLength : Z) :
  (Z.of_nat (length str) ≤ maxLength → truncateString str maxLength = str)
  ∧ (maxLength < Z.of_nat (length str) →
       truncateString str maxLength
       = take (Z.to_nat maxLength) str ++ list_ascii_of_string "..."
       ∧ Z.of_nat (length (truncateString str maxLength))
         = Z.max maxLength 0 + 3).
Proof.
  unfold truncateString. split; intros H.
  - by destruct (Z.leb_spec (Z.of_nat (length str)) maxLength); [|lia].
  - destruct (Z.leb_spec (Z.of_nat (length str)) maxLength); [lia|].
    rewrite substring_prefix. split; [done|].
    rewrite length_app, length_take. simpl. lia.
Qed.

Lemma truncateString_cases_witness :
  truncateString (list_ascii_of_string "ab") 2 = list_ascii_of_string "ab"
  ∧ truncateString (list_ascii_of_string "abcd") 2
    = list_ascii_of_string "ab..."
  ∧ Z.of_nat (length (truncateString (list_ascii_of_string "abcd") 2)) = 5.
Proof.
  split.
  - apply (truncateString_cases (list_ascii_of_string "ab") 2). simpl. lia.
  - apply (truncateString_cases (list_ascii_of_string "abcd") 2). simpl. lia.
Defined.

(** X14. [reverse] returns the reversed string for a string of even
    length, once the call stack allows half its length plus one calls.
    For a string of odd length it returns at no depth of the stack: the
    recursion reaches a string of one character, where
    [substring(1, 0)] swaps its arguments and gives that string back. *)
Theorem reverse_even_or_never (s : list ascii) :
  (Nat.Even (length s) →
     ∀ depth, (length s / 2 < depth)%nat → reverse depth s = Some (rev s))
  ∧ (Nat.Odd (length s) → ∀ depth, reverse depth s = None).
Proof.
  split.
  - intros [k Hk] depth Hdepth. apply (reverse_even_length k); [done|].
    rewrite Hk in Hdepth.
    by rewrite (Nat.mul_comm 2 k), Nat.div_mul in Hdepth.
  - intros Hodd depth. by apply reverse_odd_length.
Qed.

Lemma reverse_even_or_never_witness :
  reverse 3 (list_ascii_of_string "abcd") = Some (list_ascii_of_string "dcba")
  ∧ reverse 1000 (list_ascii_of_string "hello") = None.
Proof.
  split.
  - apply (reverse_even_or_never (list_ascii_of_string "abcd")).
    + by exists 2%nat.
    + simpl. lia.
  - apply (reverse_even_or_never (list_ascii_of_string "hello")).
    by exists 2%nat.
Defined.

Lemma findMax_spec (rest : list Z) :
  ∀ i, rest ≠ [] →
    ∃ m k, findMax i rest = Some (m, (i + k)%nat)
           ∧ rest !! k = Some m
           ∧ (∀ (j : nat) x, rest !! j = Some x → x ≤ m)
           ∧ (∀ (j : nat) x, (k < j)%nat → rest !! j = Some x → x < m).
Proof.
  induction rest as [|x rest IH]; intros i Hne; [done|].
  destruct (decide (rest = [])) as [->|Hrest].
  - exists x, 0%nat. simpl. rewrite Nat.add_0_r. split; [done|]. split; [done|].
    split.
    + intros [|j] y Hy; simpl in Hy; [injection Hy as <-; lia | done].
    + intros [|j] y Hj Hy; [lia | done].
  - destruct (IH (S i) Hrest) as (m & k & Hfind & Hk & Hall & Hlater).
    cbn [findMax]. rewrite Hfind.
    destruct (Z.ltb_spec m x) as [Hlt|Hge].
    + exists x, 0%nat. rewrite Nat.add_0_r. split; [done|]. split; [done|].
      split.
      * intros [|j] y Hy; simpl in Hy; [injection Hy as <-; lia|].
        specialize (Hall j y Hy). lia.
      * intros [|j] y Hj Hy; [lia|]. simpl in Hy.
        specialize (Hall j y Hy). lia.
    + exists m, (S k). replace (i + S k)%nat with (S i + k)%nat by lia.
      split; [done|]. split; [done|]. split.
      * intros [|j] y Hy; simpl in Hy; [injection Hy as <-; lia|].
        by apply (Hall j).
      * intros [|j] y Hj Hy; [lia|]. simpl in Hy.
        apply (Hlater j); [lia | done].
Qed.

(** X15. [findMaximumElement] returns the pair of nulls for the empty
    array.  For any other array it returns the largest element and the
    index of its last occurrence: the element at the index is the value,
    no element is larger, and every element after the index is
    smaller. *)
Theorem findMaximumElement_last_maximum (lst : list Z) :
  (lst = [] → findMaximumElement lst = None)
  ∧ (lst ≠ [] →
       ∃ maxValue maxIndex,
         findMaximumElement lst = Some (maxValue, maxIndex)
         ∧ lst !! maxIndex = Some maxValue
         ∧ (∀ (j : nat) x, lst !! j = Some x → x ≤ maxValue)
         ∧ (∀ (j : nat) x, (maxIndex < j)%nat → lst !! j = Some x →
              x < maxValue)).
Proof.
  split; [by intros ->|]. intros Hne.
  destruct (findMax_spec lst 0 Hne) as (m & k & H). by exists m, k.
Qed.

Lemma findMaximumElement_last_maximum_witness :
  ∃ maxValue maxIndex,
    findMaximumElement [3; 5; 1; 5; 2] = Some (maxValue, maxIndex)
    ∧ [3; 5; 1; 5; 2] !! maxIndex = Some maxValue
    ∧ (∀ (j : nat) x, [3; 5; 1; 5; 2] !! j = Some x → x ≤ maxValue)
    ∧ (∀ (j : nat) x, (maxIndex < j)%nat → [3; 5; 1; 5; 2] !! j = Some x →
         x < maxValue).
Proof.
  apply (findMaximumElement_last_maximum [3; 5; 1; 5; 2]). discriminate.
Defined.

Lemma rowMax_spec (r : nat) (cells : list Z) (below : position) :
  ∀ c,
    (rowMax r c cells below = below
     ∧ ∀ (j : nat) x, cells !! j = Some x → gt x (maxValue below) = false)
    ∨ (∃ k m,
         rowMax r c cells below
         = mkPosition (Num m) (Z.of_nat r) (Z.of_nat (c + k))
         ∧ cells !! k = Some m
         ∧ gt m (maxValue below) = true
         ∧ (∀ (j : nat) x, cells !! j = Some x → x ≤ m)
         ∧ (∀ (j : nat) x, (k < j)%nat → cells !! j = Some x → x < m)).
Proof.
  induction cells as [|x cells IH]; intros c; [by left|].
  cbn [rowMax].
  destruct (IH (S c)) as [[Heq Hall]|(k & m & Heq & Hk & Hgt & Hall & Hlater)];
    rewrite Heq.
  - destruct (gt x (maxValue below)) eqn:Hx.
    + right. exists 0%nat, x. rewrite Nat.add_0_r.
      split; [done|]. split; [done|]. split; [done|]. split.
      * intros [|j] y Hy; simpl in Hy; [injection Hy as <-; lia|].
        specialize (Hall j y Hy). destruct (maxValue below) as [|z]; [done|].
        simpl in Hx, Hall. lia.
      * intros [|j] y Hj Hy; [lia|]. simpl in Hy.
        specialize (Hall j y Hy). destruct (maxValue below) as [|z]; [done|].
        simpl in Hx, Hall. lia.
    + left. split; [done|].
      intros [|j] y Hy; simpl in Hy; [by injection Hy as <- | by apply (Hall j)].
  - cbn [maxValue gt].
    destruct (Z.ltb_spec m x) as [Hlt|Hge].
    + right. exists 0%nat, x. rewrite Nat.add_0_r.
      split; [done|]. split; [done|]. split.
      { destruct (maxValue below) as [|z]; [done|]. simpl in *. lia. }
      split.
      * intros [|j] y Hy; simpl in Hy; [injection Hy as <-; lia|].
        specialize (Hall j y Hy). lia.
      * intros [|j] y Hj Hy; [lia|]. simpl in Hy.
        specialize (Hall j y Hy). lia.
    + right. exists (S k), m.
      replace (c + S k)%nat with (S c + k)%nat by lia.
      split; [done|]. split; [done|]. split; [done|]. split.
      * intros [|j] y Hy; simpl in Hy; [injection Hy as <-; lia|].
        by apply (Hall j).
      * intros [|j] y Hj Hy; [lia|]. simpl in Hy.
        apply (Hlater j); [lia | done].
Qed.

Lemma matrixMax_spec (rows : list (list Z)) :
  ∀ r,
    (matrixMax r rows = mkPosition NegInfinity (-1) (-1)
     ∧ ∀ cells, cells ∈ rows → cells = [])
    ∨ (∃ (i k : nat) m cells,
         matrixMax r rows
         = mkPosition (Num m) (Z.of_nat (r + i)) (Z.of_nat k)
         ∧ rows !! i = Some cells ∧ cells !! k = Some m
         ∧ ∀ (i' j : nat) cells' x,
             rows !! i' = Some cells' → cells' !! j = Some x →
             x ≤ m ∧ ((i < i')%nat ∨ (i = i' ∧ k < j)%nat → x < m)).
Proof.
  induction rows as [|cells rows IH]; intros r.
  { left. split; [done|]. intros cells Hin. by apply elem_of_nil in Hin. }
  cbn [matrixMax].
  destruct (rowMax_spec r cells (matrixMax (S r) rows) 0)
    as [[Heq Hall]|(k & m & Heq & Hk & Hgt & Hall & Hlater)]; rewrite Heq.
  - destruct (IH (S r))
      as [[Hbase Hempty]|(i & k & m & cells0 & Hres & Hi & Hk & Hmax)].
    + left. split; [done|]. intros cells' Hin.
      apply elem_of_cons in Hin as [Hhead | Hin]; [|by apply Hempty].
      subst cells'. destruct cells as [|x cells]; [done|].
      specialize (Hall 0%nat x eq_refl). by rewrite Hbase in Hall.
    + right. exists (S i), k, m, cells0.
      replace (r + S i)%nat with (S r + i)%nat by lia.
      split; [done|]. split; [done|]. split; [done|].
      intros [|i'] j cells' x Hrow Hx.
      * simpl in Hrow. injection Hrow as <-.
        specialize (Hall j x Hx). rewrite Hres in Hall. simpl in Hall.
        split; [lia|]. intros [?|[? _]]; lia.
      * simpl in Hrow. destruct (Hmax i' j cells' x Hrow Hx) as [Hle Hlt].
        split; [done|]. intros [?|[? ?]]; apply Hlt; [left; lia | right; lia].
  - right. exists 0%nat, k, m, cells. rewrite Nat.add_0_r.
    split; [done|]. split; [done|]. split; [done|].
    intros [|i'] j cells' x Hrow Hx.
    + simpl in Hrow. injection Hrow as <-. split; [by apply (Hall j)|].
      intros [?|[_ ?]]; [lia|]. by apply (Hlater j).
    + simpl in Hrow.
      assert (x < m); [|split; [lia | done]].
      destruct (IH (S r))
        as [[Hbase Hempty]|(i0 & k0 & m0 & cells0 & Hres & Hi0 & Hk0 & Hmax)].
      * assert (cells' = []) as ->; [|done].
        apply Hempty. by eapply list_elem_of_lookup_2.
      * rewrite Hres in Hgt. simpl in Hgt.
        destruct (Hmax i' j cells' x Hrow Hx) as [Hle _]. lia.
Qed.

(** X16. [findMatrixMax] returns the value [-Infinity] at row and column
    [-1] when the matrix has no cell at all (no row, or empty rows only).
    Otherwise it returns the largest cell with the position of its last
    occurrence in reading order: the cell at that position holds the
    value, no cell is larger, and every cell after it is smaller. *)
Theorem findMatrixMax_last_maximum (lst : list (list Z)) :
  ((∀ cells, cells ∈ lst → cells = []) →
     findMatrixMax lst = mkPosition NegInfinity (-1) (-1))
  ∧ ((∃ cells, cells ∈ lst ∧ cells ≠ []) →
       ∃ (r c : nat) m cells,
         findMatrixMax lst = mkPosition (Num m) (Z.of_nat r) (Z.of_nat c)
         ∧ lst !! r = Some cells ∧ cells !! c = Some m
         ∧ ∀ (r' c' : nat) cells' x,
             lst !! r' = Some cells' → cells' !! c' = Some x →
             x ≤ m ∧ ((r < r')%nat ∨ (r = r' ∧ c < c')%nat → x < m)).
Proof.
  unfold findMatrixMax.
  destruct (matrixMax_spec lst 0)
    as [[Hbase Hempty]|(i & k & m & cells & Hres & Hi & Hk & Hmax)].
  - split; [done|]. intros (cells & Hin & Hne). by apply Hempty in Hin.
  - split.
    + intros Hempty. apply list_elem_of_lookup_2 in Hi.
      apply Hempty in Hi. by subst cells.
    + intros _. by exists i, k, m, cells.
Qed.

Lemma findMatrixMax_last_maximum_witness :
  findMatrixMax [[]; []] = mkPosition NegInfinity (-1) (-1)
  ∧ ∃ (r c : nat) m cells,
      findMatrixMax [[1; 7]; []; [7; 2]]
      = mkPosition (Num m) (Z.of_nat r) (Z.of_nat c)
      ∧ [[1; 7]; []; [7; 2]] !! r = Some cells ∧ cells !! c = Some m
      ∧ ∀ (r' c' : nat) cells' x,
          [[1; 7]; []; [7; 2]] !! r' = Some cells' → cells' !! c' = Some x →
          x ≤ m ∧ ((r < r')%nat ∨ (r = r' ∧ c < c')%nat → x < m).
Proof.
  split.
  - apply (findMatrixMax_last_maximum [[]; []]).
    intros cells Hin.
    apply elem_of_cons in Hin as [Hc | Hin]; [done|].
    apply elem_of_cons in Hin as [Hc | Hin]; [done|].
    by apply elem_of_nil in Hin.
  - apply (findMatrixMax_last_maximum [[1; 7]; []; [7; 2]]).
    exists [1; 7]. split; [apply elem_of_cons; by left | discriminate].
Defined.

End ExerciseFacts.

(** ** The iterator example *)

Module IteratorFacts.
Import Iterator.

Lemma loop_spec {A} (this : CustomCollection A) (calls : nat) :
  ∀ index, loop calls this index = take calls (drop index (items this)).
Proof.
  induction calls as [|n IH]; intros index; [done|].
  cbn [loop]. unfold next.
  destruct (items this !! index) as [item|] eqn:Hitem.
  - rewrite IH. by rewrite (drop_S _ _ _ Hitem).
  - apply lookup_ge_None in Hitem. by rewrite drop_ge.
Qed.

(** X17. An iterator started on a collection yields the items in the
    order they were added, once each, when [next] is called at least as
    often as there are items; after the last item [next] answers [done]
    and leaves the index alone.  The iterator reads the array of the
    collection itself: an item added after [done] is yielded by the next
    call. *)
Theorem iterator_yields_items {A} (this : CustomCollection A) (calls : nat) :
  (length (items this) ≤ calls)%nat →
  loop calls this 0 = items this
  ∧ next this (length (items this)) = (Done, length (items this))
  ∧ ∀ item, next (addItem this item) (length (items this))
            = (Value item, S (length (items this))).
Proof.
  intros Hcalls. split; [|split].
  - rewrite loop_spec, drop_0. by apply take_ge.
  - unfold next. by rewrite (lookup_ge_None_2 (items this)).
  - intros item. unfold next, addItem. simpl.
    by rewrite lookup_app_r, Nat.sub_diag.
Qed.

Lemma iterator_yields_items_witness :
  let this := addItem (addItem new_CustomCollection 1) 2 in
  loop 5 this 0 = [1; 2]
  ∧ next this 2 = (Done, 2%nat)
  ∧ ∀ item, next (addItem this item) 2 = (Value item, 3%nat).
Proof.
  apply (iterator_yields_items (addItem (addItem new_CustomCollection 1) 2) 5).
  simpl. lia.
Defined.

End IteratorFacts.

(** ** Degrees of friendship *)

Module FriendshipFacts.
Import JS Friendship.

Lemma has_spec (visited : list nat) (x : nat) :
  has visited x = true ↔ x ∈ visited.
Proof. unfold has. by rewrite bool_decide_eq_true. Qed.

Lemma pushFriends_spec (rest : list Z) :
  ∀ friend visited queue,
    ∃ new, pushFriends friend rest visited queue = queue ++ new
           ∧ ∀ w, w ∈ new ↔
                  (w ∉ visited)
                  ∧ ∃ i, w = (friend + i)%nat ∧ rest !! i = Some 1.
Proof.
  induction rest as [|x rest IH]; intros friend visited queue.
  { exists []. split; [by rewrite app_nil_r|]. intros w. split.
    - intros Hw. by apply elem_of_nil in Hw.
    - by intros (_ & i & _ & Hi). }
  cbn [pushFriends].
  destruct ((x =? 1) && negb (has visited friend)) eqn:Hc.
  - destruct (IH (S friend) visited (queue ++ [friend])) as (new & -> & Hnew).
    apply andb_true_iff in Hc as [Hx Hv]. apply Z.eqb_eq in Hx as ->.
    apply negb_true_iff in Hv.
    assert (friend ∉ visited) as Hfv.
    { intros Hin. apply has_spec in Hin. congruence. }
    exists (friend :: new). split; [by rewrite <- app_assoc|].
    intros w. rewrite elem_of_cons, Hnew. split.
    + intros [-> | (Hw & i & -> & Hi)].
      * split; [done|]. exists 0%nat. split; [lia | done].
      * split; [done|]. exists (S i). split; [lia | done].
    + intros (Hw & [|i] & -> & Hi).
      * left. lia.
      * right. split; [done|]. exists i. split; [lia | done].
  - destruct (IH (S friend) visited queue) as (new & -> & Hnew).
    exists new. split; [done|]. intros w. rewrite Hnew. split.
    + intros (Hw & i & -> & Hi). split; [done|].
      exists (S i). split; [lia | done].
    + intros (Hw & [|i] & -> & Hi).
      * exfalso. simpl in Hi. injection Hi as ->.
        rewrite Nat.add_0_r in Hw.
        apply andb_false_iff in Hc as [Hc|Hc]; [done|].
        apply negb_false_iff, has_spec in Hc. done.
      * split; [done|]. exists i. split; [lia | done].
Qed.

Section Search.
Variable friends : list (list Z).
Variables a b : nat.
Hypothesis Hrows : ∀ row, row ∈ friends → (length row ≤ length friends)%nat.
Hypothesis Ha : (a < length friends)%nat.
Hypothesis Hab : a ≠ b.

Lemma chain_valid v n : chain friends a v n → (v < length friends)%nat.
Proof.
  induction 1 as [|v w n _ _ (row & Hrow & Hw)]; [done|].
  apply list_elem_of_lookup_2, Hrows in Hrow.
  apply lookup_lt_Some in Hw. lia.
Qed.

Lemma forLevel_spec depth todo :
  ∀ vis extra,
    (∀ u, u ∈ todo → (u < length friends)%nat) →
    (forLevel friends b depth (length todo) (mkState vis (todo ++ extra))
     = Ok (Return depth)
     ∧ ∃ u, u ∈ todo ∧ edge friends u b)
    ∨ (∃ vis' pushed,
         forLevel friends b depth (length todo) (mkState vis (todo ++ extra))
         = Ok (Continue (mkState vis' (extra ++ pushed)))
         ∧ (∀ v, v ∈ vis' ↔ v ∈ vis ∨ v ∈ todo)
         ∧ (NoDup vis → NoDup vis')
         ∧ (length vis ≤ length vis')%nat
         ∧ (length vis' = length vis → pushed = [])
         ∧ (∀ w, w ∈ pushed → ∃ u, u ∈ todo ∧ edge friends u w)
         ∧ (∀ u w, u ∈ todo → u ∉ vis → edge friends u w →
                   w ∈ vis' ∨ w ∈ pushed)
         ∧ (∀ u, u ∈ todo → u ∉ vis → ¬ edge friends u b)).
Proof.
  induction todo as [|current todo IH]; intros vis extra Hvalid.
  { right. exists vis, []. simpl. rewrite app_nil_r.
    split; [done|]. split.
    { intros v. split; [by left|]. intros [?|Hv]; [done|].
      by apply elem_of_nil in Hv. }
    split; [done|]. split; [done|]. split; [done|]. split.
    { intros w Hw. by apply elem_of_nil in Hw. }
    split; intros u; [intros w|]; intros Hu; by apply elem_of_nil in Hu. }
  assert (Hvalid' : ∀ u, u ∈ todo → (u < length friends)%nat).
  { intros u Hu. apply Hvalid. by right. }
  cbn [length forLevel app queue visited].
  destruct (has vis current) eqn:Hhas.
  - apply has_spec in Hhas.
    destruct (IH vis extra Hvalid')
      as [[-> (u & Hu & Hedge)]
         |(vis' & pushed & -> & Hmem & Hnd & Hlen & Hsame & Hpushed & Hnext & Hb)].
    + left. split; [done|]. exists u. split; [by right | done].
    + right. exists vis', pushed. split; [done|]. split.
      { intros v. rewrite Hmem, elem_of_cons. split.
        - intros [?|?]; [by left | by right; right].
        - intros [?|[-> | ?]]; [by left | by left | by right]. }
      split; [done|]. split; [done|]. split; [done|]. split.
      { intros w Hw. destruct (Hpushed w Hw) as (u & Hu & He).
        exists u. split; [by right | done]. }
      split.
      { intros u w Hu Hnv He. apply elem_of_cons in Hu as [-> | Hu]; [done|].
        by apply (Hnext u). }
      intros u Hu Hnv. apply elem_of_cons in Hu as [-> | Hu]; [done|].
      by apply Hb.
  - assert (Hnew : current ∉ vis).
    { intros Hin. apply has_spec in Hin. congruence. }
    destruct (friends !! current) as [row|] eqn:Hrow; cycle 1.
    { apply lookup_ge_None in Hrow.
      specialize (Hvalid current (list_elem_of_here _ _)). lia. }
    destruct (row !! b) as [x|] eqn:Hx; cycle 1.
    all: swap 1 2.
    + destruct (Z.eqb_spec x 1) as [->|Hx1].
      { left. split; [done|]. exists current.
        split; [apply list_elem_of_here|]. by exists row. }
      destruct (pushFriends_spec row 0 (current :: vis) (todo ++ extra))
        as (new & -> & Hnew_spec).
      rewrite <- app_assoc.
      destruct (IH (current :: vis) (extra ++ new) Hvalid')
        as [[-> (u & Hu & Hedge)]
           |(vis' & pushed & -> & Hmem & Hnd & Hlen & Hsame & Hpushed & Hnext & Hb)].
      * left. split; [done|]. exists u. split; [by right | done].
      * right. exists vis', (new ++ pushed). rewrite <- app_assoc.
        split; [done|]. split.
        { intros v. rewrite Hmem, !elem_of_cons. tauto. }
        split.
        { intros Hvis. apply Hnd. by apply NoDup_cons. }
        split; [simpl in Hlen; lia|]. split; [simpl in Hlen; lia|]. split.
        { intros w Hw. apply elem_of_app in Hw as [Hw|Hw].
          - exists current. split; [apply list_elem_of_here|].
            apply Hnew_spec in Hw as (_ & i & -> & Hi). by exists row.
          - destruct (Hpushed w Hw) as (u & Hu & He).
            exists u. split; [by right | done]. }
        split.
        { intros u w Hu Hnv He. rewrite elem_of_app.
          destruct (decide (u = current)) as [->|Hne].
          - destruct He as (row' & Hrow' & Hw).
            assert (row' = row) as -> by congruence.
            destruct (decide (w ∈ current :: vis)) as [Hin|Hnin].
            + left. apply Hmem. by left.
            + right. left. apply Hnew_spec. split; [done|].
              by exists w.
          - apply elem_of_cons in Hu as [? | Hu]; [done|].
            destruct (Hnext u w Hu) as [?|?]; [|done|by left|by right; right].
            intros Hin. apply elem_of_cons in Hin as [?|?]; done. }
        intros u Hu Hnv.
        destruct (decide (u = current)) as [->|Hne].
        -- intros (row' & Hrow' & Hw).
           assert (row' = row) as -> by congruence.
           rewrite Hx in Hw. by injection Hw.
        -- apply elem_of_cons in Hu as [? | Hu]; [done|].
           apply Hb; [done|].
           intros Hin. apply elem_of_cons in Hin as [?|?]; done.
    + destruct (pushFriends_spec row 0 (current :: vis) (todo ++ extra))
        as (new & -> & Hnew_spec).
      rewrite <- app_assoc.
      destruct (IH (current :: vis) (extra ++ new) Hvalid')
        as [[-> (u & Hu & Hedge)]
           |(vis' & pushed & -> & Hmem & Hnd & Hlen & Hsame & Hpushed & Hnext & Hb)].
      * left. split; [done|]. exists u. split; [by right | done].
      * right. exists vis', (new ++ pushed). rewrite <- app_assoc.
        split; [done|]. split.
        { intros v. rewrite Hmem, !elem_of_cons. tauto. }
        split.
        { intros Hvis. apply Hnd. by apply NoDup_cons. }
        split; [simpl in Hlen; lia|]. split; [simpl in Hlen; lia|]. split.
        { intros w Hw. apply elem_of_app in Hw as [Hw|Hw].
          - exists current. split; [apply list_elem_of_here|].
            apply Hnew_spec in Hw as (_ & i & -> & Hi). by exists row.
          - destruct (Hpushed w Hw) as (u & Hu & He).
            exists u. split; [by right | done]. }
        split.
        { intros u w Hu Hnv He. rewrite elem_of_app.
          destruct (decide (u = current)) as [->|Hne].
          - destruct He as (row' & Hrow' & Hw).
            assert (row' = row) as -> by congruence.
            destruct (decide (w ∈ current :: vis)) as [Hin|Hnin].
            + left. apply Hmem. by left.
            + right. left. apply Hnew_spec. split; [done|].
              by exists w.
          - apply elem_of_cons in Hu as [? | Hu]; [done|].
            destruct (Hnext u w Hu) as [?|?]; [|done|by left|by right; right].
            intros Hin. apply elem_of_cons in Hin as [?|?]; done. }
        intros u Hu Hnv.
        destruct (decide (u = current)) as [->|Hne].
        -- intros (row' & Hrow' & Hw).
           assert (row' = row) as -> by congruence.
           rewrite Hx in Hw. done.
        -- apply elem_of_cons in Hu as [? | Hu]; [done|].
           apply Hb; [done|].
           intros Hin. apply elem_of_cons in Hin as [?|?]; done.
Qed.

Lemma no_short_chain depth st :
  invariant friends a b depth st →
  ∀ m, (m ≤ depth)%nat → ¬ chain friends a b m.
Proof.
  intros (Hvis & _ & _ & Hb & _) m Hm Hchain.
  inversion Hchain as [|v w n Hv He]; subst; [done|].
  apply (Hb v); [|done]. apply Hvis. exists n. split; [lia | done].
Qed.

Lemma visited_bound depth st :
  invariant friends a b depth st →
  (length (visited st) ≤ length friends)%nat.
Proof.
  intros (Hvis & _ & _ & _ & Hnd).
  transitivity (length (seq 0 (length friends))); [|by rewrite length_seq].
  apply submseteq_length, NoDup_submseteq; [done|].
  intros v Hv. apply Hvis in Hv as (m & _ & Hchain).
  apply chain_valid in Hchain. apply elem_of_seq. lia.
Qed.

Lemma all_visited_when_empty depth st :
  invariant friends a b depth st → queue st = [] →
  ∀ m v, chain friends a v m → v ∈ visited st.
Proof.
  intros (Hvis & Hq & Hnext & _ & _) Hempty.
  assert (Hclosed : ∀ v, chain friends a v depth → v ∈ visited st).
  { intros v Hv. destruct (Hnext v Hv) as [?|Hin]; [done|].
    rewrite Hempty in Hin. by apply elem_of_nil in Hin. }
  induction m as [|m IH]; intros v Hchain.
  - inversion Hchain; subst.
    destruct depth as [|d]; [by apply Hclosed|].
    apply Hvis. exists 0%nat. split; [lia | done].
  - inversion Hchain as [|u w n Hu He]; subst.
    apply IH, Hvis in Hu as (k & Hk & Hu).
    destruct (decide (S k = depth)) as [<-|Hne].
    + apply Hclosed. by eapply chain_step.
    + apply Hvis. exists (S k). split; [lia|]. by eapply chain_step.
Qed.

Lemma level_spec depth st :
  invariant friends a b depth st →
  (forLevel friends b (Z.of_nat (S depth)) (length (queue st)) st
   = Ok (Return (Z.of_nat (S depth)))
   ∧ shortest friends a b (Z.of_nat (S depth)))
  ∨ (∃ st',
       forLevel friends b (Z.of_nat (S depth)) (length (queue st)) st
       = Ok (Continue st')
       ∧ invariant friends a b (S depth) st'
       ∧ (length (visited st) ≤ length (visited st'))%nat
       ∧ (length (visited st') = length (visited st) → queue st' = [])).
Proof.
  intros Hinv. pose proof Hinv as (Hvis & Hq & Hnext & Hb & Hnd).
  destruct st as [vis q0]. simpl in *.
  assert (Hvalid : ∀ u, u ∈ q0 → (u < length friends)%nat).
  { intros u Hu. destruct (Hq u Hu) as (m & _ & Hchain).
    by eapply chain_valid. }
  destruct (forLevel_spec (Z.of_nat (S depth)) q0 vis [] Hvalid)
    as [[Hrun (u & Hu & Hedge)]
       |(vis' & pushed & Hrun & Hmem & Hnd' & Hlen & Hsame & Hpushed & Hnext' & Hb')];
    rewrite app_nil_r in Hrun.
  - left. split; [done|]. right. exists (S depth). split; [done|].
    destruct (Hq u Hu) as (m & Hm & Hchain).
    assert (Hlong : ∀ k, chain friends a b k → (S depth ≤ k)%nat).
    { intros k Hk. destruct (decide (k ≤ depth)%nat) as [Hle|?]; [|lia].
      by destruct (no_short_chain depth (mkState vis q0) Hinv k Hle). }
    split; [|done].
    assert (Hub : chain friends a b (S m)) by by eapply chain_step.
    apply Hlong in Hub as Hle. by replace depth with m by lia.
  - right. exists (mkState vis' pushed). simpl in Hrun. split; [done|].
    split; [|by split].
    unfold invariant. simpl. split_and!.
    + intros v. rewrite Hmem. split.
      * intros [Hv|Hv].
        -- apply Hvis in Hv as (m & Hm & Hc). exists m. split; [lia | done].
        -- apply Hq in Hv as (m & Hm & Hc). exists m. split; [lia | done].
      * intros (m & Hm & Hc).
        destruct (decide (m = depth)) as [->|Hne].
        -- destruct (Hnext v Hc); [by left | by right].
        -- left. apply Hvis. exists m. split; [lia | done].
    + intros w Hw. destruct (Hpushed w Hw) as (u & Hu & He).
      destruct (Hq u Hu) as (m & Hm & Hc).
      exists (S m). split; [lia|]. by eapply chain_step.
    + intros w Hc. inversion Hc as [|u w' n Hu He]; subst.
      destruct (decide (u ∈ vis)) as [Hin|Hnin].
      * left. apply Hmem.
        apply Hvis in Hin as (m & Hm & Hcu).
        assert (Hcw : chain friends a w (S m)) by by eapply chain_step.
        destruct (decide (S m = depth)) as [<-|Hne].
        -- destruct (Hnext w Hcw); [by left | by right].
        -- left. apply Hvis. exists (S m). split; [lia | done].
      * destruct (Hnext u Hu) as [?|Hin]; [done|].
        by apply (Hnext' u w).
    + intros v Hv. apply Hmem in Hv.
      destruct (decide (v ∈ vis)) as [Hin|Hnin]; [by apply Hb|].
      destruct Hv as [?|Hv]; [done|]. by apply Hb'.
    + by apply Hnd'.
Qed.

Lemma whileLoop_spec fuel :
  ∀ depth st,
    invariant friends a b depth st → (rounds friends st ≤ fuel)%nat →
    ∃ r, whileLoop fuel friends b (Z.of_nat depth) st = Some (Ok r)
         ∧ shortest friends a b r.
Proof.
  induction fuel as [|fuel IH]; intros depth st Hinv Hfuel.
  { unfold rounds in Hfuel. destruct (queue st); lia. }
  cbn [whileLoop].
  destruct (queue st) as [|u q] eqn:Hq.
  - exists (-1). split; [done|]. left. split; [done|].
    intros n Hchain.
    inversion Hchain as [|v w m Hv He]; subst; [done|].
    pose proof Hinv as (_ & _ & _ & Hb & _).
    apply (Hb v); [|done].
    by apply (all_visited_when_empty depth st Hinv Hq m).
  - replace (Z.of_nat depth + 1) with (Z.of_nat (S depth)) by lia.
    rewrite <- Hq.
    destruct (level_spec depth st Hinv)
      as [[-> Hshort]|(st' & -> & Hinv' & Hlen & Hsame)].
    + by exists (Z.of_nat (S depth)).
    + apply IH; [done|].
      pose proof (visited_bound (S depth) st' Hinv') as Hbound.
      unfold rounds in *. rewrite Hq in Hfuel.
      destruct (queue st') as [|u' q'] eqn:Hq''; [lia|].
      destruct (decide (length (visited st') = length (visited st)))
        as [Heq|Hne]; [by apply Hsame in Heq | lia].
Qed.

End Search.

(** X18. On a table of friendships in which no row is longer than the
    table, and for a [userA] that has a row, [friendDistance] returns
    without throwing once the [while] loop is allowed two rounds more
    than there are rows.  The result is the least number of links of a
    chain from [userA] to [userB], where a link from [v] to [w] is a 1
    in row [v] at column [w] (0 when the two users are the same), and it
    is [-1] exactly when there is no such chain. *)
Theorem friendDistance_shortest_chain
    (friends : list (list Z)) (userA userB : nat) :
  (∀ row, row ∈ friends → (length row ≤ length friends)%nat) →
  (userA < length friends)%nat →
  ∃ r, (∀ fuel, (length friends + 2 ≤ fuel)%nat →
          friendDistance fuel friends userA userB = Some (Ok r))
       ∧ shortest friends userA userB r.
Proof.
  intros Hrows Ha. unfold friendDistance.
  destruct (Nat.eqb_spec userA userB) as [<-|Hab].
  { exists 0. split; [done|]. right. exists 0%nat.
    split; [done|]. split; [constructor | lia]. }
  assert (Hinv : invariant friends userA userB 0 (mkState [] [userA])).
  { unfold invariant. simpl. split_and!.
    - intros v. split.
      + intros Hv. by apply elem_of_nil in Hv.
      + intros (m & Hm & _). lia.
    - intros v Hv. apply list_elem_of_singleton in Hv as ->.
      exists 0%nat. split; [lia | constructor].
    - intros v Hv. inversion Hv; subst. right. apply list_elem_of_here.
    - intros v Hv. by apply elem_of_nil in Hv.
    - constructor. }
  destruct (whileLoop_spec friends userA userB Hrows Ha Hab
              (length friends + 2) 0 (mkState [] [userA]) Hinv)
    as (r & Hr & Hshort).
  { unfold rounds. simpl. lia. }
  exists r. split; [|done]. intros fuel Hfuel.
  destruct (whileLoop_spec friends userA userB Hrows Ha Hab
              fuel 0 (mkState [] [userA]) Hinv)
    as (r' & Hr' & Hshort').
  { unfold rounds. simpl. lia. }
  change (Z.of_nat 0) with 0 in Hr'. rewrite Hr'. do 2 f_equal.
  destruct Hshort as [[-> Hno]|(n & -> & Hn & Hmin)],
           Hshort' as [[-> Hno']|(n' & -> & Hn' & Hmin')].
  - done.
  - by destruct (Hno n').
  - by destruct (Hno' n).
  - apply Hmin' in Hn. apply Hmin in Hn'. lia.
Qed.

Lemma friendDistance_shortest_chain_witness :
  ∃ r, (∀ fuel, (5 ≤ fuel)%nat →
          friendDistance fuel [[0; 1; 0]; [1; 0; 1]; [0; 1; 0]] 0 2
          = Some (Ok r))
       ∧ shortest [[0; 1; 0]; [1; 0; 1]; [0; 1; 0]] 0 2 r.
Proof.
  apply (friendDistance_shortest_chain [[0; 1; 0]; [1; 0; 1]; [0; 1; 0]] 0 2).
  - intros row Hrow.
    apply elem_of_cons in Hrow as [-> | Hrow]; [simpl; lia|].
    apply elem_of_cons in Hrow as [-> | Hrow]; [simpl; lia|].
    apply elem_of_cons in Hrow as [-> | Hrow]; [simpl; lia|].
    by apply elem_of_nil in Hrow.
  - simpl. lia.
Defined.

(** X19. For a [userA] that has no row in the table (so for any user of
    the empty table) and a different [userB], [friendDistance] throws a
    [TypeError] in the first round, at [friends[current][userB]]. *)
Theorem friendDistance_unknown_user
    (fuel : nat) (friends : list (list Z)) (userA userB : nat) :
  (length friends ≤ userA)%nat → userA ≠ userB →
  ∃ message,
    friendDistance (S fuel) friends userA userB
    = Some (Throw (TypeError message)).
Proof.
  intros Hrow Hab. unfold friendDistance.
  destruct (Nat.eqb_spec userA userB) as [?|_]; [done|].
  cbn [whileLoop queue length forLevel visited].
  replace (has [] userA) with false; cycle 1.
  { symmetry. apply bool_decide_eq_false. intros Hin.
    by apply elem_of_nil in Hin. }
  rewrite (lookup_ge_None_2 friends userA Hrow). by eexists.
Qed.

Lemma friendDistance_unknown_user_witness :
  ∃ message,
    friendDistance 1 [] 0 1 = Some (Throw (TypeError message)).
Proof.
  apply (friendDistance_unknown_user 0 [] 0 1); [simpl; lia | lia].
Defined.

End FriendshipFacts.

(** ** The flyweight and proxy examples *)

Module FlyweightFacts.
Import Flyweight.

Lemma own_app properties k c key :
  own (properties ++ [(k, c)]) key
  = match own properties key with
    | Some x => Some x
    | None => if decide (k = key) then Some c else None
    end.
Proof.
  induction properties as [|[k' c'] rest IH]; simpl; [done|].
  by destruct (decide (k' = key)).
Qed.

Lemma getCharacter_keeps this symbol font key c :
  own (characters this) key = Some c →
  own (characters (getCharacter this symbol font).2) key = Some c.
Proof.
  intros Hown. unfold getCharacter.
  destruct (get (characters this) (symbol ++ font)); simpl; [done|].
  by rewrite own_app, Hown.
Qed.

Lemma later_keeps this this' key c :
  later this this' →
  own (characters this) key = Some c → own (characters this') key = Some c.
Proof.
  induction 1 as [|this' symbol font _ IH]; intros Hown; [done|].
  by apply getCharacter_keeps, IH.
Qed.

(** X20. [getCharacter] shares by the concatenation [symbol + font].  For
    a key that is no property name of [Object.prototype] it returns a
    [Character]; the object is new, with the given symbol and font, when
    the key had no entry; and after any number of further calls every
    pair with the same concatenation gets that very object and leaves
    the factory as it is, also a pair with another symbol and font. *)
Theorem getCharacter_shares_by_key
    (this : CharacterFactory) (symbol font : string) :
  (symbol ++ font)%string ∉ Object_prototype →
  ∃ c, getCharacter this symbol font
       = (Shared c, (getCharacter this symbol font).2)
       ∧ (own (characters this) (symbol ++ font) = None →
          c = mkCharacter (allocated this) symbol font)
       ∧ ∀ this' symbol' font',
           later (getCharacter this symbol font).2 this' →
           (symbol' ++ font')%string = (symbol ++ font)%string →
           getCharacter this' symbol' font' = (Shared c, this').
Proof.
  intros Hkey.
  assert (∃ c, getCharacter this symbol font
               = (Shared c, (getCharacter this symbol font).2)
               ∧ (own (characters this) (symbol ++ font) = None →
                  c = mkCharacter (allocated this) symbol font)
               ∧ own (characters (getCharacter this symbol font).2)
                   (symbol ++ font) = Some c)
    as (c & Hcall & Hnew & Hown).
  { unfold getCharacter, get.
    destruct (own (characters this) (symbol ++ font)) as [c|] eqn:Hown.
    - exists c. by simpl.
    - destruct (decide ((symbol ++ font)%string ∈ Object_prototype)); [done|].
      exists (mkCharacter (allocated this) symbol font). simpl.
      split; [done|]. split; [done|].
      rewrite own_app, Hown. by destruct (decide _). }
  exists c. split; [done|]. split; [done|].
  intros this' symbol' font' Hlater Hsame.
  apply (later_keeps _ _ _ _ Hlater) in Hown.
  unfold getCharacter, get. by rewrite Hsame, Hown.
Qed.

Lemma getCharacter_shares_by_key_witness :
  ∃ c, getCharacter (new_CharacterFactory 0) "A" "rial"
       = (Shared c, (getCharacter (new_CharacterFactory 0) "A" "rial").2)
       ∧ (own (characters (new_CharacterFactory 0)) ("A" ++ "rial") = None →
          c = mkCharacter (allocated (new_CharacterFactory 0)) "A" "rial")
       ∧ ∀ this' symbol' font',
           later (getCharacter (new_CharacterFactory 0) "A" "rial").2 this' →
           (symbol' ++ font')%string = ("A" ++ "rial")%string →
           getCharacter this' symbol' font' = (Shared c, this').
Proof.
  apply (getCharacter_shares_by_key (new_CharacterFactory 0) "A" "rial").
  vm_compute. intros Hin.
  repeat (apply elem_of_cons in Hin as [Hin | Hin]; [discriminate|]).
  by apply elem_of_nil in Hin.
Defined.

(** X21. For a key that names a property of [Object.prototype], such as
    the pair "to" and "String", [getCharacter] of a factory with no entry
    for the key returns the inherited value, which is no [Character],
    and creates nothing. *)
Theorem getCharacter_inherited_key
    (this : CharacterFactory) (symbol font : string) :
  (symbol ++ font)%string ∈ Object_prototype →
  own (characters this) (symbol ++ font) = None →
  getCharacter this symbol font = (Inherited (symbol ++ font), this).
Proof.
  intros Hkey Hown. unfold getCharacter, get. rewrite Hown.
  by destruct (decide _).
Qed.

Lemma getCharacter_inherited_key_witness :
  getCharacter (new_CharacterFactory 0) "to" "String"
  = (Inherited "toString", new_CharacterFactory 0).
Proof.
  apply (getCharacter_inherited_key (new_CharacterFactory 0) "to" "String").
  - vm_compute. do 5 apply list_elem_of_further. apply list_elem_of_here.
  - reflexivity.
Defined.

End FlyweightFacts.

Module ProxyFacts.
Import Proxy.

Lemma displays_loaded calls :
  ∀ file real console,
    displays calls (mkProxyImage file (Some real)) console
    = (mkProxyImage file (Some real),
       console ++ repeat ("Displaying " ++ real_filename real)%string calls).
Proof.
  induction calls as [|n IH]; intros file real console; simpl.
  - by rewrite app_nil_r.
  - unfold display, RealImage_display. simpl. rewrite IH.
    by rewrite <- app_assoc.
Qed.

(** X22. A [ProxyImage] loads its image at the first [display] only:
    any number of calls, one at least, on a new proxy print one line
    "Loading image from" the file and then one line "Displaying" the
    file per call, and leave the proxy holding the image. *)
Theorem display_loads_once (file : string) (calls : nat) (console : list string) :
  displays (S calls) (new_ProxyImage file) console
  = (mkProxyImage file (Some (mkRealImage file)),
     console ++ [("Loading image from " ++ file)%string]
             ++ repeat ("Displaying " ++ file)%string (S calls)).
Proof.
  cbn [displays]. unfold display, new_ProxyImage, new_RealImage,
    RealImage_display. simpl.
  rewrite displays_loaded. simpl. by rewrite <- !app_assoc.
Qed.

End ProxyFacts.
